(** * dwv display-state core: the View and the Stage (src/image/view.js)

    A shallow embedding of the View entity (current index/position,
    window/level state, window LUT cache, window preset registry) and of the
    Stage synchronisation engine (binders, memoised callbacks, listener
    suspension), together with the properties stated about them.

    Conventions of the embedding:
    - JavaScript numbers that carry window centres, widths, slopes,
      intercepts and world coordinates are IEEE 754 binary64 values
      ([PrimFloat.float]); [<] is [PrimFloat.ltb], [===] is [PrimFloat.eqb].
    - Index components and sizes are integers ([Z]); dimension numbers and
      array positions are [nat].
    - A JavaScript object used as a dictionary (the preset registry) is the
      association list of its own properties in [Object.keys] order, read
      through [Object.prototype] where the code reads a member by name; the
      window LUT cache, whose order is never observed, is a [gmap].
    - A method that mutates the view, fires events or throws is a computation
      in the monad [M]: it maps a world (view state and the trace of fired
      events) to a completion (normal or thrown) and the world it leaves. *)

From Stdlib Require Import Floats ZArith Ascii.
From stdpp Require Import gmap strings list.

(** ** Completions and the state-and-exception monad *)

Inductive Completion (A : Type) : Type :=
| Normal (a : A)
| Throw (msg : string).
Arguments Normal {A} a.
Arguments Throw {A} msg.

Definition M (S A : Type) : Type := S -> Completion A * S.

Definition ret {S A : Type} (a : A) : M S A := fun s => (Normal a, s).

Definition bind {S A B : Type} (m : M S A) (k : A -> M S B) : M S B :=
  fun s =>
    match m s with
    | (Normal a, s') => k a s'
    | (Throw msg, s') => (Throw msg, s')
    end.

Definition throw {S A : Type} (msg : string) : M S A := fun s => (Throw msg, s).
Definition get {S : Type} : M S S := fun s => (Normal s, s).
Definition modify {S : Type} (f : S -> S) : M S unit := fun s => (Normal tt, f s).

Declare Scope js_scope.
Delimit Scope js_scope with js.
Notation "x <-- m ;; k" := (bind m (fun x => k))
  (at level 100, m at next level, right associativity) : js_scope.
Notation "m ;;; k" := (bind m (fun _ => k))
  (at level 100, right associativity) : js_scope.

(** [for (var i = 0; i < keys.length; ++i) body(keys[i])] over a fixed array. *)
Fixpoint forEach {S A : Type} (body : A -> M S unit) (l : list A) : M S unit :=
  match l with
  | [] => ret tt
  | x :: rest => bind (body x) (fun _ => forEach body rest)
  end.

(** ** Value types *)

Definition Index : Type := list Z.
Definition Point : Type := list float.

Module WindowLevel.
Record t : Type := mk { getCenter : float; getWidth : float }.

(** Modelled from the spec: the WindowLevel class is not part of the
    sources at hand; "WindowLevel equality is value equality on (center,
    width)", and a null right-hand side is never equal. *)
Definition equals (lhs : t) (rhs : option t) : bool :=
  match rhs with
  | None => false
  | Some r =>
      PrimFloat.eqb (getCenter lhs) (getCenter r)
      && PrimFloat.eqb (getWidth lhs) (getWidth r)
  end.
End WindowLevel.

Module RSI.
(** Rescale slope and intercept. The class is not part of the sources at
    hand: the string that [toString] renders, which is the cache key, is
    carried by the value. *)
Record t : Type := mk {
  getSlope : float;
  getIntercept : float;
  toString : string
}.
End RSI.

Module RescaleLut.
Record t : Type := mk { getRSI : RSI.t; bitsStored : Z }.
End RescaleLut.

Module WindowLut.
(** Modelled from the spec: the WindowLut class is not part of the sources
    at hand. It "owns one RescaleLUT, one WindowLevel, a derived table";
    [setWindowLevel] "replaces stored level, marks table stale" and
    [update] regenerates the table. The table is represented by the flag
    telling whether it is current. *)
Record t : Type := mk {
  getRescaleLut : RescaleLut.t;
  isSigned : bool;
  getWindowLevel : option WindowLevel.t;
  isReady : bool
}.

Definition create (rescaleLut : RescaleLut.t) (signed : bool) : t :=
  mk rescaleLut signed None false.

Definition setWindowLevel (wl : WindowLevel.t) (lut : t) : t :=
  mk (getRescaleLut lut) (isSigned lut) (Some wl) false.

Definition update (lut : t) : t :=
  mk (getRescaleLut lut) (isSigned lut) (getWindowLevel lut) true.
End WindowLut.

(** ** Collaborators: geometry and image *)

Module Geometry.
Record t : Type := mk {
  getSize : list Z;
  indexToWorld : Index -> Point;
  worldToIndex : Point -> Index
}.

Definition inBound (value size : Z) : bool :=
  (0 <=? value)%Z && (value <? size)%Z.

(** Modelled from the spec: the Geometry class is not part of the sources
    at hand; "isIndexInBounds(Index, dims) -> bool (checked only along the
    supplied dimension list)", a component being in bounds when it lies in
    [0, size). A dimension that the index or the size does not have is out
    of bounds. *)
Definition isIndexInBounds (g : t) (index : Index) (dirs : list nat) : bool :=
  forallb
    (fun d =>
       match index !! d, getSize g !! d with
       | Some v, Some s => inBound v s
       | _, _ => false
       end)
    dirs.
End Geometry.

Module Image.
Record Meta : Type := mkMeta { BitsStored : Z; IsSigned : bool }.
Record Range : Type := mkRange { min : float; max : float }.

(** Argument of [getRescaleSlopeAndIntercept]: the view passes the current
    index (possibly null) in one place and the slice number [0] in
    another. *)
Inductive SliceRef : Type :=
| AtIndex (index : option Index)
| AtSlice (k : Z).

(** The image is an opaque collaborator: the record lists the queries the
    view makes, taken to be total. *)
Record t : Type := mk {
  getGeometry : Geometry.t;
  getRescaleSlopeAndIntercept : SliceRef -> RSI.t;
  getMeta : Meta;
  getSecondaryOffset : option Index -> nat;
  getRescaledDataRange : Range;
  canQuantify : bool;
  getRescaledValueAtIndex : Index -> float;
  getImageUid : Index -> string
}.
End Image.

(** The orientation matrix is only asked for its third column-major
    direction. *)
Record Matrix33 : Type := mkMatrix33 { getThirdColMajorDirection : nat }.

(** ** Window presets and the registry *)

Module Preset.
Record t : Type := mk {
  name : option string;
  wl : option (list WindowLevel.t);
  perslice : option bool
}.

(** [typeof p.perslice !== 'undefined' && p.perslice === true] *)
Definition isPerslice (p : t) : bool :=
  match perslice p with
  | Some true => true
  | _ => false
  end.
End Preset.

(** The registry is a plain object: the list holds its own properties, in
    [Object.keys] order. *)
Definition Presets : Type := list (string * Preset.t).

Definition keys (o : Presets) : list string := fst <$> o.

(** The own property [key] of [o]. *)
Fixpoint lookupKey (key : string) (o : Presets) : option Preset.t :=
  match o with
  | [] => None
  | (k, p) :: rest => if String.eqb k key then Some p else lookupKey key rest
  end.

(** The names that a plain object inherits from [Object.prototype]. *)
Definition objectPrototypeNames : list string :=
  ["constructor"; "hasOwnProperty"; "isPrototypeOf"; "propertyIsEnumerable";
   "toLocaleString"; "toString"; "valueOf"; "__defineGetter__";
   "__defineSetter__"; "__lookupGetter__"; "__lookupSetter__"; "__proto__"].

(** [typeof o[key] !== 'undefined'] for a name that [o] does not own: the
    read reaches a member of [Object.prototype], which is neither a preset
    nor an object with a [perslice] or a [wl] member. *)
Definition inheritedName (key : string) : bool :=
  existsb (String.eqb key) objectPrototypeNames.

Definition digitValue (c : Ascii.ascii) : option N :=
  let code := Ascii.N_of_ascii c in
  if (48 <=? code)%N && (code <=? 57)%N then Some (code - 48)%N else None.

Fixpoint decimalValue (acc : N) (s : string) : option N :=
  match s with
  | EmptyString => Some acc
  | String c rest =>
      match digitValue c with
      | Some d => decimalValue (10 * acc + d)%N rest
      | None => None
      end
  end.

(** The array index that a property name spells, if any: the name is the
    canonical decimal numeral (no sign, no leading zero) of an integer below
    2^32 - 1. *)
Definition arrayIndex (key : string) : option N :=
  match key with
  | EmptyString => None
  | String c rest =>
      if Ascii.eqb c "0"%char && negb (String.eqb rest EmptyString) then None
      else
        match decimalValue 0 key with
        | Some n => if (n <? 4294967295)%N then Some n else None
        | None => None
        end
  end.

(** [Object.keys] lists the array indices in ascending order, then the other
    names in the order of their creation: whether the property [k] stays
    ahead of the property [key] created after it. *)
Definition listedBefore (k key : string) : bool :=
  match arrayIndex key with
  | None => true
  | Some n =>
      match arrayIndex k with
      | Some m => (m <? n)%N
      | None => false
      end
  end.

(** [o[key] = p] for an own property: the value changes, the place does
    not. *)
Fixpoint replaceKey (key : string) (p : Preset.t) (o : Presets) : Presets :=
  match o with
  | [] => []
  | (k, q) :: rest =>
      if String.eqb k key then (k, p) :: rest else (k, q) :: replaceKey key p rest
  end.

(** [o[key] = p] for a name that [o] does not own: the property is created,
    at its place in [Object.keys] order. The name [__proto__] is the
    exception that is not represented: assigning it to a plain object that
    does not own it sets the prototype of the object and creates no
    property, so the statements on added presets leave that name out. *)
Fixpoint createKey (key : string) (p : Preset.t) (o : Presets) : Presets :=
  match o with
  | [] => [(key, p)]
  | (k, q) :: rest =>
      if listedBefore k key then (k, q) :: createKey key p rest
      else (key, p) :: (k, q) :: rest
  end.

(** [o[key] = p] *)
Definition assignKey (key : string) (p : Preset.t) (o : Presets) : Presets :=
  match lookupKey key o with
  | Some _ => replaceKey key p o
  | None => createKey key p o
  end.

(** The registry holds a per-slice preset under [key]. *)
Definition persliceAt (o : Presets) (key : string) : bool :=
  match lookupKey key o with
  | Some p => Preset.isPerslice p
  | None => false
  end.

(** Every supplied entry assigned in turn. *)
Definition mergePresets (supplied : Presets) (o : Presets) : Presets :=
  foldl (fun acc entry => assignKey (fst entry) (snd entry) acc) o supplied.

(** [typeof o[key] === 'undefined']: [o] neither owns nor inherits [key]. *)
Definition newName (o : Presets) (key : string) : Prop :=
  lookupKey key o = None /\ inheritedName key = false.

#[global] Instance newName_dec (o : Presets) (key : string) :
  Decision (newName o key).
Proof. unfold newName. apply _. Defined.

(** ** Events fired by the view *)

Inductive Event : Type :=
| WlChange (wc ww : float) (skipGenerate : bool)
| WlPresetAdd (presetName : string)
| PositionChange (index : Index) (position : Point) (pixValue : option float)
    (diffDims : list nat) (imageUid : string)
| PositionInvalid (index : Index) (position : Point).

Definition eventType (e : Event) : string :=
  match e with
  | WlChange _ _ _ => "wlchange"
  | WlPresetAdd _ => "wlpresetadd"
  | PositionChange _ _ _ _ _ => "positionchange"
  | PositionInvalid _ _ => "positionchange"
  end.

(** ** The View *)

Module View.

(** The private state of a view. The colour map, the alpha function and the
    listener handler take no part in what follows and are left out. *)
Record t : Type := mk {
  image : Image.t;
  windowLuts : gmap string WindowLut.t;
  windowPresets : Presets;
  currentPresetName : option string;
  currentWl : option WindowLevel.t;
  currentPosition : option Point;
  orientation : option Matrix33
}.

(** A freshly constructed view. *)
Definition create (img : Image.t) : t :=
  mk img ∅ [("minmax", Preset.mk (Some "minmax") None None)] None None None None.

(** The world a view method runs in: the view and the events fired so far,
    oldest first. The listeners registered on the view are not part of the
    sources at hand; an event fired is an event appended to the trace. *)
Record World : Type := mkWorld { view : t; fired : list Event }.

Definition withView (f : t -> t) (w : World) : World :=
  mkWorld (f (view w)) (fired w).

Definition fireEvent (e : Event) : M World unit :=
  modify (fun w => mkWorld (view w) (fired w ++ [e])).

Definition getView : M World t := fun w => (Normal (view w), w).

Local Open Scope js_scope.

(** *** Position and index *)

Definition getCurrentPosition (v : t) : option Point := currentPosition v.

Definition getCurrentIndex (v : t) : option Index :=
  match getCurrentPosition v with
  | None => None
  | Some position =>
      Some (Geometry.worldToIndex (Image.getGeometry (image v)) position)
  end.

Definition getScrollIndex (v : t) : nat :=
  match orientation v with
  | Some mat33 => getThirdColMajorDirection mat33
  | None => 2
  end.

(** [dirs = [getScrollIndex()]; if (index.length() === 4) dirs.push(3)] *)
Definition checkDirs (v : t) (index : Index) : list nat :=
  if Nat.eqb (length index) 4 then [getScrollIndex v; 3] else [getScrollIndex v].

(** Modelled from the spec: the Index class is not part of the sources at
    hand; "comparisons/arithmetic require equal length". *)
Definition canCompare (lhs rhs : Index) : bool :=
  Nat.eqb (length lhs) (length rhs).

(** [lhs.get(i) !== rhs.get(i)] *)
Definition differAt (lhs rhs : Index) (i : nat) : bool :=
  negb (bool_decide (lhs !! i = rhs !! i)).

(** [for (i = from; i < from + count; ++i) if (keep(i)) acc.push(i)] *)
Definition pushWhere (keep : nat -> bool) (from count : nat) (acc : list nat)
  : list nat :=
  foldl (fun acc i => if keep i then acc ++ [i] else acc) acc (seq from count).

(** Modelled from the spec: the Index class is not part of the sources at
    hand; "comparison of two indices of equal length producing the list of
    differing dimension positions". *)
Definition compare (lhs rhs : Index) : list nat :=
  pushWhere (differAt lhs rhs) 0 (length lhs) [].

(** The diff dims of [setCurrentIndex], from the index the view held before
    the call (if any) and the new one. *)
Definition computeDiffDims (currentIndex : option Index) (index : Index)
  : list nat :=
  match currentIndex with
  | Some cur =>
      if canCompare cur index then compare cur index
      else
        let minLen := Nat.min (length cur) (length index) in
        let diffDims := pushWhere (differAt cur index) 0 minLen [] in
        let maxLen := Nat.max (length cur) (length index) in
        pushWhere (fun _ => true) minLen (maxLen - minLen) diffDims
  | None => pushWhere (fun _ => true) 0 (length index) []
  end.

Definition setCurrentIndex (index : Index) (silent : option bool)
  : M World bool :=
  let silent := default false silent in
  v <-- getView ;;
  let geometry := Image.getGeometry (image v) in
  let position := Geometry.indexToWorld geometry index in
  if negb (Geometry.isIndexInBounds geometry index (checkDirs v index))
  then ret false
  else
    let currentIndex :=
      match getCurrentPosition v with
      | Some _ => getCurrentIndex v
      | None => None
      end in
    let diffDims := computeDiffDims currentIndex index in
    modify (withView (fun v =>
      mk (image v) (windowLuts v) (windowPresets v) (currentPresetName v)
         (currentWl v) (Some position) (orientation v))) ;;;
    (if negb silent then
       let pixValue :=
         if Image.canQuantify (image v)
         then Some (Image.getRescaledValueAtIndex (image v) index)
         else None in
       fireEvent (PositionChange index position pixValue diffDims
                    (Image.getImageUid (image v) index))
     else ret tt) ;;;
    ret true.

Definition setCurrentPosition (position : Point) (silent : option bool)
  : M World bool :=
  v <-- getView ;;
  let geometry := Image.getGeometry (image v) in
  let index := Geometry.worldToIndex geometry position in
  if negb (Geometry.isIndexInBounds geometry index (checkDirs v index))
  then
    (if negb (default false silent)
     then fireEvent (PositionInvalid index position)
     else ret tt) ;;;
    ret false
  else setCurrentIndex index silent.

Definition setInitialIndex : M World bool :=
  v <-- getView ;;
  let geometry := Image.getGeometry (image v) in
  let values := replicate (length (Geometry.getSize geometry)) 0%Z in
  setCurrentIndex values (Some true).

(** *** Window/level *)

Definition setWindowLevel (center width : float)
    (name : option string) (silent : option bool) : M World unit :=
  if PrimFloat.ltb width 1 then ret tt
  else
    let name := default "manual" name in
    let silent := default false silent in
    let newWl := WindowLevel.mk center width in
    v <-- getView ;;
    let isNew := negb (WindowLevel.equals newWl (currentWl v)) in
    if isNew then
      let isNewWidth :=
        match currentWl v with
        | Some cur => negb (PrimFloat.eqb (WindowLevel.getWidth cur) width)
        | None => true
        end in
      let isNewCenter :=
        match currentWl v with
        | Some cur => negb (PrimFloat.eqb (WindowLevel.getCenter cur) center)
        | None => true
        end in
      modify (withView (fun v =>
        mk (image v) (windowLuts v) (windowPresets v) (Some name)
           (Some newWl) (currentPosition v) (orientation v))) ;;;
      if isNewWidth || isNewCenter
      then fireEvent (WlChange center width silent)
      else ret tt
    else ret tt.

(** The logger warning on a width below one is not observable here. *)
Definition getWindowLevelMinMax (v : t) : WindowLevel.t :=
  let range := Image.getRescaledDataRange (image v) in
  let min := Image.min range in
  let max := Image.max range in
  let width := PrimFloat.sub max min in
  let width := if PrimFloat.ltb width 1 then 1%float else width in
  let center := PrimFloat.add min (PrimFloat.div width 2) in
  WindowLevel.mk center width.

Definition setPresets (presets : Presets) (v : t) : t :=
  mk (image v) (windowLuts v) presets (currentPresetName v)
     (currentWl v) (currentPosition v) (orientation v).

Definition setLuts (luts : gmap string WindowLut.t) (v : t) : t :=
  mk (image v) luts (windowPresets v) (currentPresetName v)
     (currentWl v) (currentPosition v) (orientation v).

Definition getWindowPresets (v : t) : Presets := windowPresets v.

Definition setWindowLevelPreset (name : string) (silent : option bool)
  : M World unit :=
  v <-- getView ;;
  match lookupKey name (getWindowPresets v) with
  | None =>
      if inheritedName name
      then (* a member of Object.prototype: it has no [wl] to index *)
        throw "TypeError"
      else throw ("Unknown window level preset: '" +:+ name +:+ "'")
  | Some preset =>
      (* special min/max: the registry entry itself receives its level *)
      let preset :=
        match Preset.wl preset with
        | None =>
            if String.eqb name "minmax"
            then Preset.mk (Preset.name preset)
                   (Some [getWindowLevelMinMax v]) (Preset.perslice preset)
            else preset
        | Some _ => preset
        end in
      modify (withView (fun v =>
        setPresets (assignKey name preset (windowPresets v)) v)) ;;;
      match Preset.wl preset with
      | None => throw "TypeError"
      | Some levels =>
          let chosen :=
            if Preset.isPerslice preset
            then levels !! Image.getSecondaryOffset (image v) (getCurrentIndex v)
            else levels !! 0%nat in
          match chosen with
          | None => throw "TypeError"
          | Some level =>
              setWindowLevel (WindowLevel.getCenter level)
                (WindowLevel.getWidth level) (Some name) silent
          end
      end
  end.

(** [keys[id]] is undefined past the end, and names the property
    "undefined". *)
Definition setWindowLevelPresetById (id : nat) (silent : option bool)
  : M World unit :=
  v <-- getView ;;
  setWindowLevelPreset (default "undefined" (keys (getWindowPresets v) !! id))
    silent.

(** *** Window LUT cache *)

Definition addWindowLut (wlut : WindowLut.t) : M World unit :=
  let rsi := RescaleLut.getRSI (WindowLut.getRescaleLut wlut) in
  modify (withView (fun v =>
    setLuts (<[RSI.toString rsi := wlut]> (windowLuts v)) v)).

(** A non-empty string is truthy. *)
Definition truthy (s : string) : bool := negb (String.eqb s EmptyString).

(** The cached LUT is an object shared between the cache and the caller:
    the level it receives is written where the object lives. Every LUT
    enters the cache through [addWindowLut], hence under one key. *)
Definition getCurrentWindowLut (rsi : option RSI.t) : M World WindowLut.t :=
  v0 <-- getView ;;
  match getCurrentIndex v0 with
  | None => bind setInitialIndex (fun _ => ret tt)
  | Some _ => ret tt
  end ;;;
  v <-- getView ;;
  let currentIndex := getCurrentIndex v in
  let rsi :=
    match rsi with
    | Some r => r
    | None => Image.getRescaleSlopeAndIntercept (image v)
                (Image.AtIndex currentIndex)
    end in
  (* special case for 'perslice' presets *)
  persliceWl <--
    match currentPresetName v with
    | Some presetName =>
        match lookupKey presetName (windowPresets v) with
        | Some preset =>
            if truthy presetName && Preset.isPerslice preset then
              match Preset.wl preset with
              | Some levels =>
                  ret (levels !! Image.getSecondaryOffset (image v) currentIndex)
              | None => throw "TypeError"
              end
            else ret None
        | None =>
            (* undefined, or a member of Object.prototype without
               [perslice] *)
            ret None
        end
    | None => ret None
    end ;;
  (* regular case *)
  level <--
    match persliceWl with
    | Some level => ret (Some level)
    | None =>
        match currentWl v with
        | None => setWindowLevelPresetById 0 (Some true)
        | Some _ => ret tt
        end ;;;
        v' <-- getView ;;
        ret (currentWl v')
    end ;;
  (* get the window lut *)
  v <-- getView ;;
  found <--
    match windowLuts v !! RSI.toString rsi with
    | Some wlut => ret (wlut, RSI.toString rsi)
    | None =>
        let rescaleLut :=
          RescaleLut.mk
            (Image.getRescaleSlopeAndIntercept (image v) (Image.AtSlice 0))
            (Image.BitsStored (Image.getMeta (image v))) in
        let windowLut :=
          WindowLut.create rescaleLut (Image.IsSigned (Image.getMeta (image v))) in
        addWindowLut windowLut ;;;
        ret (windowLut, RSI.toString (RescaleLut.getRSI rescaleLut))
    end ;;
  let wlut := fst found in
  let home := snd found in
  let lutWl := WindowLut.getWindowLevel wlut in
  match level with
  | None => throw "TypeError"
  | Some level =>
      if negb (WindowLevel.equals level lutWl) then
        let wlut := WindowLut.update (WindowLut.setWindowLevel level wlut) in
        modify (withView (fun v =>
          setLuts (<[home := wlut]> (windowLuts v)) v)) ;;;
        (if match lutWl with
            | None => true
            | Some prev =>
                negb (PrimFloat.eqb (WindowLevel.getWidth prev)
                        (WindowLevel.getWidth level))
                || negb (PrimFloat.eqb (WindowLevel.getCenter prev)
                           (WindowLevel.getCenter level))
            end
         then fireEvent (WlChange (WindowLevel.getCenter level)
                           (WindowLevel.getWidth level) true)
         else ret tt) ;;;
        ret wlut
      else ret wlut
  end.

(** *** Preset registry *)

Definition setWindowPresets (presets : Presets) : M World unit :=
  modify (withView (setPresets presets)).

(** One turn of the loop of [addWindowPresets], for the key and its value
    in the supplied object. *)
Definition addWindowPreset (entry : string * Preset.t) : M World unit :=
  let key := fst entry in
  v <-- getView ;;
  match lookupKey key (windowPresets v) with
  | Some existing =>
      if Preset.isPerslice existing
      then throw "Cannot add perslice preset"
      else modify (withView (fun v =>
             setPresets (assignKey key (snd entry) (windowPresets v)) v))
  | None =>
      if inheritedName key
      then (* a member of Object.prototype: defined, and without [perslice] *)
        modify (withView (fun v =>
          setPresets (assignKey key (snd entry) (windowPresets v)) v))
      else
        (* add new *)
        modify (withView (fun v =>
          setPresets (assignKey key (snd entry) (windowPresets v)) v)) ;;;
        fireEvent (WlPresetAdd key)
  end.

(** [presets] lists the supplied object's entries in [Object.keys]
    order. *)
Definition addWindowPresets (presets : Presets) : M World unit :=
  forEach addWindowPreset presets.

(** *** Orientation and the min/max shortcut *)

Definition setOrientation (mat33 : option Matrix33) : M World unit :=
  modify (withView (fun v =>
    mk (image v) (windowLuts v) (windowPresets v) (currentPresetName v)
       (currentWl v) (currentPosition v) mat33)).

Definition setWindowLevelMinMax : M World unit :=
  v <-- getView ;;
  let level := getWindowLevelMinMax v in
  setWindowLevel (WindowLevel.getCenter level) (WindowLevel.getWidth level)
    (Some "minmax") None.

(** *** The image setter *)

Definition setImage (inImage : Image.t) : M World unit :=
  modify (withView (fun v =>
    mk inImage (windowLuts v) (windowPresets v) (currentPresetName v)
       (currentWl v) (currentPosition v) (orientation v))).

(** *** Bounds query, unit steps and the appended frame *)

Definition canSetPosition (position : Point) (v : t) : bool :=
  let geometry := Image.getGeometry (image v) in
  let index := Geometry.worldToIndex geometry position in
  Geometry.isIndexInBounds geometry index (checkDirs v index).

(** Modelled from the spec: the Index class is not part of the sources at
    hand; "comparisons/arithmetic require equal length": the sum, component
    by component, of two indices of equal length. *)
Definition addIndex (lhs rhs : Index) : Index := zip_with Z.add lhs rhs.

(** [values = new Array(len); values.fill(0);
     if (dim < values.length) values[dim] = step]; the console warning of the
    other branch is not observable here. *)
Definition unitStep (len dim : nat) (step : Z) : Index :=
  let values := replicate len 0%Z in
  if dim <? len then <[dim := step]> values else values.

(** [index.length()] on the null index of a view without position is a
    TypeError. *)
Definition incrementIndex (dim : nat) (silent : option bool) : M World bool :=
  v <-- getView ;;
  match getCurrentIndex v with
  | None => throw "TypeError"
  | Some index =>
      let incr := unitStep (length index) dim 1 in
      setCurrentIndex (addIndex index incr) silent
  end.

Definition decrementIndex (dim : nat) (silent : option bool) : M World bool :=
  v <-- getView ;;
  match getCurrentIndex v with
  | None => throw "TypeError"
  | Some index =>
      let incr := unitStep (length index) dim (-1) in
      setCurrentIndex (addIndex index incr) silent
  end.

Definition decrementScrollIndex (silent : option bool) : M World bool :=
  v <-- getView ;;
  decrementIndex (getScrollIndex v) silent.

Definition incrementScrollIndex (silent : option bool) : M World bool :=
  v <-- getView ;;
  incrementIndex (getScrollIndex v) silent.

(** The listener that the constructor registers on the image for
    appendframe: a current index of three components receives a fourth. *)
Definition onAppendFrame : M World unit :=
  v <-- getView ;;
  match getCurrentIndex v with
  | None => throw "TypeError"
  | Some index =>
      if Nat.eqb (length index) 3
      then bind (setCurrentIndex (index ++ [0%Z]) None) (fun _ => ret tt)
      else ret tt
  end.

End View.

(** ** Calls made on a view

    The operations of the view that are embedded above, as a caller issues
    them one after the other. A caller that catches an exception goes on
    with the view as the throwing call left it. *)

Inductive Operation : Type :=
| SetOrientation (mat33 : option Matrix33)
| SetInitialIndex
| SetCurrentIndex (index : Index) (silent : option bool)
| SetCurrentPosition (position : Point) (silent : option bool)
| SetWindowLevel (center width : float) (name : option string)
    (silent : option bool)
| SetWindowLevelMinMax
| SetWindowLevelPreset (name : string) (silent : option bool)
| SetWindowLevelPresetById (id : nat) (silent : option bool)
| GetCurrentWindowLut (rsi : option RSI.t)
| AddWindowLut (wlut : WindowLut.t)
| AddWindowPresets (presets : Presets)
| SetWindowPresets (presets : Presets).

Definition perform (op : Operation) (w : View.World) : View.World :=
  match op with
  | SetOrientation mat33 => snd (View.setOrientation mat33 w)
  | SetInitialIndex => snd (View.setInitialIndex w)
  | SetCurrentIndex index silent => snd (View.setCurrentIndex index silent w)
  | SetCurrentPosition position silent =>
      snd (View.setCurrentPosition position silent w)
  | SetWindowLevel center width name silent =>
      snd (View.setWindowLevel center width name silent w)
  | SetWindowLevelMinMax => snd (View.setWindowLevelMinMax w)
  | SetWindowLevelPreset name silent =>
      snd (View.setWindowLevelPreset name silent w)
  | SetWindowLevelPresetById id silent =>
      snd (View.setWindowLevelPresetById id silent w)
  | GetCurrentWindowLut rsi => snd (View.getCurrentWindowLut rsi w)
  | AddWindowLut wlut => snd (View.addWindowLut wlut w)
  | AddWindowPresets presets => snd (View.addWindowPresets presets w)
  | SetWindowPresets presets => snd (View.setWindowPresets presets w)
  end.

Definition performAll (ops : list Operation) (w : View.World) : View.World :=
  foldl (fun w op => perform op w) w ops.

Definition isSetWindowPresets (op : Operation) : bool :=
  match op with
  | SetWindowPresets _ => true
  | _ => false
  end.

(** ** The Stage

    The stage holds layer groups by reference and wires them with binders.
    The engine below is the code of the stage; it is generic in what a layer
    group contains ([D]) and in the events that travel ([E]), as the code
    is. A binder is a strategy object: an event type and a callback factory.
    The callback that a binder makes for a layer group changes that layer
    group only, and the change makes the layer group fire events of its own:
    [getCallback] maps the content of the target and the received event to
    the new content and the events the target fires while it is changed. *)

Module Stage.

Section Engine.

Variables D E : Type.
Variable typeOf : E -> string.

(** [binderRef] is the identity of the binder object: [===] on binders
    compares it. *)
Record Binder : Type := mkBinder {
  binderRef : nat;
  getEventType : string;
  getCallback : D -> E -> D * list E
}.

(** A function object created by [getBinderCallback]: its identity and the
    variables it closes over. [===] on callbacks compares [closureRef]. *)
Record Closure : Type := mkClosure {
  closureRef : nat;
  boundBinder : Binder;
  boundIndex : nat
}.

Record BinderObj : Type := mkBinderObj { binder : Binder; callback : Closure }.

(** Modelled from the spec: the listener handler of a layer group is not
    part of the sources at hand. It is "an explicit observer/subject
    interface [...] exposing subscribe/unsubscribe-by-handle and a
    synchronous dispatch call", "listeners run in registration order";
    removal is "exact listener removal by reference identity". *)
Record LayerGroup : Type := mkLayerGroup {
  listeners : gmap string (list Closure);
  content : D
}.

(** Modelled from the spec: subscription appends the listener to those of
    the event type. *)
Definition addEventListener (type : string) (cb : Closure) (g : LayerGroup)
  : LayerGroup :=
  mkLayerGroup
    (<[type := default [] (listeners g !! type) ++ [cb]]> (listeners g))
    (content g).

(** Modelled from the spec: removal drops the listener of that identity
    from those of the event type. *)
Definition removeEventListener (type : string) (cb : Closure) (g : LayerGroup)
  : LayerGroup :=
  match listeners g !! type with
  | None => g
  | Some registered =>
      mkLayerGroup
        (<[type := filter (fun c => closureRef c <> closureRef cb) registered]>
           (listeners g))
        (content g)
  end.

(** The stage. [callbackStore] is null or an array with holes;
    [nextRef] numbers the function objects created so far. The index of the
    active layer group takes no part in the wiring and is left out. *)
Record t : Type := mk {
  layerGroups : list LayerGroup;
  binders : list Binder;
  callbackStore : option (list (option (list BinderObj)));
  nextRef : nat
}.

Definition setLayerGroups (groups : list LayerGroup) (s : t) : t :=
  mk groups (binders s) (callbackStore s) (nextRef s).

Definition setCallbackStore
    (store : option (list (option (list BinderObj)))) (s : t) : t :=
  mk (layerGroups s) (binders s) store (nextRef s).

(** [array[index] = x]: past the end, the array is extended with holes. *)
Definition arraySet {A : Type} (index : nat) (x : A) (array : list (option A))
  : list (option A) :=
  if decide (index < length array)
  then <[index := Some x]> array
  else array ++ replicate (index - length array) None ++ [Some x].

(** [array[index]], undefined for a hole and past the end. *)
Definition arrayGet {A : Type} (index : nat) (array : list (option A))
  : option A :=
  mjoin (array !! index).

Definition sameBinder (b : Binder) (elem : BinderObj) : bool :=
  Nat.eqb (binderRef (binder elem)) (binderRef b).

Local Open Scope js_scope.

Definition getBinderCallback (b : Binder) (index : nat) : M t Closure :=
  s <-- get ;;
  match callbackStore s with
  | None => throw "TypeError"
  | Some store =>
      let store :=
        match arrayGet index store with
        | None => arraySet index [] store
        | Some _ => store
        end in
      let objs := default [] (arrayGet index store) in
      match find (sameBinder b) objs with
      | Some binderObj =>
          modify (setCallbackStore (Some store)) ;;;
          ret (callback binderObj)
      | None =>
          (* create new callback object *)
          let binderObj := mkBinderObj b (mkClosure (nextRef s) b index) in
          modify (fun s =>
            mk (layerGroups s) (binders s)
               (Some (arraySet index (objs ++ [binderObj]) store))
               (S (nextRef s))) ;;;
          ret (callback binderObj)
      end
  end.

(** [layerGroups[index].addEventListener(type, getBinderCallback(b, i))]:
    the layer group is looked up before the callback is asked for. *)
Definition addEventListeners (index : nat) (b : Binder) : M t unit :=
  s <-- get ;;
  forEach
    (fun i =>
       if decide (i <> index) then
         s <-- get ;;
         match layerGroups s !! index with
         | None => throw "TypeError"
         | Some _ =>
             cb <-- getBinderCallback b i ;;
             modify (fun s =>
               setLayerGroups
                 (alter (addEventListener (getEventType b) cb) index
                    (layerGroups s)) s)
         end
       else ret tt)
    (seq 0 (length (layerGroups s))).

Definition removeEventListeners (index : nat) (b : Binder) : M t unit :=
  s <-- get ;;
  forEach
    (fun i =>
       if decide (i <> index) then
         s <-- get ;;
         match layerGroups s !! index with
         | None => throw "TypeError"
         | Some _ =>
             cb <-- getBinderCallback b i ;;
             modify (fun s =>
               setLayerGroups
                 (alter (removeEventListener (getEventType b) cb) index
                    (layerGroups s)) s)
         end
       else ret tt)
    (seq 0 (length (layerGroups s))).

Definition unwired (s : t) : bool :=
  Nat.eqb (length (layerGroups s)) 0
  || Nat.eqb (length (layerGroups s)) 1
  || Nat.eqb (length (binders s)) 0.

Definition bindLayerGroups : M t unit :=
  s <-- get ;;
  if unwired s then ret tt
  else
    (* create callback store *)
    modify (setCallbackStore
              (Some (replicate (length (layerGroups s)) None))) ;;;
    (* add listeners *)
    forEach
      (fun i => forEach (fun b => addEventListeners i b) (binders s))
      (seq 0 (length (layerGroups s))).

Definition unbindLayerGroups : M t unit :=
  s <-- get ;;
  if unwired s || match callbackStore s with None => true | Some _ => false end
  then ret tt
  else
    (* remove listeners *)
    forEach
      (fun i => forEach (fun b => removeEventListeners i b) (binders s))
      (seq 0 (length (layerGroups s))) ;;;
    (* clear callback store *)
    modify (setCallbackStore None).

(** *** Layer groups and binders of the stage *)

(** [callbackStore && callbackStore.length !== 0] *)
Definition isBound (s : t) : bool :=
  match callbackStore s with
  | Some store => negb (Nat.eqb (length store) 0)
  | None => false
  end.

(** The layer group created has no listener yet and holds [d]; it is
    returned as its index in the list. *)
Definition addLayerGroup (d : D) : M t nat :=
  s <-- get ;;
  let index := length (layerGroups s) in
  let layerGroup := mkLayerGroup ∅ d in
  (* add to storage *)
  let isBound := isBound s in
  (if isBound then unbindLayerGroups else ret tt) ;;;
  modify (fun s => setLayerGroups (layerGroups s ++ [layerGroup]) s) ;;;
  (if isBound then bindLayerGroups else ret tt) ;;;
  (* return created group *)
  ret index.

(** [list] is null (or undefined) or an array of binders. *)
Definition setBinders (list : option (list Binder)) : M t unit :=
  match list with
  | None => throw "Cannot set null or undefined binders"
  | Some list =>
      s <-- get ;;
      (if negb (Nat.eqb (length (binders s)) 0)
       then unbindLayerGroups
       else ret tt) ;;;
      modify (fun s => mk (layerGroups s) list (callbackStore s) (nextRef s)) ;;;
      bindLayerGroups
  end.

(** The layer groups are emptied and the stage forgets them. *)
Definition empty : M t unit :=
  unbindLayerGroups ;;;
  modify (setLayerGroups []).

(** *** Synchronous dispatch

    Firing an event on a layer group calls, in registration order, the
    listeners that are registered for its type when it is fired. A listener
    is a callback made by [getBinderCallback]; calling it may make another
    layer group fire, so the dispatch is nested. [fuel] bounds the nesting
    depth: running out of it is [None]. *)

Definition Run (A : Type) : Type := t -> option (Completion A * t).

Definition lift {A : Type} (m : M t A) : Run A := fun s => Some (m s).

Definition andThen {A B : Type} (m : Run A) (k : A -> Run B) : Run B :=
  fun s =>
    match m s with
    | None => None
    | Some (Normal a, s') => k a s'
    | Some (Throw msg, s') => Some (Throw msg, s')
    end.

Fixpoint forEachRun {A : Type} (body : A -> Run unit) (l : list A) : Run unit :=
  match l with
  | [] => lift (ret tt)
  | x :: rest => andThen (body x) (fun _ => forEachRun body rest)
  end.

(** [binder.getCallback(layerGroups[index])(event)]: the target is changed
    and fires, one after the other, the events of the change. *)
Definition applyBinder (fire : nat -> E -> Run unit) (b : Binder) (index : nat)
    (event : E) : Run unit :=
  fun s =>
    match layerGroups s !! index with
    | None => Some (Throw "TypeError", s)
    | Some g =>
        let changed := getCallback b (content g) event in
        forEachRun (fire index) (snd changed)
          (setLayerGroups
             (<[index := mkLayerGroup (listeners g) (fst changed)]> (layerGroups s))
             s)
    end.

(** The body of the function object that [getBinderCallback] creates. *)
Definition callClosure (fire : nat -> E -> Run unit) (cb : Closure) (event : E)
  : Run unit :=
  let index := boundIndex cb in
  let b := boundBinder cb in
  (* stop listeners *)
  andThen (lift (removeEventListeners index b)) (fun _ =>
  (* apply binder *)
  andThen (applyBinder fire b index event) (fun _ =>
  (* re-start listeners *)
  lift (addEventListeners index b))).

(** The layer group at [index] fires [event]. *)
Fixpoint fireEvent (fuel : nat) (index : nat) (event : E) : Run unit :=
  match fuel with
  | O => fun _ => None
  | S fuel' =>
      fun s =>
        match layerGroups s !! index with
        | None => Some (Throw "TypeError", s)
        | Some g =>
            let stack := default [] (listeners g !! typeOf event) in
            forEachRun (fun cb => callClosure (fireEvent fuel') cb event) stack s
        end
  end.

End Engine.

Arguments mkBinder {D E}.
Arguments binderRef {D E}.
Arguments getEventType {D E}.
Arguments getCallback {D E}.
Arguments mkClosure {D E}.
Arguments closureRef {D E}.
Arguments boundBinder {D E}.
Arguments boundIndex {D E}.
Arguments mkBinderObj {D E}.
Arguments binder {D E}.
Arguments callback {D E}.
Arguments mkLayerGroup {D E}.
Arguments listeners {D E}.
Arguments content {D E}.
Arguments addEventListener {D E}.
Arguments removeEventListener {D E}.
Arguments mk {D E}.
Arguments layerGroups {D E}.
Arguments binders {D E}.
Arguments callbackStore {D E}.
Arguments nextRef {D E}.
Arguments setLayerGroups {D E}.
Arguments setCallbackStore {D E}.
Arguments sameBinder {D E}.
Arguments getBinderCallback {D E}.
Arguments addEventListeners {D E}.
Arguments removeEventListeners {D E}.
Arguments unwired {D E}.
Arguments bindLayerGroups {D E}.
Arguments unbindLayerGroups {D E}.
Arguments isBound {D E}.
Arguments addLayerGroup {D E}.
Arguments setBinders {D E}.
Arguments empty {D E}.
Arguments lift {D E A}.
Arguments andThen {D E A B}.
Arguments forEachRun {D E A}.
Arguments applyBinder {D E}.
Arguments callClosure {D E}.
Arguments fireEvent {D E}.

(** *** The common fit scale

    The layer group class is not part of the sources at hand. Its two
    methods that the stage calls here are what the section assumes:
    [calculateFitScale] is a query, undefined for a layer group that cannot
    tell, and [setFitScale] changes the layer group that receives it. *)

Section FitScale.

Context {D E : Type}.
Variable calculateFitScale : D -> option float.
Variable setFitScale : float -> D -> D.

(** One turn of the first loop: [minScale] and [hasScale] after the layer
    group [i]. *)
Definition scanFitScale (acc : option float * list nat)
    (entry : nat * LayerGroup D E) : option float * list nat :=
  match calculateFitScale (content (snd entry)) with
  | Some scale =>
      (match fst acc with
       | None => Some scale
       | Some minScale =>
           if PrimFloat.ltb scale minScale then Some scale else Some minScale
       end,
       snd acc ++ [fst entry])
  | None => acc
  end.

Definition scanFitScales (groups : list (LayerGroup D E))
  : option float * list nat :=
  foldl scanFitScale (None, []) (zip (seq 0 (length groups)) groups).

Definition applyFitScale (scale : float) (g : LayerGroup D E) : LayerGroup D E :=
  mkLayerGroup (listeners g) (setFitScale scale (content g)).

Definition syncLayerGroupScale : M (t D E) unit :=
  bind get (fun s =>
    let scan := scanFitScales (layerGroups s) in
    match fst scan with
    | None => ret tt (* exit if no scale *)
    | Some minScale =>
        (* apply min scale to layers *)
        forEach
          (fun j =>
             if bool_decide (j ∈ snd scan)
             then modify (fun s =>
                    setLayerGroups
                      (alter (applyFitScale minScale) j (layerGroups s)) s)
             else ret tt)
          (seq 0 (length (layerGroups s)))
    end).

End FitScale.

End Stage.

(** ** Layer groups of views and the window/level binder *)

(** A view layer shows one data: [dataIndex] identifies the data and
    [layerView] is the view that the layer's view controller drives. *)
Record ViewLayer : Type := mkViewLayer {
  dataIndex : nat;
  layerView : View.t
}.

(** What a layer group holds. [windowLevelCalls] is a ghost record of the
    arguments of the window/level setter calls that the view controllers of
    the layer group received, oldest first. *)
Record GroupContent : Type := mkGroupContent {
  viewLayers : list ViewLayer;
  windowLevelCalls : list (float * float)
}.

(** An event as a layer group fires it: the event of a view, with the index
    of the data of the layer it comes from. *)
Record LayerEvent : Type := mkLayerEvent {
  dataindex : nat;
  viewEvent : Event
}.

Definition layerEventType (e : LayerEvent) : string := eventType (viewEvent e).

(** Modelled from the spec: the layer group class is not part of the sources
    at hand; the view layers of a layer group that show the data of the
    given index ("the viewport whose identity matches the originating data
    index"). *)
Definition getViewLayersByDataIndex (c : GroupContent) (index : nat)
  : list ViewLayer :=
  filter (fun layer => dataIndex layer = index) (viewLayers c).

(** The first view layer of [index] replaced by [layer']. *)
Fixpoint replaceFirst (index : nat) (layer' : ViewLayer) (layers : list ViewLayer)
  : list ViewLayer :=
  match layers with
  | [] => []
  | layer :: rest =>
      if decide (dataIndex layer = index) then layer' :: rest
      else layer :: replaceFirst index layer' rest
  end.

(** Modelled from the spec: the view controller and the view layer are not
    part of the sources at hand. The window/level setter of the view
    controller of a layer "calls the peer's window/level setter", the
    view's, without name and without the silent flag; the events that the
    view fires are fired by the layer group with the data index of the
    layer. *)
Definition setLayerWindowLevel (wc ww : float) (layer : ViewLayer)
  : ViewLayer * list LayerEvent :=
  let after :=
    snd (View.setWindowLevel wc ww None None
           (View.mkWorld (layerView layer) [])) in
  (mkViewLayer (dataIndex layer) (View.view after),
   mkLayerEvent (dataIndex layer) <$> View.fired after).

(** The callback of the window/level binder for a layer group, on an event
    of type wlchange, whose [value] is [[wc, ww]]: the setter is called on
    the first view layer of the event's data, if there is one. *)
Definition windowLevelCallback (c : GroupContent) (event : LayerEvent)
  : GroupContent * list LayerEvent :=
  match viewEvent event with
  | WlChange wc ww _ =>
      match getViewLayersByDataIndex c (dataindex event) with
      | [] => (c, [])
      | layer :: _ =>
          let changed := setLayerWindowLevel wc ww layer in
          (mkGroupContent
             (replaceFirst (dataindex event) (fst changed) (viewLayers c))
             (windowLevelCalls c ++ [(wc, ww)]),
           snd changed)
      end
  | _ => (c, [])
  end.

(** The binder object [new dwv.gui.WindowLevelBinder()], of identity
    [ref]. *)
Definition WindowLevelBinder (ref : nat) : Stage.Binder GroupContent LayerEvent :=
  Stage.mkBinder ref "wlchange" windowLevelCallback.

(** A stage before any binding: layer groups without listeners, holding the
    given contents, and the given binders. *)
Definition newStage {D E : Type} (contents : list D)
    (binders : list (Stage.Binder D E)) : Stage.t D E :=
  Stage.mk (Stage.mkLayerGroup ∅ <$> contents) binders None 0.

Definition contents {D E : Type} (s : Stage.t D E) : list D :=
  Stage.content <$> Stage.layerGroups s.

(** *** The wiring that binding leaves *)

(** The function object that the callback store holds for the binder and the
    layer group index, if any. *)
Definition storedClosure {D E : Type} (b : Stage.Binder D E) (k : nat)
    (s : Stage.t D E) : option (Stage.Closure D E) :=
  store ← Stage.callbackStore s;
  objs ← Stage.arrayGet k store;
  Stage.callback <$> find (Stage.sameBinder b) objs.

(** The indices of the other layer groups, in order. *)
Definition peers (n index : nat) : list nat :=
  filter (fun k => k <> index) (seq 0 n).

(** The stored function objects of the peers of a layer group, in order. *)
Definition peerClosures {D E : Type} (b : Stage.Binder D E) (s : Stage.t D E)
    (index : nat) : list (Stage.Closure D E) :=
  omap (fun k => storedClosure b k s)
    (peers (length (Stage.layerGroups s)) index).

(** The stage is wired for the binder: the store holds, for every layer
    group, a function object that closes over the binder and the index of
    that layer group, and every layer group listens to the binder's event
    type with the function objects of its peers, in order. *)
Definition wired {D E : Type} (b : Stage.Binder D E) (s : Stage.t D E) : Prop :=
  (forall k, k < length (Stage.layerGroups s) ->
     exists c, storedClosure b k s = Some c
               /\ Stage.boundBinder c = b /\ Stage.boundIndex c = k)
  /\ (forall i g, Stage.layerGroups s !! i = Some g ->
        Stage.listeners g !! Stage.getEventType b = Some (peerClosures b s i)).

(** One turn of the loop that [addEventListeners] and [removeEventListeners]
    share, [op] being the registration or the removal. *)
Definition eachPeer {D E : Type}
    (op : string -> Stage.Closure D E -> Stage.LayerGroup D E -> Stage.LayerGroup D E)
    (index : nat) (b : Stage.Binder D E) (i : nat) : M (Stage.t D E) unit :=
  if decide (i <> index) then
    bind get (fun s =>
      match Stage.layerGroups s !! index with
      | None => throw "TypeError"
      | Some _ =>
          bind (Stage.getBinderCallback b i) (fun cb =>
            modify (fun s =>
              Stage.setLayerGroups
                (alter (op (Stage.getEventType b) cb) index (Stage.layerGroups s))
                s))
      end)
  else ret tt.

(** Every function object that the store holds for the binder closes over
    the binder and over the index it is stored for. *)
Definition sound {D E : Type} (b : Stage.Binder D E) (s : Stage.t D E) : Prop :=
  forall k c, storedClosure b k s = Some c ->
    Stage.boundBinder c = b /\ Stage.boundIndex c = k.

(** The layer group after the callback of the binder was applied to it. *)
Definition changeContent {D E : Type} (b : Stage.Binder D E) (event : E)
    (g : Stage.LayerGroup D E) : Stage.LayerGroup D E :=
  Stage.mkLayerGroup (Stage.listeners g)
    (fst (Stage.getCallback b (Stage.content g) event)).

(** The layer groups after the callback of the binder was applied, in turn,
    to those of the given indices. *)
Definition syncPeers {D E : Type} (b : Stage.Binder D E) (event : E)
    (ks : list nat) (groups : list (Stage.LayerGroup D E))
  : list (Stage.LayerGroup D E) :=
  foldl (fun groups k => alter (changeContent b event) k groups) groups ks.

(** The events that the binder's callback makes its target fire are of the
    binder's own event type. *)
Definition echoesOwnType {D E : Type} (typeOf : E -> string)
    (b : Stage.Binder D E) : Prop :=
  forall (d : D) (event : E),
    Forall (fun echo => typeOf echo = Stage.getEventType b)
      (snd (Stage.getCallback b d event)).

(** The state of the loop of [bindLayerGroups] for a single binder when the
    layer groups below [done] have received their listeners: the layer
    groups from [done] on have none for the binder's type yet. *)
Definition wiredBelow {D E : Type} (b : Stage.Binder D E) (done : nat)
    (s : Stage.t D E) : Prop :=
  is_Some (Stage.callbackStore s)
  /\ sound b s
  /\ (forall j g, j < done -> Stage.layerGroups s !! j = Some g ->
        exists cs,
          Stage.listeners g !! Stage.getEventType b = Some cs
          /\ Forall2 (fun c k => storedClosure b k s = Some c) cs
               (peers (length (Stage.layerGroups s)) j))
  /\ (forall j g, done <= j -> Stage.layerGroups s !! j = Some g ->
        Stage.listeners g !! Stage.getEventType b = None).

(** Another binder object, for another event type. *)
Definition foreign {D E : Type} (b b' : Stage.Binder D E) : Prop :=
  Stage.binderRef b' <> Stage.binderRef b
  /\ Stage.getEventType b' <> Stage.getEventType b.

(** What a layer group holds and the listeners it has for the binder. *)
Definition facet {D E : Type} (b : Stage.Binder D E) (g : Stage.LayerGroup D E)
  : option (list (Stage.Closure D E)) * D :=
  (Stage.listeners g !! Stage.getEventType b, Stage.content g).

(** Nothing that concerns the binder [b] differs between the two stages:
    its stored function objects, the listeners for its type, what the layer
    groups hold, and the binder list. *)
Definition sameFor {D E : Type} (b : Stage.Binder D E) (s s' : Stage.t D E)
  : Prop :=
  (is_Some (Stage.callbackStore s) -> is_Some (Stage.callbackStore s'))
  /\ Stage.binders s' = Stage.binders s
  /\ (forall k, storedClosure b k s' = storedClosure b k s)
  /\ facet b <$> Stage.layerGroups s' = facet b <$> Stage.layerGroups s.

(** The registry still maps [key] to the preset [installed]. *)
Definition holds (key : string) (installed : Preset.t) (w : View.World) : Prop :=
  lookupKey key (View.windowPresets (View.view w)) = Some installed.

(** The view still has the image [img] and the window LUT cache [luts]. *)
Definition cacheIs (img : Image.t) (luts : gmap string WindowLut.t)
    (w : View.World) : Prop :=
  View.image (View.view w) = img /\ View.windowLuts (View.view w) = luts.

(** A computation that maintains the property [I] of the world, whether it
    returns or throws. *)
Definition preserves (I : View.World -> Prop) {A : Type} (m : M View.World A)
  : Prop :=
  forall w, I w -> I (snd (m w)).

(** A property of the view alone, whatever events were fired. *)
Definition traceBlind (I : View.World -> Prop) : Prop :=
  forall v trace trace', I (View.mkWorld v trace) -> I (View.mkWorld v trace').

(** What the loops of [bindLayerGroups] maintain, for the binder [b]. *)
Definition binding {D E : Type} (b : Stage.Binder D E) (n : nat)
    (groups : list D) (bs : list (Stage.Binder D E)) (done : nat)
    (s : Stage.t D E) : Prop :=
  wiredBelow b done s
  /\ length (Stage.layerGroups s) = n
  /\ contents s = groups
  /\ Stage.binders s = bs.

(** *** Calls made on a stage *)

Inductive StageCall (D E : Type) : Type :=
| BindLayerGroups
| UnbindLayerGroups
| AddLayerGroup (d : D)
| SetBinders (list : option (list (Stage.Binder D E)))
| Empty.
Arguments BindLayerGroups {D E}.
Arguments UnbindLayerGroups {D E}.
Arguments AddLayerGroup {D E} d.
Arguments SetBinders {D E} list.
Arguments Empty {D E}.

(** A caller that catches an exception goes on with the stage as the
    throwing call left it. *)
Definition performCall {D E : Type} (call : StageCall D E) (s : Stage.t D E)
  : Stage.t D E :=
  match call with
  | BindLayerGroups => snd (Stage.bindLayerGroups s)
  | UnbindLayerGroups => snd (Stage.unbindLayerGroups s)
  | AddLayerGroup d => snd (Stage.addLayerGroup d s)
  | SetBinders list => snd (Stage.setBinders list s)
  | Empty => snd (Stage.empty s)
  end.

(** A computation that maintains the property [I] of its state, whether it
    returns or throws. *)
Definition maintains {S A : Type} (I : S -> Prop) (m : M S A) : Prop :=
  forall s, I s -> I (snd (m s)).

(** A callback store is in place only on a stage that can be wired. *)
Definition storeGuarded {D E : Type} (s : Stage.t D E) : Prop :=
  is_Some (Stage.callbackStore s) -> Stage.unwired s = false.

(** The number of layer groups and the binders of the stage. *)
Definition shaped {D E : Type} (n : nat) (bs : list (Stage.Binder D E))
    (s : Stage.t D E) : Prop :=
  length (Stage.layerGroups s) = n /\ Stage.binders s = bs.

(** The store holds, for every layer group, a function object that closes
    over the binder and the index of that layer group. *)
Definition stocked {D E : Type} (b : Stage.Binder D E) (s : Stage.t D E)
  : Prop :=
  forall k, k < length (Stage.layerGroups s) ->
    exists c, storedClosure b k s = Some c
              /\ Stage.boundBinder c = b /\ Stage.boundIndex c = k.

(** The layer group has no listener for the type of the binder. *)
Definition deaf {D E : Type} (b : Stage.Binder D E) (g : Stage.LayerGroup D E)
  : Prop :=
  default [] (Stage.listeners g !! Stage.getEventType b) = [].

(** The state of the loop of [unbindLayerGroups] when the layer groups below
    [done] have lost their listeners for the binder: the others still
    listen with the function objects of their peers. *)
Definition unwiredBelow {D E : Type} (b : Stage.Binder D E) (done : nat)
    (s : Stage.t D E) : Prop :=
  stocked b s
  /\ (forall j g, j < done -> Stage.layerGroups s !! j = Some g ->
        Stage.listeners g !! Stage.getEventType b = Some [])
  /\ (forall j g, done <= j -> Stage.layerGroups s !! j = Some g ->
        Stage.listeners g !! Stage.getEventType b = Some (peerClosures b s j)).

(** What the loops of [unbindLayerGroups] maintain, for the binder [b]. *)
Definition unbinding {D E : Type} (b : Stage.Binder D E) (n : nat)
    (groups : list D) (bs : list (Stage.Binder D E)) (done : nat)
    (s : Stage.t D E) : Prop :=
  unwiredBelow b done s
  /\ length (Stage.layerGroups s) = n
  /\ contents s = groups
  /\ Stage.binders s = bs.

(** The state of the loop of [bindLayerGroups] on layer groups that may have
    been bound before: those from [done] on have no listener for the
    binder's type, be it that they never had one or that they lost them. *)
Definition wiringBelow {D E : Type} (b : Stage.Binder D E) (done : nat)
    (s : Stage.t D E) : Prop :=
  is_Some (Stage.callbackStore s)
  /\ sound b s
  /\ (forall j g, j < done -> Stage.layerGroups s !! j = Some g ->
        exists cs,
          Stage.listeners g !! Stage.getEventType b = Some cs
          /\ Forall2 (fun c k => storedClosure b k s = Some c) cs
               (peers (length (Stage.layerGroups s)) j))
  /\ (forall j g, done <= j -> Stage.layerGroups s !! j = Some g -> deaf b g).

Definition rebinding {D E : Type} (b : Stage.Binder D E) (n : nat)
    (groups : list D) (bs : list (Stage.Binder D E)) (done : nat)
    (s : Stage.t D E) : Prop :=
  wiringBelow b done s
  /\ length (Stage.layerGroups s) = n
  /\ contents s = groups
  /\ Stage.binders s = bs.

(** ** Statement vocabulary and sample objects *)

Definition sampleToWorld (z : Z) : float := PrimFloat.of_uint63 (Uint63.of_Z z).

Definition sampleToIndex (f : float) : Z :=
  if PrimFloat.ltb f 0.5 then 0
  else if PrimFloat.ltb f 1.5 then 1
  else if PrimFloat.ltb f 2.5 then 2
  else 3.

Definition sampleGeometry : Geometry.t :=
  Geometry.mk [4; 4; 3]%Z (map sampleToWorld) (map sampleToIndex).

Definition sampleImage : Image.t :=
  Image.mk sampleGeometry
    (fun ref =>
       match ref with
       | Image.AtSlice _ => RSI.mk 1 0 "1, 0"
       | Image.AtIndex _ => RSI.mk 2 0 "2, 0"
       end)
    (Image.mkMeta 16 false)
    (fun _ => 0%nat)
    (Image.mkRange 100 100)
    true
    (fun _ => 7%float)
    (fun _ => "uid").

Definition sampleWorld : View.World := View.mkWorld (View.create sampleImage) [].

(** The component of [index] along dimension [d] lies in [0, size). *)
Definition componentInBounds (g : Geometry.t) (index : Index) (d : nat) : Prop :=
  exists value size : Z,
    index !! d = Some value /\ Geometry.getSize g !! d = Some size
    /\ (0 <= value < size)%Z.

(** In bounds along the scroll dimension, and along dimension 3 when the
    index has four components. *)
Definition scrollInBounds (v : View.t) (index : Index) : Prop :=
  let g := Image.getGeometry (View.image v) in
  componentInBounds g index (View.getScrollIndex v)
  /\ (length index = 4%nat -> componentInBounds g index 3).

(** The view with its current position replaced. *)
Definition withPosition (position : Point) (v : View.t) : View.t :=
  View.mk (View.image v) (View.windowLuts v) (View.windowPresets v)
    (View.currentPresetName v) (View.currentWl v) (Some position)
    (View.orientation v).

(** A view that already holds the position of index (1, 2, 1). *)
Definition positionedWorld : View.World :=
  View.mkWorld
    (withPosition (map sampleToWorld [1; 2; 1]%Z) (View.create sampleImage)) [].

Definition abdomenPreset : Preset.t :=
  Preset.mk (Some "abdomen") (Some [WindowLevel.mk 40 400]) None.

Definition framePreset : Preset.t :=
  Preset.mk (Some "frame")
    (Some [WindowLevel.mk 10 20; WindowLevel.mk 30 40]) (Some true).

(** A view whose registry holds the per-slice preset "frame". *)
Definition persliceWorld : View.World :=
  View.mkWorld
    (View.setPresets
       [("minmax", Preset.mk (Some "minmax") None None); ("frame", framePreset)]
       (View.create sampleImage))
    [].

(** The per-call RSI of [getCurrentWindowLut]: the argument when there is
    one, otherwise the image's RSI at the current index, which is first
    initialised when the view has none. *)
Definition perCallRsi (rsi : option RSI.t) (w : View.World) : RSI.t :=
  match rsi with
  | Some r => r
  | None =>
      let w1 :=
        match View.getCurrentIndex (View.view w) with
        | None => snd (View.setInitialIndex w)
        | Some _ => w
        end in
      Image.getRescaleSlopeAndIntercept (View.image (View.view w1))
        (Image.AtIndex (View.getCurrentIndex (View.view w1)))
  end.

(** What one application of the window/level callback adds to the record of
    setter calls of a layer group. *)
Definition callsAdded (c : GroupContent) (d : nat) (wc ww : float)
  : list (float * float) :=
  match getViewLayersByDataIndex c d with
  | [] => []
  | _ :: _ => [(wc, ww)]
  end.

(** A layer group with one view layer, of the given data. *)
Definition layerGroupOf (data : nat) : GroupContent :=
  mkGroupContent [mkViewLayer data (View.create sampleImage)] [].

(** The view with its current level and its current preset name replaced. *)
Definition withLevel (name : string) (level : WindowLevel.t) (v : View.t)
  : View.t :=
  View.mk (View.image v) (View.windowLuts v) (View.windowPresets v)
    (Some name) (Some level) (View.currentPosition v) (View.orientation v).

(** The computation appends to the trace, whether it returns or throws, and
    what it appends are events that satisfy [P]. *)
Definition emits (P : Event -> Prop) {A : Type} (m : M View.World A) : Prop :=
  forall w, exists evs,
    View.fired (snd (m w)) = View.fired w ++ evs /\ Forall P evs.

(** A wlchange that asks its receivers not to regenerate the display. *)
Definition quietWlChange (e : Event) : Prop :=
  exists wc ww, e = WlChange wc ww true.

(** The event types of the [@fires] tags and of the window/level setters
    that an operation calls. *)
Definition firedTypes (op : Operation) : list string :=
  match op with
  | SetCurrentIndex _ _ | SetCurrentPosition _ _ => ["positionchange"]
  | SetWindowLevel _ _ _ _ | SetWindowLevelMinMax
  | SetWindowLevelPreset _ _ | SetWindowLevelPresetById _ _
  | GetCurrentWindowLut _ => ["wlchange"]
  | AddWindowPresets _ => ["wlpresetadd"]
  | SetOrientation _ | SetInitialIndex | AddWindowLut _ | SetWindowPresets _ => []
  end.

(** The key of the RSI of the LUT's own RescaleLut. *)
Definition ownKey (lut : WindowLut.t) : string :=
  RSI.toString (RescaleLut.getRSI (WindowLut.getRescaleLut lut)).

(** Every cached LUT sits under the key of its own RescaleLut's RSI. *)
Definition wellKeyed (w : View.World) : Prop :=
  forall key lut,
    View.windowLuts (View.view w) !! key = Some lut -> ownKey lut = key.

(** No per-slice preset is the current one. *)
Definition regularPresetActive (v : View.t) : Prop :=
  match View.currentPresetName v with
  | Some presetName => persliceAt (View.windowPresets v) presetName = false
  | None => True
  end.

(** The LUT carries the level: it was given this very level, or the level it
    had compared equal to it. *)
Definition carries (lut : WindowLut.t) (level : WindowLevel.t) : Prop :=
  WindowLut.getWindowLevel lut = Some level
  \/ WindowLevel.equals level (WindowLut.getWindowLevel lut) = true.

(** From a world that satisfies [Pre] the computation returns, and its
    result and the world it leaves satisfy [Post]. *)
Definition returning {A : Type} (Pre : View.World -> Prop)
    (m : M View.World A) (Post : A -> View.World -> Prop) : Prop :=
  forall w, Pre w -> exists a w', m w = (Normal a, w') /\ Post a w'.

(** The view has the level [level] in force, no per-slice preset is the
    current one, and the cache is well keyed. *)
Definition levelInForce (level : WindowLevel.t) (w : View.World) : Prop :=
  wellKeyed w
  /\ View.currentWl (View.view w) = Some level
  /\ regularPresetActive (View.view w).

(** A LUT built on the RSI of the sample image at slice 0. *)
Definition sampleLut : WindowLut.t :=
  WindowLut.create (RescaleLut.mk (RSI.mk 1 0 "1, 0") 16) false.

(** A view at index (1, 2, 1), with the level (40, 400) in force under the
    name "manual" and one LUT in its cache. *)
Definition cachedView : View.t :=
  View.mk sampleImage {["1, 0" := sampleLut]}
    [("minmax", Preset.mk (Some "minmax") None None)]
    (Some "manual") (Some (WindowLevel.mk 40 400))
    (Some (map sampleToWorld [1; 2; 1]%Z)) None.

(** What a layer group holds of its scales: the fit scale that it can
    compute, if any, and the fit scales that it was given, oldest first. *)
Definition Scales : Type := option float * list float.

Definition fitOf (d : Scales) : option float := fst d.

Definition giveFit (scale : float) (d : Scales) : Scales :=
  (fst d, snd d ++ [scale]).

(** The fit scale that the layer group computes. *)
Definition fitScaleOf {D E : Type} (calculateFitScale : D -> option float)
    (g : Stage.LayerGroup D E) : option float :=
  calculateFitScale (Stage.content g).

(** A position near the voxel of index (1, 2, 1), off its centre. *)
Definition offCentre : Point := [1.25%float; 2.25%float; 0.75%float].

(** A position whose index is out of the slices of the sample image. *)
Definition outside : Point := [0%float; 0%float; 7%float].

(** The sample image with another data range. *)
Definition brightImage : Image.t :=
  Image.mk (Image.getGeometry sampleImage)
    (Image.getRescaleSlopeAndIntercept sampleImage) (Image.getMeta sampleImage)
    (Image.getSecondaryOffset sampleImage) (Image.mkRange 0 1000)
    (Image.canQuantify sampleImage) (Image.getRescaledValueAtIndex sampleImage)
    (Image.getImageUid sampleImage).

(** A view at the last slice of the sample image. *)
Definition lastSliceWorld : View.World :=
  View.mkWorld
    (withPosition (map sampleToWorld [1; 2; 2]%Z) (View.create sampleImage)) [].

(** The sample image after a frame was appended: a fourth dimension, of two
    frames. *)
Definition frameImage : Image.t :=
  Image.mk (Geometry.mk [4; 4; 3; 2]%Z (map sampleToWorld) (map sampleToIndex))
    (Image.getRescaleSlopeAndIntercept sampleImage) (Image.getMeta sampleImage)
    (Image.getSecondaryOffset sampleImage)
    (Image.getRescaledDataRange sampleImage) (Image.canQuantify sampleImage)
    (Image.getRescaledValueAtIndex sampleImage) (Image.getImageUid sampleImage).

(** A view of that image which still holds the position of index
    (1, 2, 1). *)
Definition frameWorld : View.World :=
  View.mkWorld
    (withPosition (map sampleToWorld [1; 2; 1]%Z) (View.create frameImage)) [].

(** * Properties *)

(** ** Window/level setter and the min/max level *)

(** C5. For every centre, every width below one and every prior state,
    [setWindowLevel] returns without changing the view (in particular the
    current window level and the current preset name) and without firing
    an event: the world it leaves is the world it was given. *)
Theorem setWindowLevel_rejects_narrow_width
    (center width : float) (name : option string) (silent : option bool)
    (w : View.World) :
  PrimFloat.ltb width 1 = true ->
  View.setWindowLevel center width name silent w = (Normal tt, w).
Proof.
  intros Hnarrow. unfold View.setWindowLevel. rewrite Hnarrow. reflexivity.
Qed.

Lemma setWindowLevel_rejects_narrow_width_witness :
  View.setWindowLevel 40 0.5 (Some "abdomen") None sampleWorld
  = (Normal tt, sampleWorld).
Proof.
  apply (setWindowLevel_rejects_narrow_width 40 0.5 (Some "abdomen") None
           sampleWorld).
  reflexivity.
Defined.

(** C9. [getWindowLevelMinMax] returns the level whose width is
    [max - min] of the rescaled data range, or one when [max - min < 1],
    and whose centre is [min + width / 2] for that (possibly clamped)
    width; on the range [100, 100] this is width 1 and centre 100.5. *)
Theorem getWindowLevelMinMax_range (v : View.t) :
  let range := Image.getRescaledDataRange (View.image v) in
  let min := Image.min range in
  let max := Image.max range in
  let level := View.getWindowLevelMinMax v in
  (PrimFloat.ltb (PrimFloat.sub max min) 1 = false ->
   WindowLevel.getWidth level = PrimFloat.sub max min)
  /\ (PrimFloat.ltb (PrimFloat.sub max min) 1 = true ->
      WindowLevel.getWidth level = 1%float)
  /\ WindowLevel.getCenter level
     = PrimFloat.add min (PrimFloat.div (WindowLevel.getWidth level) 2)
  /\ (min = 100%float -> max = 100%float ->
      WindowLevel.getWidth level = 1%float
      /\ WindowLevel.getCenter level = 100.5%float).
Proof.
  cbv zeta. unfold View.getWindowLevelMinMax.
  destruct (Image.getRescaledDataRange (View.image v)) as [lo hi]; simpl.
  split; [intros Hwide; rewrite Hwide; reflexivity |].
  split; [intros Hflat; rewrite Hflat; reflexivity |].
  split; [reflexivity |].
  intros -> ->. split; reflexivity.
Qed.

Lemma getWindowLevelMinMax_range_witness :
  WindowLevel.getWidth (View.getWindowLevelMinMax (View.create sampleImage))
  = 1%float
  /\ WindowLevel.getCenter (View.getWindowLevelMinMax (View.create sampleImage))
     = 100.5%float.
Proof.
  destruct (getWindowLevelMinMax_range (View.create sampleImage))
    as (_ & _ & _ & Hflat).
  apply Hflat; reflexivity.
Defined.

(** ** Index state machine *)

Lemma component_check_spec (g : Geometry.t) (index : Index) (d : nat) :
  match index !! d, Geometry.getSize g !! d with
  | Some v, Some s => Geometry.inBound v s
  | _, _ => false
  end = true <-> componentInBounds g index d.
Proof.
  unfold componentInBounds, Geometry.inBound.
  destruct (index !! d) as [value|]; destruct (Geometry.getSize g !! d) as [size|].
  - rewrite andb_true_iff, Z.leb_le, Z.ltb_lt. split.
    + intros [Hlo Hhi]. exists value, size. auto.
    + intros (value' & size' & [= <-] & [= <-] & Hlo & Hhi). auto.
  - split; [discriminate | intros (? & ? & _ & [=] & _)].
  - split; [discriminate | intros (? & ? & [=] & _)].
  - split; [discriminate | intros (? & ? & [=] & _)].
Qed.

Lemma isIndexInBounds_checkDirs (v : View.t) (index : Index) :
  Geometry.isIndexInBounds (Image.getGeometry (View.image v)) index
    (View.checkDirs v index) = true
  <-> scrollInBounds v index.
Proof.
  unfold scrollInBounds, View.checkDirs, Geometry.isIndexInBounds.
  destruct (Nat.eqb_spec (length index) 4) as [Hfour | Hother]; cbn [forallb].
  - rewrite andb_true_r, andb_true_iff, !component_check_spec. tauto.
  - rewrite andb_true_r, component_check_spec. tauto.
Qed.

Lemma previous_index_eq (v : View.t) :
  match View.getCurrentPosition v with
  | Some _ => View.getCurrentIndex v
  | None => None
  end = View.getCurrentIndex v.
Proof.
  unfold View.getCurrentIndex. destruct (View.getCurrentPosition v); reflexivity.
Qed.

(** What [setCurrentIndex] does on an index that passes the bounds check. *)
Lemma setCurrentIndex_accepted (index : Index) (silent : option bool)
    (w : View.World) :
  let v := View.view w in
  let position := Geometry.indexToWorld (Image.getGeometry (View.image v)) index in
  scrollInBounds v index ->
  View.setCurrentIndex index silent w
  = (Normal true,
     View.mkWorld (withPosition position v)
       (if default false silent then View.fired w
        else View.fired w ++
             [PositionChange index position
                (if Image.canQuantify (View.image v)
                 then Some (Image.getRescaledValueAtIndex (View.image v) index)
                 else None)
                (View.computeDiffDims (View.getCurrentIndex v) index)
                (Image.getImageUid (View.image v) index)])).
Proof.
  intros v position Hin. apply isIndexInBounds_checkDirs in Hin.
  unfold View.setCurrentIndex, bind, View.getView. cbn [fst snd].
  fold v. rewrite Hin. cbn [negb].
  rewrite previous_index_eq.
  destruct (default false silent); reflexivity.
Qed.

(** C3. An index that is out of bounds along the scroll dimension (or along
    dimension 3 when it has four components) is refused: the call returns
    false and leaves the position and the event trace as they were. An
    in-bounds index, when silence is not requested, is committed: the call
    returns true, the current position becomes the world point of the index
    and exactly one event, of type positionchange, is fired. *)
Theorem setCurrentIndex_bounds (index : Index) (silent : option bool)
    (w : View.World) :
  let v := View.view w in
  let position := Geometry.indexToWorld (Image.getGeometry (View.image v)) index in
  (~ scrollInBounds v index ->
   View.setCurrentIndex index silent w = (Normal false, w))
  /\ (scrollInBounds v index -> default false silent = false ->
      exists e : Event,
        eventType e = "positionchange"
        /\ View.setCurrentIndex index silent w
           = (Normal true,
              View.mkWorld (withPosition position v) (View.fired w ++ [e]))).
Proof.
  intros v position. split.
  - intros Hout.
    assert (Hcheck : Geometry.isIndexInBounds (Image.getGeometry (View.image v))
                       index (View.checkDirs v index) = false).
    { apply not_true_is_false. intros Hin. apply Hout.
      by apply isIndexInBounds_checkDirs. }
    unfold View.setCurrentIndex, bind, View.getView. fold v.
    rewrite Hcheck. reflexivity.
  - intros Hin Hloud.
    eexists. split; [| rewrite (setCurrentIndex_accepted index silent w Hin);
                       rewrite Hloud; reflexivity].
    reflexivity.
Qed.

Lemma setCurrentIndex_bounds_witness :
  View.setCurrentIndex [0; 0; 5]%Z None sampleWorld = (Normal false, sampleWorld)
  /\ exists e : Event,
       eventType e = "positionchange"
       /\ View.setCurrentIndex [1; 2; 1]%Z None sampleWorld
          = (Normal true,
             View.mkWorld
               (withPosition (map sampleToWorld [1; 2; 1]%Z) (View.view sampleWorld))
               [e]).
Proof.
  split.
  - apply (setCurrentIndex_bounds [0; 0; 5]%Z None sampleWorld).
    intros [(value & size & Hvalue & Hsize & Hrange) _].
    vm_compute in Hvalue, Hsize. simplify_eq. lia.
  - apply (setCurrentIndex_bounds [1; 2; 1]%Z None sampleWorld).
    + split.
      * exists 1%Z, 3%Z. repeat split; (reflexivity || lia).
      * intros Hfour. discriminate Hfour.
    + reflexivity.
Defined.

(** ** Diff dims *)

Lemma pushWhere_filter (keep : nat -> bool) (from count : nat) (acc : list nat) :
  View.pushWhere keep from count acc
  = acc ++ filter (fun i => keep i = true) (seq from count).
Proof.
  unfold View.pushWhere. revert from acc.
  induction count as [| count IH]; intros from acc; cbn [seq foldl].
  - by rewrite filter_nil, app_nil_r.
  - rewrite IH, filter_cons. destruct (keep from) eqn:Hkeep.
    + rewrite decide_True by done. by rewrite <- app_assoc.
    + rewrite decide_False by discriminate. done.
Qed.

Lemma pushWhere_all (from count : nat) (acc : list nat) :
  View.pushWhere (fun _ => true) from count acc = acc ++ seq from count.
Proof.
  rewrite pushWhere_filter. f_equal.
  induction (seq from count) as [| i l IH]; [done |].
  rewrite filter_cons, decide_True by done. by rewrite IH.
Qed.

Lemma differAt_true (lhs rhs : Index) (i : nat) :
  View.differAt lhs rhs i = true <-> lhs !! i <> rhs !! i.
Proof.
  unfold View.differAt. rewrite negb_true_iff, bool_decide_eq_false. done.
Qed.

Lemma pushWhere_differ (lhs rhs : Index) (count : nat) :
  View.pushWhere (View.differAt lhs rhs) 0 count []
  = filter (fun i => lhs !! i <> rhs !! i) (seq 0 count).
Proof.
  rewrite pushWhere_filter. cbn [app].
  apply list_filter_iff. intros i. apply differAt_true.
Qed.

Lemma no_difference_iff_equal (lhs rhs : Index) :
  length lhs = length rhs ->
  filter (fun i => lhs !! i <> rhs !! i) (seq 0 (length rhs)) = [] <-> lhs = rhs.
Proof.
  intros Hlen. split.
  - intros Hnone. apply list_eq. intros i.
    destruct (decide (i < length rhs)%nat) as [Hlt | Hge].
    + destruct (decide (lhs !! i = rhs !! i)) as [Heq | Hne]; [done |].
      assert (Hin : i ∈ filter (fun i => lhs !! i <> rhs !! i) (seq 0 (length rhs))).
      { apply list_elem_of_filter. split; [done |]. apply elem_of_seq. lia. }
      rewrite Hnone in Hin. by apply not_elem_of_nil in Hin.
    + rewrite !lookup_ge_None_2 by lia. done.
  - intros ->. induction (seq 0 (length rhs)) as [| i l IH]; [done |].
    rewrite filter_cons, decide_False by (intros Hne; by apply Hne). done.
Qed.

(** C4. The positionchange event fired by [setCurrentIndex] carries the diff
    dims computed from the index the view held before the call and the new
    one. With a previous index of the same length they are exactly the
    positions, in increasing order, at which the two differ, and there are
    none if and only if the two are equal; with a previous index of another
    length they are the differing positions below the shorter length
    followed by every position from the shorter length up to the longer one;
    without a previous position they are all the dimensions of the new
    index. *)
Theorem positionchange_diffDims (index : Index) (silent : option bool)
    (w : View.World) :
  let v := View.view w in
  let diffDims := View.computeDiffDims (View.getCurrentIndex v) index in
  (scrollInBounds v index -> default false silent = false ->
   View.fired (snd (View.setCurrentIndex index silent w))
   = View.fired w ++
     [PositionChange index
        (Geometry.indexToWorld (Image.getGeometry (View.image v)) index)
        (if Image.canQuantify (View.image v)
         then Some (Image.getRescaledValueAtIndex (View.image v) index)
         else None)
        diffDims
        (Image.getImageUid (View.image v) index)])
  /\ (forall previous : Index,
        View.getCurrentIndex v = Some previous ->
        length previous = length index ->
        diffDims
        = filter (fun i => previous !! i <> index !! i) (seq 0 (length index))
        /\ (diffDims = [] <-> previous = index))
  /\ (forall previous : Index,
        View.getCurrentIndex v = Some previous ->
        length previous <> length index ->
        let shorter := Nat.min (length previous) (length index) in
        let longer := Nat.max (length previous) (length index) in
        diffDims
        = filter (fun i => previous !! i <> index !! i) (seq 0 shorter)
          ++ seq shorter (longer - shorter))
  /\ (View.getCurrentIndex v = None -> diffDims = seq 0 (length index)).
Proof.
  intros v diffDims. subst diffDims.
  split; [| split; [| split]].
  - intros Hin Hloud.
    rewrite (setCurrentIndex_accepted index silent w Hin), Hloud. reflexivity.
  - intros previous Hprev Hlen. rewrite Hprev.
    unfold View.computeDiffDims, View.canCompare, View.compare.
    rewrite Hlen, Nat.eqb_refl, pushWhere_differ.
    split; [reflexivity | by apply no_difference_iff_equal].
  - intros previous Hprev Hlen shorter longer. rewrite Hprev.
    unfold View.computeDiffDims, View.canCompare.
    destruct (Nat.eqb_spec (length previous) (length index)) as [Heq | _];
      [contradiction |].
    rewrite pushWhere_all, pushWhere_differ. reflexivity.
  - intros Hnone. rewrite Hnone. unfold View.computeDiffDims.
    apply pushWhere_all.
Qed.

Lemma positionchange_diffDims_witness :
  View.fired (snd (View.setCurrentIndex [1; 2; 2]%Z None positionedWorld))
  = [PositionChange [1; 2; 2]%Z (map sampleToWorld [1; 2; 2]%Z) (Some 7%float)
       [2%nat] "uid"]
  /\ (View.computeDiffDims (Some [1; 2; 1]%Z) [1; 2; 2]%Z = [2%nat]
      /\ (View.computeDiffDims (Some [1; 2; 1]%Z) [1; 2; 2]%Z = []
          <-> [1; 2; 1]%Z = [1; 2; 2]%Z)).
Proof.
  destruct (positionchange_diffDims [1; 2; 2]%Z None positionedWorld)
    as (Hevent & Hsame & _ & _).
  split.
  - rewrite Hevent; [reflexivity | | reflexivity].
    split.
    + exists 2%Z, 3%Z. repeat split; (reflexivity || lia).
    + intros Hfour. discriminate Hfour.
  - apply (Hsame [1; 2; 1]%Z); reflexivity.
Defined.

(** ** The registry as a plain object *)

Lemma lookupKey_None (key : string) (o : Presets) :
  lookupKey key o = None <-> key ∉ keys o.
Proof.
  unfold keys. induction o as [| [k p] rest IH]; cbn [lookupKey fmap list_fmap fst].
  - split; [intros _; apply not_elem_of_nil | done].
  - rewrite not_elem_of_cons. destruct (String.eqb_spec k key) as [-> | Hne].
    + split; [discriminate | intros [Hne _]; contradiction].
    + rewrite IH. split; [intros Hnot; split; [congruence | done] | tauto].
Qed.

Lemma lookupKey_replaceKey_eq (key : string) (p : Preset.t) (o : Presets) :
  lookupKey key o <> None -> lookupKey key (replaceKey key p o) = Some p.
Proof.
  induction o as [| [k q] rest IH]; cbn [replaceKey lookupKey]; [done |].
  destruct (String.eqb_spec k key) as [-> | Hne]; cbn [lookupKey].
  - by rewrite String.eqb_refl.
  - by rewrite (proj2 (String.eqb_neq k key) Hne).
Qed.

Lemma lookupKey_replaceKey_ne (key other : string) (p : Preset.t) (o : Presets) :
  key <> other -> lookupKey other (replaceKey key p o) = lookupKey other o.
Proof.
  intros Hne. induction o as [| [k q] rest IH]; cbn [replaceKey lookupKey]; [done |].
  destruct (String.eqb_spec k key) as [-> | Hk]; cbn [lookupKey].
  - by rewrite (proj2 (String.eqb_neq key other) Hne).
  - by rewrite IH.
Qed.

Lemma lookupKey_createKey_eq (key : string) (p : Preset.t) (o : Presets) :
  lookupKey key o = None -> lookupKey key (createKey key p o) = Some p.
Proof.
  induction o as [| [k q] rest IH]; cbn [createKey lookupKey].
  - by rewrite String.eqb_refl.
  - destruct (String.eqb_spec k key) as [-> | Hne]; [discriminate |]. intros Hnone.
    destruct (listedBefore k key); cbn [lookupKey].
    + rewrite (proj2 (String.eqb_neq k key) Hne). by apply IH.
    + by rewrite String.eqb_refl.
Qed.

Lemma lookupKey_createKey_ne (key other : string) (p : Preset.t) (o : Presets) :
  key <> other -> lookupKey other (createKey key p o) = lookupKey other o.
Proof.
  intros Hne. induction o as [| [k q] rest IH]; cbn [createKey lookupKey].
  - by rewrite (proj2 (String.eqb_neq key other) Hne).
  - destruct (listedBefore k key); cbn [lookupKey].
    + by rewrite IH.
    + by rewrite (proj2 (String.eqb_neq key other) Hne).
Qed.

Lemma lookupKey_assignKey_eq (key : string) (p : Preset.t) (o : Presets) :
  lookupKey key (assignKey key p o) = Some p.
Proof.
  unfold assignKey. destruct (lookupKey key o) as [q |] eqn:Hlook.
  - apply lookupKey_replaceKey_eq. by rewrite Hlook.
  - by apply lookupKey_createKey_eq.
Qed.

Lemma lookupKey_assignKey_ne (key other : string) (p : Preset.t) (o : Presets) :
  key <> other -> lookupKey other (assignKey key p o) = lookupKey other o.
Proof.
  intros Hne. unfold assignKey. destruct (lookupKey key o).
  - by apply lookupKey_replaceKey_ne.
  - by apply lookupKey_createKey_ne.
Qed.









(** A name that is an array index is listed ahead of the other names, in
    ascending order. *)
Lemma assignKey_array_index_order :
  keys (assignKey "2" abdomenPreset
          (assignKey "bone" abdomenPreset
             (assignKey "10" abdomenPreset
                [("minmax", Preset.mk (Some "minmax") None None)])))
  = ["2"; "10"; "minmax"; "bone"].
Proof. reflexivity. Qed.

Lemma filter_ext_elem {A : Type} (P Q : A -> Prop)
    `{!forall x, Decision (P x)} `{!forall x, Decision (Q x)} (l : list A) :
  (forall x, x ∈ l -> P x <-> Q x) -> filter P l = filter Q l.
Proof.
  induction l as [| x l IH]; intros Hext; [done |].
  rewrite !filter_cons.
  assert (Hhead : P x <-> Q x) by (apply Hext; left).
  assert (Htail : filter P l = filter Q l).
  { apply IH. intros y Hy. apply Hext. by right. }
  rewrite Htail. destruct (decide (P x)), (decide (Q x)); tauto || done.
Qed.

Lemma lookupKey_mergePresets_other (key : string) (supplied o : Presets) :
  key ∉ keys supplied -> lookupKey key (mergePresets supplied o) = lookupKey key o.
Proof.
  unfold mergePresets, keys. revert o.
  induction supplied as [| [k p] rest IH]; intros o Hnot; cbn [foldl fst snd]; [done |].
  cbn [fmap list_fmap fst] in Hnot. apply not_elem_of_cons in Hnot as [Hne Hrest].
  rewrite IH by done. apply lookupKey_assignKey_ne. congruence.
Qed.



(** ** Adding presets *)

Lemma addWindowPreset_refused (key : string) (p : Preset.t) (w : View.World) :
  persliceAt (View.windowPresets (View.view w)) key = true ->
  View.addWindowPreset (key, p) w = (Throw "Cannot add perslice preset", w).
Proof.
  unfold persliceAt, View.addWindowPreset, bind, View.getView. cbn [fst snd].
  destruct (lookupKey key (View.windowPresets (View.view w))) as [existing |];
    [| discriminate].
  intros ->. reflexivity.
Qed.

Lemma addWindowPreset_merged (key : string) (p : Preset.t) (w : View.World) :
  let registry := View.windowPresets (View.view w) in
  persliceAt registry key = false ->
  View.addWindowPreset (key, p) w
  = (Normal tt,
     View.mkWorld (View.setPresets (assignKey key p registry) (View.view w))
       (View.fired w ++ (WlPresetAdd <$> filter (newName registry) [key]))).
Proof.
  intros registry. subst registry.
  unfold persliceAt, View.addWindowPreset, bind, View.getView. cbn [fst snd].
  rewrite filter_cons, filter_nil.
  destruct (lookupKey key (View.windowPresets (View.view w)))
    as [existing |] eqn:Hlook.
  - intros ->. rewrite decide_False by (intros [Hnone _]; congruence).
    unfold modify, View.withView. cbn. by rewrite app_nil_r.
  - intros _. destruct (inheritedName key) eqn:Hinherited.
    + rewrite decide_False by (intros [_ Hnot]; congruence).
      unfold modify, View.withView. cbn. by rewrite app_nil_r.
    + rewrite decide_True by done. reflexivity.
Qed.

Lemma persliceAt_assignKey_ne (key other : string) (p : Preset.t) (o : Presets) :
  key <> other -> persliceAt (assignKey key p o) other = persliceAt o other.
Proof.
  intros Hne. unfold persliceAt. by rewrite lookupKey_assignKey_ne.
Qed.

Lemma persliceAt_mergePresets_other (key : string) (supplied o : Presets) :
  key ∉ keys supplied -> persliceAt (mergePresets supplied o) key = persliceAt o key.
Proof.
  intros Hnot. unfold persliceAt. by rewrite lookupKey_mergePresets_other.
Qed.

Lemma newName_assignKey_ne (key other : string) (p : Preset.t) (o : Presets) :
  key <> other -> newName (assignKey key p o) other <-> newName o other.
Proof.
  intros Hne. unfold newName. by rewrite lookupKey_assignKey_ne.
Qed.

Lemma addWindowPresets_merged (supplied : Presets) (w : View.World) :
  let registry := View.windowPresets (View.view w) in
  NoDup (keys supplied) ->
  Forall (fun key => persliceAt registry key = false) (keys supplied) ->
  View.addWindowPresets supplied w
  = (Normal tt,
     View.mkWorld (View.setPresets (mergePresets supplied registry) (View.view w))
       (View.fired w ++ (WlPresetAdd <$> filter (newName registry) (keys supplied)))).
Proof.
  cbv zeta. revert w.
  induction supplied as [| [k p] rest IH]; intros w Hnodup Hfree.
  - destruct w as [v trace]. destruct v. cbn. by rewrite app_nil_r.
  - unfold keys in Hnodup, Hfree. cbn [fmap list_fmap fst] in Hnodup, Hfree.
    apply NoDup_cons in Hnodup as [Hfresh Hnodup].
    apply Forall_cons in Hfree as [Hk Hfree].
    unfold View.addWindowPresets. cbn [forEach]. unfold bind at 1.
    rewrite (addWindowPreset_merged k p w Hk).
    fold (View.addWindowPresets rest).
    rewrite IH; cbn [View.view View.fired View.windowPresets View.setPresets]; [| done |].
    + f_equal. f_equal.
      rewrite <- app_assoc, <- fmap_app. do 2 f_equal.
      change (keys ((k, p) :: rest)) with ([k] ++ keys rest).
      rewrite filter_app. f_equal.
      apply filter_ext_elem. intros key Hkey.
      apply newName_assignKey_ne. intros ->. contradiction.
    + apply Forall_forall. intros key Hkey.
      rewrite persliceAt_assignKey_ne by (intros ->; contradiction).
      by apply (proj1 (Forall_forall _ _) Hfree).
Qed.

Lemma forEach_app {S A : Type} (body : A -> M S unit) (l1 l2 : list A) (s : S) :
  forEach body (l1 ++ l2) s
  = bind (forEach body l1) (fun _ => forEach body l2) s.
Proof.
  revert s. induction l1 as [| x l1 IH]; intros s; cbn [app forEach].
  - reflexivity.
  - unfold bind in *. destruct (body x s) as [[[] | msg] s1]; [| reflexivity].
    apply IH.
Qed.

(** The call that meets a per-slice name stops there: what was supplied
    before that name is merged, the rest is not. *)
Lemma addWindowPresets_interrupted
    (before after : Presets) (key : string) (p : Preset.t) (w : View.World) :
  let registry := View.windowPresets (View.view w) in
  NoDup (keys (before ++ [(key, p)])) ->
  Forall (fun k => persliceAt registry k = false) (keys before) ->
  persliceAt registry key = true ->
  View.addWindowPresets (before ++ (key, p) :: after) w
  = (Throw "Cannot add perslice preset",
     View.mkWorld (View.setPresets (mergePresets before registry) (View.view w))
       (View.fired w ++ (WlPresetAdd <$> filter (newName registry) (keys before)))).
Proof.
  intros registry Hnodup Hfree Hclash.
  unfold keys in Hnodup. rewrite fmap_app in Hnodup.
  apply NoDup_app in Hnodup as (Hbefore & Hfresh & _).
  assert (Hnot : key ∉ keys before).
  { intros Hin. apply (Hfresh key Hin). cbn. left. }
  unfold View.addWindowPresets. rewrite forEach_app. unfold bind at 1.
  fold (View.addWindowPresets before).
  rewrite (addWindowPresets_merged before w Hbefore Hfree).
  cbn [forEach]. unfold bind at 1.
  rewrite addWindowPreset_refused; [reflexivity |].
  cbn [View.view View.windowPresets View.setPresets].
  by rewrite persliceAt_mergePresets_other.
Qed.





(** C8, as stated, fails: the call below throws after it has added
    "abdomen", so the registry it leaves is not the one it was given. *)
Lemma addWindowPresets_failure_not_atomic :
  let result :=
    View.addWindowPresets
      [("abdomen", abdomenPreset); ("frame", abdomenPreset)] persliceWorld in
  fst result = Throw "Cannot add perslice preset"
  /\ View.windowPresets (View.view (snd result))
     <> View.windowPresets (View.view persliceWorld).
Proof.
  split; [reflexivity |].
  intros Hsame. apply (f_equal length) in Hsame. vm_compute in Hsame.
  discriminate Hsame.
Qed.

(** C8, amended. For supplied names other than "__proto__": when the call
    throws on a name that is an own per-slice entry of the registry, the
    world it leaves is the one that merging the presets supplied before that
    name leaves. They are in the registry, and a wlpresetadd event is fired
    for each of them whose name the registry neither owned nor inherited
    from Object.prototype, while the offending preset and those supplied
    after it are not applied. The world is left exactly as it was when the
    offending preset is the first supplied one. *)
Theorem addWindowPresets_failure_state
    (before after : Presets) (key : string) (p : Preset.t) (w : View.World) :
  let registry := View.windowPresets (View.view w) in
  NoDup (keys (before ++ [(key, p)])) ->
  "__proto__" ∉ keys before ->
  Forall (fun k => persliceAt registry k = false) (keys before) ->
  persliceAt registry key = true ->
  View.addWindowPresets (before ++ (key, p) :: after) w
  = (Throw "Cannot add perslice preset",
     View.mkWorld (View.setPresets (mergePresets before registry) (View.view w))
       (View.fired w ++ (WlPresetAdd <$> filter (newName registry) (keys before))))
  /\ (before = [] -> snd (View.addWindowPresets (before ++ (key, p) :: after) w) = w).
Proof.
  intros registry Hnodup _ Hfree Hclash.
  pose proof (addWindowPresets_interrupted before after key p w Hnodup Hfree Hclash)
    as Hrun.
  split; [exact Hrun |].
  intros ->. rewrite Hrun. destruct w as [[] trace]. cbn. by rewrite app_nil_r.
Qed.

Lemma addWindowPresets_failure_state_witness :
  View.addWindowPresets
    [("abdomen", abdomenPreset); ("toString", abdomenPreset);
     ("frame", abdomenPreset); ("lung", abdomenPreset)]
    persliceWorld
  = (Throw "Cannot add perslice preset",
     View.mkWorld
       (View.setPresets
          [("minmax", Preset.mk (Some "minmax") None None);
           ("frame", framePreset); ("abdomen", abdomenPreset);
           ("toString", abdomenPreset)]
          (View.view persliceWorld))
       [WlPresetAdd "abdomen"]).
Proof.
  destruct (addWindowPresets_failure_state
              [("abdomen", abdomenPreset); ("toString", abdomenPreset)]
              [("lung", abdomenPreset)]
              "frame" abdomenPreset persliceWorld) as [Hrun _].
  - apply (bool_decide_unpack _). vm_compute. reflexivity.
  - apply (bool_decide_unpack _). vm_compute. reflexivity.
  - repeat constructor.
  - reflexivity.
  - exact Hrun.
Defined.

(** ** Per-slice presets stay installed *)

(** C7, as stated, fails: [setWindowPresets] is a public operation and it
    replaces the registry whatever it holds; here it removes the per-slice
    preset "frame". *)
Lemma setWindowPresets_drops_perslice :
  let result := View.setWindowPresets [] persliceWorld in
  persliceAt (View.windowPresets (View.view persliceWorld)) "frame" = true
  /\ fst result = Normal tt
  /\ lookupKey "frame" (View.windowPresets (View.view (snd result))) = None.
Proof. repeat split. Qed.

Section Preservation.

Variable I : View.World -> Prop.
Hypothesis I_traceBlind : traceBlind I.

Lemma preserves_ret {A : Type} (a : A) : preserves I (ret a).
Proof. intros w Hw. exact Hw. Qed.

Lemma preserves_throw {A : Type} (msg : string) : preserves I (@throw _ A msg).
Proof. intros w Hw. exact Hw. Qed.

Lemma preserves_getView : preserves I View.getView.
Proof. intros w Hw. exact Hw. Qed.

Lemma preserves_fireEvent (e : Event) : preserves I (View.fireEvent e).
Proof. intros [v trace] Hw. by apply (I_traceBlind v trace). Qed.

Lemma preserves_modify (f : View.t -> View.t) :
  (forall w, I w -> I (View.withView f w)) ->
  preserves I (modify (View.withView f)).
Proof. intros Hf w Hw. by apply Hf. Qed.

Lemma preserves_bind {A B : Type} (m : M View.World A) (k : A -> M View.World B) :
  preserves I m -> (forall a, preserves I (k a)) -> preserves I (bind m k).
Proof.
  intros Hm Hk w Hw. unfold bind. specialize (Hm w Hw).
  destruct (m w) as [[a | msg] w1]; cbn [snd] in *.
  - by apply Hk.
  - exact Hm.
Qed.

(** The continuation of [getView] may rely on the property holding of the
    view it receives. *)
Lemma preserves_getView_bind {B : Type} (k : View.t -> M View.World B) :
  (forall v, (exists trace, I (View.mkWorld v trace)) -> preserves I (k v)) ->
  preserves I (bind View.getView k).
Proof.
  intros Hk [v trace] Hw. unfold bind, View.getView. cbn [View.view].
  apply Hk; [by exists trace | done].
Qed.

Lemma preserves_forEach {A : Type} (body : A -> M View.World unit) (l : list A) :
  (forall x, preserves I (body x)) -> preserves I (forEach body l).
Proof.
  intros Hbody. induction l as [| x l IH]; cbn [forEach].
  - apply preserves_ret.
  - apply preserves_bind; [apply Hbody | intros _; exact IH].
Qed.

End Preservation.

Lemma holds_traceBlind (key : string) (installed : Preset.t) :
  traceBlind (holds key installed).
Proof. intros v trace trace' Hw. exact Hw. Qed.

Lemma cacheIs_traceBlind (img : Image.t) (luts : gmap string WindowLut.t) :
  traceBlind (cacheIs img luts).
Proof. intros v trace trace' Hw. exact Hw. Qed.

Create HintDb preserves.
#[export] Hint Resolve holds_traceBlind cacheIs_traceBlind : preserves.

Ltac preserves_auto :=
  repeat first
    [ progress cbv zeta
    | apply preserves_ret
    | apply preserves_throw
    | apply preserves_fireEvent; solve [auto with preserves]
    | apply preserves_getView
    | apply preserves_modify; intros ? Hkept; exact Hkept
    | solve [auto with preserves]
    | apply preserves_bind; [| intros ?]
    | match goal with
      | |- preserves _ (if ?b then _ else _) => destruct b
      | |- preserves _ (match ?x with _ => _ end) => destruct x
      end ].

(** The calls that touch neither the image nor the window LUT cache. *)
Section CacheKept.

Variable img : Image.t.
Variable luts : gmap string WindowLut.t.

Lemma cache_setCurrentIndex (index : Index) (silent : option bool) :
  preserves (cacheIs img luts) (View.setCurrentIndex index silent).
Proof. unfold View.setCurrentIndex. preserves_auto. Qed.
Hint Resolve cache_setCurrentIndex : preserves.

Lemma cache_setInitialIndex : preserves (cacheIs img luts) View.setInitialIndex.
Proof. unfold View.setInitialIndex. preserves_auto. Qed.

Lemma cache_setWindowLevel (center width : float) (name : option string)
    (silent : option bool) :
  preserves (cacheIs img luts) (View.setWindowLevel center width name silent).
Proof. unfold View.setWindowLevel. preserves_auto. Qed.
Hint Resolve cache_setWindowLevel : preserves.

Lemma cache_setWindowLevelPreset (name : string) (silent : option bool) :
  preserves (cacheIs img luts) (View.setWindowLevelPreset name silent).
Proof. unfold View.setWindowLevelPreset. preserves_auto. Qed.
Hint Resolve cache_setWindowLevelPreset : preserves.

Lemma cache_setWindowLevelPresetById (id : nat) (silent : option bool) :
  preserves (cacheIs img luts) (View.setWindowLevelPresetById id silent).
Proof. unfold View.setWindowLevelPresetById. preserves_auto. Qed.

End CacheKept.

Section PersliceKept.

Variable key : string.
Variable installed : Preset.t.
Hypothesis installed_perslice : Preset.isPerslice installed = true.
Hypothesis installed_levels : Preset.wl installed <> None.

Local Abbreviation keeps := (preserves (holds key installed)).

Lemma keeps_assign (name : string) (p : Preset.t) :
  (name = key -> p = installed) ->
  keeps
    (modify (View.withView (fun v =>
       View.setPresets (assignKey name p (View.windowPresets v)) v))).
Proof.
  intros Hsame. apply preserves_modify. intros w Hw. unfold holds in *.
  cbn [View.view View.withView View.windowPresets View.setPresets].
  destruct (decide (name = key)) as [-> | Hne].
  - rewrite (Hsame eq_refl). apply lookupKey_assignKey_eq.
  - by rewrite lookupKey_assignKey_ne.
Qed.

Lemma keeps_setOrientation (mat33 : option Matrix33) :
  keeps (View.setOrientation mat33).
Proof. unfold View.setOrientation. preserves_auto. Qed.

Lemma keeps_setCurrentIndex (index : Index) (silent : option bool) :
  keeps (View.setCurrentIndex index silent).
Proof. unfold View.setCurrentIndex. preserves_auto. Qed.
Hint Resolve keeps_setCurrentIndex : preserves.

Lemma keeps_setCurrentPosition (position : Point) (silent : option bool) :
  keeps (View.setCurrentPosition position silent).
Proof. unfold View.setCurrentPosition. preserves_auto. Qed.

Lemma keeps_setInitialIndex : keeps View.setInitialIndex.
Proof. unfold View.setInitialIndex. preserves_auto. Qed.
Hint Resolve keeps_setInitialIndex : preserves.

Lemma keeps_setWindowLevel (center width : float) (name : option string)
    (silent : option bool) :
  keeps (View.setWindowLevel center width name silent).
Proof. unfold View.setWindowLevel. preserves_auto. Qed.
Hint Resolve keeps_setWindowLevel : preserves.

Lemma keeps_setWindowLevelMinMax : keeps View.setWindowLevelMinMax.
Proof. unfold View.setWindowLevelMinMax. preserves_auto. Qed.

Lemma keeps_addWindowLut (wlut : WindowLut.t) : keeps (View.addWindowLut wlut).
Proof. unfold View.addWindowLut. preserves_auto. Qed.
Hint Resolve keeps_addWindowLut : preserves.

Lemma keeps_setWindowLevelPreset (name : string) (silent : option bool) :
  keeps (View.setWindowLevelPreset name silent).
Proof.
  unfold View.setWindowLevelPreset. apply preserves_getView_bind.
  intros v [trace Hv]. unfold holds in Hv. cbn [View.view] in Hv.
  unfold View.getWindowPresets.
  destruct (lookupKey name (View.windowPresets v)) as [preset |] eqn:Hlook;
    [| destruct (inheritedName name); apply preserves_throw].
  apply preserves_bind.
  - apply keeps_assign. intros ->. rewrite Hv in Hlook. injection Hlook as <-.
    destruct (Preset.wl installed); [reflexivity | contradiction].
  - intros _. preserves_auto.
Qed.
Hint Resolve keeps_setWindowLevelPreset : preserves.

Lemma keeps_setWindowLevelPresetById (id : nat) (silent : option bool) :
  keeps (View.setWindowLevelPresetById id silent).
Proof. unfold View.setWindowLevelPresetById. preserves_auto. Qed.
Hint Resolve keeps_setWindowLevelPresetById : preserves.

Lemma keeps_getCurrentWindowLut (rsi : option RSI.t) :
  keeps (View.getCurrentWindowLut rsi).
Proof. unfold View.getCurrentWindowLut. preserves_auto. Qed.

Lemma keeps_addWindowPreset (entry : string * Preset.t) :
  keeps (View.addWindowPreset entry).
Proof.
  unfold View.addWindowPreset. apply preserves_getView_bind.
  intros v [trace Hv]. unfold holds in Hv. cbn [View.view] in Hv.
  destruct (lookupKey entry.1 (View.windowPresets v)) as [existing |] eqn:Hlook.
  - destruct (Preset.isPerslice existing) eqn:Hexisting; [apply preserves_throw |].
    apply keeps_assign. intros Hsame. rewrite Hsame, Hv in Hlook.
    injection Hlook as <-. congruence.
  - assert (Hother : entry.1 = key -> entry.2 = installed).
    { intros Hsame. rewrite Hsame, Hv in Hlook. discriminate. }
    destruct (inheritedName entry.1); [by apply keeps_assign |].
    apply preserves_bind;
      [| intros _; apply preserves_fireEvent, holds_traceBlind].
    by apply keeps_assign.
Qed.

Lemma keeps_addWindowPresets (presets : Presets) :
  keeps (View.addWindowPresets presets).
Proof. apply preserves_forEach, keeps_addWindowPreset. Qed.

Lemma perform_keeps (op : Operation) (w : View.World) :
  isSetWindowPresets op = false ->
  holds key installed w -> holds key installed (perform op w).
Proof.
  intros Hop Hw. destruct op; cbn [perform]; try discriminate Hop.
  - by apply keeps_setOrientation.
  - by apply keeps_setInitialIndex.
  - by apply keeps_setCurrentIndex.
  - by apply keeps_setCurrentPosition.
  - by apply keeps_setWindowLevel.
  - by apply keeps_setWindowLevelMinMax.
  - by apply keeps_setWindowLevelPreset.
  - by apply keeps_setWindowLevelPresetById.
  - by apply keeps_getCurrentWindowLut.
  - by apply keeps_addWindowLut.
  - by apply keeps_addWindowPresets.
Qed.

End PersliceKept.

(** C7, amended. Once a per-slice preset that carries its levels is the
    registry's entry for a name, it remains that entry, unchanged, through
    every sequence of calls of [setOrientation], [setInitialIndex],
    [setCurrentIndex], [setCurrentPosition], [setWindowLevel],
    [setWindowLevelMinMax], [setWindowLevelPreset],
    [setWindowLevelPresetById], [getCurrentWindowLut], [addWindowLut] and
    [addWindowPresets], whether the calls return or throw. [setWindowPresets]
    is the exception: it makes its argument the registry. *)
Theorem perslice_preset_kept (key : string) (installed : Preset.t)
    (ops : list Operation) (w : View.World) :
  Preset.isPerslice installed = true ->
  Preset.wl installed <> None ->
  lookupKey key (View.windowPresets (View.view w)) = Some installed ->
  Forall (fun op => isSetWindowPresets op = false) ops ->
  lookupKey key (View.windowPresets (View.view (performAll ops w))) = Some installed
  /\ (forall presets,
        View.windowPresets (View.view (perform (SetWindowPresets presets) w))
        = presets).
Proof.
  intros Hperslice Hlevels Hinstalled Hops. split; [| reflexivity].
  unfold performAll. revert w Hinstalled.
  induction Hops as [| op ops Hop _ IH]; intros w Hinstalled; cbn [foldl].
  - exact Hinstalled.
  - apply IH. by apply (perform_keeps key installed Hperslice Hlevels op w Hop).
Qed.

Lemma perslice_preset_kept_witness :
  lookupKey "frame"
    (View.windowPresets
       (View.view
          (performAll
             [AddWindowPresets [("abdomen", abdomenPreset); ("frame", abdomenPreset)];
              SetWindowLevelPreset "frame" None;
              GetCurrentWindowLut None;
              SetCurrentIndex [0; 0; 1]%Z None]
             persliceWorld)))
  = Some framePreset.
Proof.
  apply (perslice_preset_kept "frame" framePreset
           [AddWindowPresets [("abdomen", abdomenPreset); ("frame", abdomenPreset)];
            SetWindowLevelPreset "frame" None;
            GetCurrentWindowLut None;
            SetCurrentIndex [0; 0; 1]%Z None]
           persliceWorld).
  - reflexivity.
  - discriminate.
  - reflexivity.
  - repeat constructor.
Defined.

#[export] Hint Resolve cache_setInitialIndex cache_setWindowLevelPresetById
  : preserves.

(** ** Window LUT cache *)

Lemma bind_normal_inv {S A B : Type} (m : M S A) (k : A -> M S B)
    (s s' : S) (b : B) :
  bind m k s = (Normal b, s') ->
  exists a s1, m s = (Normal a, s1) /\ k a s1 = (Normal b, s').
Proof.
  unfold bind. destruct (m s) as [[a | msg] s1]; [| discriminate].
  intros Hk. by exists a, s1.
Qed.

Lemma preserves_run (I : View.World -> Prop) {A : Type} (m : M View.World A)
    (w w1 : View.World) (c : Completion A) :
  preserves I m -> I w -> m w = (c, w1) -> I w1.
Proof. intros Hm Hw Hrun. specialize (Hm w Hw). by rewrite Hrun in Hm. Qed.

Lemma getCurrentWindowLut_cache_key (rsi : option RSI.t) (w w' : View.World)
    (lut : WindowLut.t) :
  let img := View.image (View.view w) in
  let sliceZero := Image.getRescaleSlopeAndIntercept img (Image.AtSlice 0) in
  let perCall := perCallRsi rsi w in
  View.windowLuts (View.view w) !! RSI.toString perCall = None ->
  View.getCurrentWindowLut rsi w = (Normal lut, w') ->
  WindowLut.getRescaleLut lut
  = RescaleLut.mk sliceZero (Image.BitsStored (Image.getMeta img))
  /\ View.windowLuts (View.view w')
     = <[RSI.toString sliceZero := lut]> (View.windowLuts (View.view w)).
Proof.
  intros img sliceZero perCall Hmiss Hrun.
  assert (Hw : cacheIs img (View.windowLuts (View.view w)) w) by done.
  unfold View.getCurrentWindowLut in Hrun.
  apply bind_normal_inv in Hrun as (v0 & w0 & Hget & Hrun).
  injection Hget as <- <-.
  apply bind_normal_inv in Hrun as ([] & w1 & Hinit & Hrun).
  assert (Hw1 : cacheIs img (View.windowLuts (View.view w)) w1).
  { eapply preserves_run; [| exact Hw | exact Hinit]. preserves_auto. }
  assert (Hper : perCall
                 = match rsi with
                   | Some r => r
                   | None =>
                       Image.getRescaleSlopeAndIntercept (View.image (View.view w1))
                         (Image.AtIndex (View.getCurrentIndex (View.view w1)))
                   end).
  { subst perCall. unfold perCallRsi. destruct rsi as [r |]; [reflexivity |].
    cbv zeta. destruct (View.getCurrentIndex (View.view w)).
    - injection Hinit as <-. reflexivity.
    - apply bind_normal_inv in Hinit as (a & w0 & Hset & Hret).
      injection Hret as <-. rewrite Hset. reflexivity. }
  apply bind_normal_inv in Hrun as (v & w1' & Hget & Hrun).
  injection Hget as <- <-.
  rewrite <- Hper in Hrun.
  apply bind_normal_inv in Hrun as (persliceWl & w2 & Hperslice & Hrun).
  assert (Hw2 : cacheIs img (View.windowLuts (View.view w)) w2).
  { eapply preserves_run; [| exact Hw1 | exact Hperslice]. preserves_auto. }
  apply bind_normal_inv in Hrun as (level & w3 & Hlevel & Hrun).
  assert (Hw3 : cacheIs img (View.windowLuts (View.view w)) w3).
  { eapply preserves_run; [| exact Hw2 | exact Hlevel]. preserves_auto. }
  apply bind_normal_inv in Hrun as (v3 & w3' & Hget & Hrun).
  injection Hget as <- <-.
  destruct Hw3 as [Himg Hluts]. rewrite Hluts, Himg, Hmiss in Hrun.
  fold sliceZero in Hrun.
  apply bind_normal_inv in Hrun as (found & w4 & Hfound & Hrun).
  apply bind_normal_inv in Hfound as ([] & w4' & Hadd & Hret).
  injection Hret as <- <-. injection Hadd as <-.
  destruct level as [level |]; [| discriminate Hrun].
  cbn [fst snd WindowLut.getWindowLevel WindowLut.create WindowLevel.equals negb
       WindowLut.getRescaleLut RescaleLut.getRSI] in Hrun.
  apply bind_normal_inv in Hrun as ([] & w5 & Hstore & Hrun).
  injection Hstore as <-.
  apply bind_normal_inv in Hrun as ([] & w6 & Hfire & Hrun).
  injection Hfire as <-. injection Hrun as <- <-.
  split; [reflexivity |].
  cbn [View.view View.withView View.windowLuts View.setLuts].
  rewrite Hluts. apply insert_insert_eq.
Qed.

(** C2, as stated, fails: on an image whose RSI at the current index
    renders as "2, 0" and whose RSI at slice 0 renders as "1, 0", the call
    finds no LUT under "2, 0", builds one on the slice 0 RSI and leaves it
    in the cache under "1, 0"; nothing is cached under "2, 0", so the next
    call with the same per-call RSI misses again. *)
Lemma getCurrentWindowLut_not_under_per_call_key :
  let perCall := RSI.mk 2 0 "2, 0" in
  let result := View.getCurrentWindowLut (Some perCall) sampleWorld in
  View.windowLuts (View.view sampleWorld) !! RSI.toString perCall = None
  /\ (exists lut,
        fst result = Normal lut
        /\ RescaleLut.getRSI (WindowLut.getRescaleLut lut) = RSI.mk 1 0 "1, 0"
        /\ View.windowLuts (View.view (snd result)) !! "1, 0" = Some lut)
  /\ View.windowLuts (View.view (snd result)) !! RSI.toString perCall = None.
Proof.
  cbv zeta. split; [reflexivity |]. split; [| reflexivity].
  eexists. split; [reflexivity |]. split; reflexivity.
Qed.

(** C2, amended. When no LUT is cached under the key of the per-call RSI and
    the call returns, the LUT it returns is built on a RescaleLut of the
    image's RSI at slice 0 and of the image's stored bits, and the cache is
    the former cache with that LUT stored under the key of the slice 0 RSI
    (the key of the LUT's own RescaleLut). A lookup under the per-call RSI's
    key then finds it when that key is the slice 0 RSI's key. *)
Theorem getCurrentWindowLut_caches_under_slice_zero_key
    (rsi : option RSI.t) (w w' : View.World) (lut : WindowLut.t) :
  let img := View.image (View.view w) in
  let sliceZero := Image.getRescaleSlopeAndIntercept img (Image.AtSlice 0) in
  let perCall := perCallRsi rsi w in
  View.windowLuts (View.view w) !! RSI.toString perCall = None ->
  View.getCurrentWindowLut rsi w = (Normal lut, w') ->
  WindowLut.getRescaleLut lut
  = RescaleLut.mk sliceZero (Image.BitsStored (Image.getMeta img))
  /\ View.windowLuts (View.view w')
     = <[RSI.toString sliceZero := lut]> (View.windowLuts (View.view w))
  /\ (RSI.toString perCall = RSI.toString sliceZero ->
      View.windowLuts (View.view w') !! RSI.toString perCall = Some lut).
Proof.
  intros img sliceZero perCall Hmiss Hrun.
  destruct (getCurrentWindowLut_cache_key rsi w w' lut Hmiss Hrun)
    as [Hbuilt Hcache].
  split; [exact Hbuilt |]. split; [exact Hcache |].
  intros Hkey. rewrite Hcache, Hkey. apply lookup_insert_eq.
Qed.

Lemma getCurrentWindowLut_caches_under_slice_zero_key_witness :
  let result :=
    View.getCurrentWindowLut (Some (RSI.mk 1 0 "1, 0")) sampleWorld in
  exists lut,
    fst result = Normal lut
    /\ WindowLut.getRescaleLut lut = RescaleLut.mk (RSI.mk 1 0 "1, 0") 16
    /\ View.windowLuts (View.view (snd result)) !! "1, 0" = Some lut.
Proof.
  cbv zeta.
  destruct (View.getCurrentWindowLut (Some (RSI.mk 1 0 "1, 0")) sampleWorld)
    as [[lut | msg] w'] eqn:Hrun.
  - exists lut. split; [reflexivity |].
    destruct (getCurrentWindowLut_caches_under_slice_zero_key
                (Some (RSI.mk 1 0 "1, 0")) sampleWorld w' lut eq_refl Hrun)
      as (Hbuilt & _ & Hfound).
    split; [exact Hbuilt | apply Hfound; reflexivity].
  - vm_compute in Hrun. discriminate Hrun.
Defined.

(** ** The callback store *)

Lemma arrayGet_arraySet_eq {A : Type} (i : nat) (x : A) (l : list (option A)) :
  Stage.arrayGet i (Stage.arraySet i x l) = Some x.
Proof.
  unfold Stage.arrayGet, Stage.arraySet. destruct (decide (i < length l)).
  - by rewrite list_lookup_insert_eq.
  - rewrite lookup_app_r by lia.
    rewrite lookup_app_r by (rewrite length_replicate; lia).
    rewrite length_replicate, Nat.sub_diag. reflexivity.
Qed.

Lemma arrayGet_arraySet_ne {A : Type} (i j : nat) (x : A) (l : list (option A)) :
  i <> j -> Stage.arrayGet j (Stage.arraySet i x l) = Stage.arrayGet j l.
Proof.
  intros Hne. unfold Stage.arrayGet, Stage.arraySet.
  destruct (decide (i < length l)).
  - by rewrite list_lookup_insert_ne.
  - destruct (decide (j < length l)) as [Hin | Hout].
    + by rewrite lookup_app_l.
    + rewrite (lookup_ge_None_2 l j) by lia.
      rewrite lookup_app_r by lia.
      destruct (decide (j - length l < i - length l)) as [Hhole | Hpast].
      * rewrite lookup_app_l by (rewrite length_replicate; lia).
        rewrite lookup_replicate_2 by lia. reflexivity.
      * rewrite lookup_app_r by (rewrite length_replicate; lia).
        rewrite length_replicate.
        rewrite lookup_ge_None_2 by (cbn; lia). reflexivity.
Qed.

Section StoreFacts.

Context {D E : Type}.
Implicit Types (b : Stage.Binder D E) (s : Stage.t D E) (c : Stage.Closure D E).

Lemma getBinderCallback_hit b k s c :
  storedClosure b k s = Some c ->
  Stage.getBinderCallback b k s = (Normal c, s).
Proof.
  intros Hstored. unfold storedClosure in Hstored.
  destruct s as [groups bs [store |] next]; cbn in Hstored; [| discriminate].
  destruct (Stage.arrayGet k store) as [objs |] eqn:Hget; cbn in Hstored;
    [| discriminate].
  destruct (find (Stage.sameBinder b) objs) as [obj |] eqn:Hfind;
    cbn in Hstored; [| discriminate].
  injection Hstored as <-.
  unfold Stage.getBinderCallback, bind, get.
  cbn [Stage.callbackStore]. rewrite Hget. cbn [from_option].
  rewrite Hget. cbn [from_option]. unfold id.
  rewrite Hfind. reflexivity.
Qed.

Lemma find_app_fresh (b : Stage.Binder D E) (objs : list (Stage.BinderObj D E))
    (obj : Stage.BinderObj D E) :
  find (Stage.sameBinder b) objs = None ->
  Stage.sameBinder b obj = true ->
  find (Stage.sameBinder b) (objs ++ [obj]) = Some obj.
Proof.
  intros Hnone Hsame. induction objs as [| o objs IH]; cbn in *.
  - by rewrite Hsame.
  - destruct (Stage.sameBinder b o); [discriminate | by apply IH].
Qed.

Lemma getBinderCallback_miss b k s :
  is_Some (Stage.callbackStore s) ->
  storedClosure b k s = None ->
  exists s',
    Stage.getBinderCallback b k s
    = (Normal (Stage.mkClosure (Stage.nextRef s) b k), s')
    /\ Stage.layerGroups s' = Stage.layerGroups s
    /\ Stage.binders s' = Stage.binders s
    /\ storedClosure b k s' = Some (Stage.mkClosure (Stage.nextRef s) b k)
    /\ (forall k', k' <> k -> storedClosure b k' s' = storedClosure b k' s).
Proof.
  intros [store Hstore] Hnone.
  unfold storedClosure, Stage.getBinderCallback, bind, get in *.
  destruct s as [groups bs store0 next]; cbn in *. subst store0. cbn in *.
  assert (Hfind : find (Stage.sameBinder b)
                    (default []
                       (Stage.arrayGet k
                          match Stage.arrayGet k store with
                          | Some _ => store
                          | None => Stage.arraySet k [] store
                          end)) = None).
  { destruct (Stage.arrayGet k store) as [objs |] eqn:Hget; cbn in *.
    - rewrite Hget. cbn. by destruct (find (Stage.sameBinder b) objs).
    - by rewrite arrayGet_arraySet_eq. }
  rewrite Hfind. cbn. eexists. split; [reflexivity |]. cbn.
  split; [reflexivity |]. split; [reflexivity |]. split.
  - rewrite arrayGet_arraySet_eq. cbn.
    rewrite find_app_fresh; [reflexivity | exact Hfind |].
    unfold Stage.sameBinder. cbn. apply Nat.eqb_refl.
  - intros k' Hne. rewrite arrayGet_arraySet_ne by done.
    destruct (Stage.arrayGet k store); [reflexivity |].
    by rewrite arrayGet_arraySet_ne.
Qed.

(** Asking for the callback of a binder and a layer group index, with a
    store in place. *)
Lemma getBinderCallback_spec b k s :
  is_Some (Stage.callbackStore s) ->
  exists c s',
    Stage.getBinderCallback b k s = (Normal c, s')
    /\ Stage.layerGroups s' = Stage.layerGroups s
    /\ Stage.binders s' = Stage.binders s
    /\ is_Some (Stage.callbackStore s')
    /\ storedClosure b k s' = Some c
    /\ (storedClosure b k s = None ->
        Stage.boundBinder c = b /\ Stage.boundIndex c = k)
    /\ (forall k' c', storedClosure b k' s = Some c' ->
                      storedClosure b k' s' = Some c')
    /\ (is_Some (storedClosure b k s) -> s' = s)
    /\ (sound b s -> sound b s')
    /\ (storedClosure b k s = None -> Stage.closureRef c = Stage.nextRef s).
Proof.
  intros Hstore. destruct (storedClosure b k s) as [c |] eqn:Hstored.
  - exists c, s. rewrite (getBinderCallback_hit b k s c Hstored).
    split; [reflexivity |]. split; [reflexivity |]. split; [reflexivity |].
    split; [exact Hstore |]. split; [exact Hstored |].
    split; [discriminate |]. split; [by intros k' c' Hk' |].
    split; [done |]. split; [done | discriminate].
  - destruct (getBinderCallback_miss b k s Hstore Hstored)
      as (s' & Hrun & Hgroups & Hbinders & Hnew & Hframe).
    exists (Stage.mkClosure (Stage.nextRef s) b k), s'.
    split; [exact Hrun |]. split; [exact Hgroups |]. split; [exact Hbinders |].
    split.
    { unfold storedClosure in Hnew. destruct (Stage.callbackStore s'); [done |].
      discriminate. }
    split; [exact Hnew |]. split; [done |]. split.
    { intros k' c' Hk'. destruct (decide (k' = k)) as [-> | Hne]; [congruence |].
      by rewrite Hframe. }
    split; [intros [? [=]] |]. split; [| done].
    intros Hsound k' c' Hk'. destruct (decide (k' = k)) as [-> | Hne].
    + rewrite Hnew in Hk'. injection Hk' as <-. done.
    + rewrite Hframe in Hk' by done. by apply Hsound.
Qed.

End StoreFacts.

(** ** The loops over the peers *)

Section LoopFacts.

Context {D E : Type}.
Variable b : Stage.Binder D E.
Variable op :
  string -> Stage.Closure D E -> Stage.LayerGroup D E -> Stage.LayerGroup D E.
Variable index : nat.

Lemma eachPeer_loop (ks : list nat) (s : Stage.t D E) :
  is_Some (Stage.callbackStore s) ->
  index < length (Stage.layerGroups s) ->
  exists s' cs,
    forEach (eachPeer op index b) ks s = (Normal tt, s')
    /\ is_Some (Stage.callbackStore s')
    /\ Stage.binders s' = Stage.binders s
    /\ Stage.layerGroups s'
       = alter (fun g => foldl (fun g c => op (Stage.getEventType b) c g) g cs)
           index (Stage.layerGroups s)
    /\ Forall2 (fun c k => storedClosure b k s' = Some c) cs
         (filter (fun k => k <> index) ks)
    /\ (forall k c, storedClosure b k s = Some c -> storedClosure b k s' = Some c)
    /\ (sound b s -> sound b s')
    /\ ((forall k, k ∈ ks -> k <> index -> is_Some (storedClosure b k s)) ->
        Stage.callbackStore s' = Stage.callbackStore s
        /\ Stage.nextRef s' = Stage.nextRef s).
Proof.
  revert s. induction ks as [| k ks IH]; intros s Hstore Hindex.
  - exists s, []. cbn. rewrite list_alter_id by done.
    split; [reflexivity |]. split; [exact Hstore |]. split; [reflexivity |].
    split; [reflexivity |]. split; [constructor |].
    split; [by intros k c Hk |]. split; [by intros Hs |]. by intros _.
  - cbn [forEach]. unfold bind at 1. unfold eachPeer at 1.
    destruct (decide (k <> index)) as [Hpeer | Hself].
    + unfold bind at 1, get.
      destruct (lookup_lt_is_Some_2 _ _ Hindex) as [g0 Hg0]. rewrite Hg0.
      unfold bind at 1.
      destruct (getBinderCallback_spec b k s Hstore)
        as (c & s1 & Hrun & Hgroups & Hbinders & Hstore1 & Hnew & _ & Hmono
            & Hhit & Hsound & _).
      rewrite Hrun. unfold modify at 1.
      set (s2 := Stage.setLayerGroups
                   (alter (op (Stage.getEventType b) c) index
                      (Stage.layerGroups s1)) s1).
      destruct (IH s2) as (s' & cs & Hloop & Hstore' & Hbinders' & Hgroups'
                           & Hcs & Hmono' & Hsound' & Hhit').
      { exact Hstore1. }
      { subst s2. cbn. rewrite length_alter, Hgroups. exact Hindex. }
      exists s', (c :: cs). split; [exact Hloop |]. split; [exact Hstore' |].
      split; [by rewrite Hbinders' |]. split.
      { rewrite Hgroups'. subst s2. cbn [Stage.layerGroups Stage.setLayerGroups].
        rewrite list_alter_alter_eq, Hgroups. reflexivity. }
      split.
      { rewrite filter_cons_True by done. constructor; [| exact Hcs].
        apply Hmono'. exact Hnew. }
      split; [intros k' c' Hk'; apply Hmono', Hmono, Hk' |].
      split; [intros Hs; apply Hsound', Hsound, Hs |].
      intros Hall.
      assert (Hsame : s1 = s) by (apply Hhit, Hall; [left | done]).
      destruct Hhit' as [Hcb Hnext].
      { intros k' Hk' Hne. subst s2. rewrite Hsame.
        change (is_Some (storedClosure b k' s)). apply Hall; [by right | done]. }
      rewrite Hcb, Hnext. subst s2. cbn. by rewrite Hsame.
    + destruct (IH s Hstore Hindex) as (s' & cs & Hloop & Hstore' & Hbinders'
                                        & Hgroups' & Hcs & Hmono' & Hsound' & Hhit').
      exists s', cs. split; [exact Hloop |]. split; [exact Hstore' |].
      split; [exact Hbinders' |]. split; [exact Hgroups' |].
      split; [by rewrite filter_cons_False |].
      split; [exact Hmono' |]. split; [exact Hsound' |].
      intros Hall. apply Hhit'. intros k' Hk' Hne. apply Hall; [by right | done].
Qed.

End LoopFacts.

(** ** Listeners of one layer group *)

Section ListenerFacts.

Context {D E : Type}.
Implicit Types (g : Stage.LayerGroup D E) (c : Stage.Closure D E).

Lemma layerGroup_eta g : Stage.mkLayerGroup (Stage.listeners g) (Stage.content g) = g.
Proof. by destruct g. Qed.

(** Removing the function objects [cs] one after the other leaves the
    listeners whose identity is none of theirs. *)
Lemma remove_all (type : string) (cs registered : list (Stage.Closure D E)) g :
  Stage.listeners g !! type = Some registered ->
  foldl (fun g c => Stage.removeEventListener type c g) g cs
  = Stage.mkLayerGroup
      (<[type := filter (fun c' => Stage.closureRef c' ∉ Stage.closureRef <$> cs)
                   registered]> (Stage.listeners g))
      (Stage.content g).
Proof.
  revert g registered. induction cs as [| c cs IH]; intros g registered Hreg.
  - cbn [foldl fmap list_fmap].
    assert (Hall : filter (fun c' => Stage.closureRef c' ∉ @nil nat) registered
                   = registered).
    { clear Hreg. induction registered as [| c' l IHl]; [done |].
      rewrite filter_cons_True by apply not_elem_of_nil. by rewrite IHl. }
    rewrite Hall, insert_id by done. by rewrite layerGroup_eta.
  - cbn [foldl]. unfold Stage.removeEventListener at 2. rewrite Hreg.
    rewrite (IH _ (filter (fun c' => Stage.closureRef c' <> Stage.closureRef c)
                     registered)).
    2: { cbn. apply lookup_insert_eq. }
    cbn [Stage.listeners Stage.content]. rewrite insert_insert_eq.
    f_equal. f_equal. rewrite list_filter_filter.
    apply list_filter_iff. intros c'. cbn [fmap list_fmap].
    rewrite not_elem_of_cons. tauto.
Qed.

Lemma remove_all_registered (type : string) (cs : list (Stage.Closure D E)) g :
  Stage.listeners g !! type = Some cs ->
  foldl (fun g c => Stage.removeEventListener type c g) g cs
  = Stage.mkLayerGroup (<[type := []]> (Stage.listeners g)) (Stage.content g).
Proof.
  intros Hreg. rewrite (remove_all type cs cs g Hreg). do 3 f_equal.
  assert (Hnone : forall l, (forall c, c ∈ l -> c ∈ cs) ->
            filter (fun c' => Stage.closureRef c' ∉ Stage.closureRef <$> cs) l = []).
  { induction l as [| c l IHl]; intros Hsub; [done |].
    rewrite filter_cons_False.
    - apply IHl. intros c' Hc'. apply Hsub. by right.
    - intros Hnot. apply Hnot. apply list_elem_of_fmap_2. apply Hsub. left. }
  by apply Hnone.
Qed.

(** Registering the function objects [cs] one after the other appends
    them. *)
Lemma add_all (type : string) (cs registered : list (Stage.Closure D E)) g :
  Stage.listeners g !! type = Some registered ->
  foldl (fun g c => Stage.addEventListener type c g) g cs
  = Stage.mkLayerGroup (<[type := registered ++ cs]> (Stage.listeners g))
      (Stage.content g).
Proof.
  revert g registered. induction cs as [| c cs IH]; intros g registered Hreg.
  - cbn [foldl]. rewrite app_nil_r, insert_id by done. by rewrite layerGroup_eta.
  - cbn [foldl]. unfold Stage.addEventListener at 2. rewrite Hreg.
    cbn [from_option]. unfold id.
    rewrite (IH _ (registered ++ [c])).
    2: { cbn. apply lookup_insert_eq. }
    cbn [Stage.listeners Stage.content].
    by rewrite insert_insert_eq, <- app_assoc.
Qed.

(** On a layer group without listeners of the type, likewise. *)
Lemma add_all_first (type : string) (cs : list (Stage.Closure D E)) g :
  Stage.listeners g !! type = None -> cs <> [] ->
  foldl (fun g c => Stage.addEventListener type c g) g cs
  = Stage.mkLayerGroup (<[type := cs]> (Stage.listeners g)) (Stage.content g).
Proof.
  intros Hnone Hcs. destruct cs as [| c cs]; [done |].
  cbn [foldl]. unfold Stage.addEventListener at 2. rewrite Hnone.
  cbn [from_option app].
  rewrite (add_all type cs [c]).
  2: { cbn. apply lookup_insert_eq. }
  cbn [Stage.listeners Stage.content]. by rewrite insert_insert_eq.
Qed.

End ListenerFacts.

(** ** A wired stage *)

Section WiredFacts.

Context {D E : Type}.
Variable typeOf : E -> string.
Variable b : Stage.Binder D E.
Implicit Types (s : Stage.t D E) (c : Stage.Closure D E).

Lemma stage_eta s groups :
  Stage.mk groups (Stage.binders s) (Stage.callbackStore s) (Stage.nextRef s)
  = Stage.setLayerGroups groups s.
Proof. reflexivity. Qed.

Lemma stored_determines (f : nat -> option (Stage.Closure D E))
    (cs : list (Stage.Closure D E)) (ks : list nat) :
  Forall2 (fun c k => f k = Some c) cs ks -> omap f ks = cs.
Proof.
  induction 1 as [| c k cs ks Hk _ IH]; [done |].
  cbn. rewrite Hk. by rewrite IH.
Qed.

Lemma storedClosure_same_store s s' k :
  Stage.callbackStore s' = Stage.callbackStore s ->
  storedClosure b k s' = storedClosure b k s.
Proof. unfold storedClosure. by intros ->. Qed.

Lemma stocked_loop
    (op : string -> Stage.Closure D E -> Stage.LayerGroup D E -> Stage.LayerGroup D E)
    (index : nat) s :
  (forall k, k < length (Stage.layerGroups s) -> is_Some (storedClosure b k s)) ->
  index < length (Stage.layerGroups s) ->
  forEach (eachPeer op index b) (seq 0 (length (Stage.layerGroups s))) s
  = (Normal tt,
     Stage.setLayerGroups
       (alter (fun g => foldl (fun g c => op (Stage.getEventType b) c g) g
                          (peerClosures b s index))
          index (Stage.layerGroups s))
       s).
Proof.
  intros Hstocked Hindex.
  assert (Hstore : is_Some (Stage.callbackStore s)).
  { destruct (Hstocked index Hindex) as [c Hc]. unfold storedClosure in Hc.
    destruct (Stage.callbackStore s); [done | discriminate]. }
  destruct (eachPeer_loop b op index (seq 0 (length (Stage.layerGroups s))) s
              Hstore Hindex)
    as (s' & cs & Hloop & _ & Hbinders & Hgroups & Hcs & _ & _ & Hhit).
  destruct Hhit as [Hcb Hnext].
  { intros k Hk _. apply Hstocked. apply elem_of_seq in Hk. lia. }
  rewrite Hloop. f_equal.
  assert (Hcs' : cs = peerClosures b s index).
  { symmetry. apply stored_determines.
    eapply Forall2_impl; [exact Hcs |]. intros c k Hk.
    by rewrite <- (storedClosure_same_store s s' k Hcb). }
  rewrite <- Hcs', <- Hgroups.
  destruct s', s; cbn in *. by subst.
Qed.

Lemma addEventListeners_loop (index : nat) s :
  Stage.addEventListeners index b s
  = forEach (eachPeer Stage.addEventListener index b)
      (seq 0 (length (Stage.layerGroups s))) s.
Proof. reflexivity. Qed.

Lemma removeEventListeners_loop (index : nat) s :
  Stage.removeEventListeners index b s
  = forEach (eachPeer Stage.removeEventListener index b)
      (seq 0 (length (Stage.layerGroups s))) s.
Proof. reflexivity. Qed.

Lemma alter_lookup {A : Type} (f : A -> A) (i : nat) (l : list A) (x : A) :
  l !! i = Some x -> alter f i l = <[i := f x]> l.
Proof.
  intros Hx. rewrite list_insert_alter. apply list_alter_ext; [| done].
  intros y Hy. congruence.
Qed.

(** An event fired on a layer group that has no listener of its type goes
    nowhere. *)
Lemma echoes_swallowed (fuel p : nat) (echoes : list E) s
    (g : Stage.LayerGroup D E) :
  Stage.layerGroups s !! p = Some g ->
  Stage.listeners g !! Stage.getEventType b = Some [] ->
  Forall (fun echo => typeOf echo = Stage.getEventType b) echoes ->
  Stage.forEachRun (Stage.fireEvent typeOf (S fuel) p) echoes s
  = Some (Normal tt, s).
Proof.
  intros Hg Hnone Hechoes.
  induction Hechoes as [| echo echoes Htype _ IH]; [reflexivity |].
  cbn [Stage.forEachRun]. unfold Stage.andThen.
  cbn [Stage.fireEvent]. rewrite Hg, Htype, Hnone. cbn. exact IH.
Qed.

End WiredFacts.

Section DispatchFacts.

Context {D E : Type}.
Variable typeOf : E -> string.
Variable b : Stage.Binder D E.
Hypothesis b_echoes : echoesOwnType typeOf b.
Implicit Types (s : Stage.t D E) (c : Stage.Closure D E).

(** Calling, on a wired stage, the function object stored for the layer
    group [p]: the listeners of [p] for the binder are removed, the binder is
    applied to [p], the events that [p] then fires find no listener, and the
    listeners are registered again. What remains is the change of [p]. *)
Lemma callClosure_wired (fuel p : nat) c (event : E) s :
  wired b s ->
  p < length (Stage.layerGroups s) ->
  storedClosure b p s = Some c ->
  Stage.callClosure (Stage.fireEvent typeOf (S fuel)) c event s
  = Some (Normal tt,
          Stage.setLayerGroups
            (alter (changeContent b event) p (Stage.layerGroups s)) s).
Proof.
  intros [Hstock Hlisten] Hp Hc.
  destruct (Hstock p Hp) as (c' & Hc' & Hbinder & Hindex).
  assert (c' = c) by congruence. subst c'.
  destruct (lookup_lt_is_Some_2 _ _ Hp) as [g Hg].
  specialize (Hlisten p g Hg).
  set (cs := peerClosures b s p) in *.
  set (g1 := Stage.mkLayerGroup
               (<[Stage.getEventType b := []]> (Stage.listeners g))
               (Stage.content g)).
  set (s1 := Stage.setLayerGroups (<[p := g1]> (Stage.layerGroups s)) s).
  set (g2 := Stage.mkLayerGroup
               (<[Stage.getEventType b := []]> (Stage.listeners g))
               (fst (Stage.getCallback b (Stage.content g) event))).
  set (s2 := Stage.setLayerGroups (<[p := g2]> (Stage.layerGroups s)) s).
  assert (Hstocked : forall k, k < length (Stage.layerGroups s) ->
                               is_Some (storedClosure b k s)).
  { intros k Hk. destruct (Hstock k Hk) as (ck & Hck & _). by exists ck. }
  assert (Hremove : Stage.removeEventListeners p b s = (Normal tt, s1)).
  { rewrite removeEventListeners_loop, stocked_loop by done.
    rewrite (alter_lookup _ _ _ g Hg). fold cs.
    by rewrite (remove_all_registered _ cs g Hlisten). }
  assert (Happly : Stage.applyBinder (Stage.fireEvent typeOf (S fuel)) b p event s1
                   = Some (Normal tt, s2)).
  { unfold Stage.applyBinder. subst s1. cbn [Stage.layerGroups Stage.setLayerGroups].
    rewrite list_lookup_insert_eq by done. cbn [Stage.listeners Stage.content g1].
    rewrite list_insert_insert_eq.
    apply (echoes_swallowed typeOf b fuel p _ s2 g2).
    - subst s2. cbn. by rewrite list_lookup_insert_eq.
    - subst g2. cbn. apply lookup_insert_eq.
    - apply b_echoes. }
  assert (Hadd : Stage.addEventListeners p b s2
                 = (Normal tt,
                    Stage.setLayerGroups
                      (alter (changeContent b event) p (Stage.layerGroups s)) s)).
  { rewrite addEventListeners_loop, stocked_loop.
    - assert (Hcs : peerClosures b s2 p = cs).
      { subst cs s2. unfold peerClosures.
        cbn [Stage.layerGroups Stage.setLayerGroups]. by rewrite length_insert. }
      rewrite Hcs. subst s2. cbn [Stage.layerGroups Stage.setLayerGroups].
      rewrite (alter_lookup _ _ _ g2) by (by rewrite list_lookup_insert_eq).
      rewrite list_insert_insert_eq.
      rewrite (add_all _ cs [] g2) by (subst g2; cbn; apply lookup_insert_eq).
      rewrite (alter_lookup _ _ _ g Hg). subst g2.
      cbn [Stage.listeners Stage.content app]. rewrite insert_insert_eq.
      rewrite insert_id by done. reflexivity.
    - intros k Hk. subst s2. cbn in Hk. rewrite length_insert in Hk.
      by apply Hstocked.
    - subst s2. cbn. by rewrite length_insert. }
  unfold Stage.callClosure, Stage.andThen, Stage.lift.
  rewrite Hbinder, Hindex, Hremove, Happly. by rewrite Hadd.
Qed.

Lemma wired_changeContent (event : E) (k : nat) s :
  wired b s ->
  wired b (Stage.setLayerGroups
             (alter (changeContent b event) k (Stage.layerGroups s)) s).
Proof.
  intros [Hstock Hlisten]. split.
  - intros j Hj. cbn in Hj. rewrite length_alter in Hj. by apply Hstock.
  - intros i g' Hg'. cbn [Stage.layerGroups Stage.setLayerGroups] in Hg'.
    assert (Hcs : peerClosures b
                    (Stage.setLayerGroups
                       (alter (changeContent b event) k (Stage.layerGroups s)) s) i
                  = peerClosures b s i).
    { unfold peerClosures. cbn [Stage.layerGroups Stage.setLayerGroups].
      by rewrite length_alter. }
    rewrite Hcs. rewrite list_lookup_alter in Hg'.
    destruct (decide (k = i)) as [-> | Hne].
    + destruct (Stage.layerGroups s !! i) as [g |] eqn:Hg; [| discriminate].
      injection Hg' as <-. cbn. by apply Hlisten.
    + by apply Hlisten.
Qed.

Lemma run_closures (fuel : nat) (event : E) (ks : list nat) s :
  wired b s ->
  Forall (fun k => k < length (Stage.layerGroups s)) ks ->
  Stage.forEachRun
    (fun cb => Stage.callClosure (Stage.fireEvent typeOf (S fuel)) cb event)
    (omap (fun k => storedClosure b k s) ks) s
  = Some (Normal tt,
          Stage.setLayerGroups (syncPeers b event ks (Stage.layerGroups s)) s).
Proof.
  revert s. induction ks as [| k ks IH]; intros s Hwired Hks.
  - cbn. by destruct s.
  - apply Forall_cons in Hks as [Hk Hks].
    destruct (proj1 Hwired k Hk) as (c & Hc & _).
    cbn [omap list_omap]. rewrite Hc. cbn [Stage.forEachRun].
    unfold Stage.andThen at 1.
    rewrite (callClosure_wired fuel k c event s Hwired Hk Hc).
    set (s1 := Stage.setLayerGroups
                 (alter (changeContent b event) k (Stage.layerGroups s)) s).
    change (omap (fun k0 => storedClosure b k0 s) ks)
      with (omap (fun k0 => storedClosure b k0 s1) ks).
    rewrite IH.
    + reflexivity.
    + by apply wired_changeContent.
    + subst s1. cbn. by rewrite length_alter.
Qed.

(** A layer group of a wired stage fires an event of the binder's type: the
    binder is applied once to each peer, in order, and nothing else of the
    stage changes. *)
Lemma fireEvent_wired (fuel index : nat) (event : E) s :
  wired b s ->
  index < length (Stage.layerGroups s) ->
  typeOf event = Stage.getEventType b ->
  Stage.fireEvent typeOf (S (S fuel)) index event s
  = Some (Normal tt,
          Stage.setLayerGroups
            (syncPeers b event (peers (length (Stage.layerGroups s)) index)
               (Stage.layerGroups s))
            s).
Proof.
  intros Hwired Hindex Htype.
  destruct (lookup_lt_is_Some_2 _ _ Hindex) as [g Hg].
  cbn [Stage.fireEvent]. rewrite Hg, Htype, (proj2 Hwired index g Hg).
  cbn [from_option]. unfold id, peerClosures.
  apply run_closures; [done |].
  apply Forall_forall. intros k Hk. unfold peers in Hk.
  apply list_elem_of_filter in Hk as [_ Hk]. apply elem_of_seq in Hk. lia.
Qed.

End DispatchFacts.

Lemma syncPeers_lookup {D E : Type} (b : Stage.Binder D E) (event : E)
    (ks : list nat) (groups : list (Stage.LayerGroup D E)) (p : nat) :
  NoDup ks ->
  syncPeers b event ks groups !! p
  = (if decide (p ∈ ks) then changeContent b event <$> groups !! p
     else groups !! p).
Proof.
  revert groups. induction ks as [| k ks IH]; intros groups Hnodup.
  - cbn. rewrite decide_False by apply not_elem_of_nil. done.
  - apply NoDup_cons in Hnodup as [Hfresh Hnodup].
    change (syncPeers b event ks (alter (changeContent b event) k groups) !! p
            = (if decide (p ∈ k :: ks)
               then changeContent b event <$> groups !! p
               else groups !! p)).
    rewrite IH by done. rewrite list_lookup_alter.
    destruct (decide (k = p)) as [-> | Hne].
    + rewrite decide_False by done. rewrite decide_True by left. done.
    + destruct (decide (p ∈ ks)) as [Hin | Hout].
      * rewrite decide_True by (by right). done.
      * rewrite decide_False; [done |].
        intros Hp. apply elem_of_cons in Hp as [-> | Hp]; done.
Qed.

Lemma peers_NoDup (n index : nat) : NoDup (peers n index).
Proof. unfold peers. apply NoDup_filter, NoDup_seq. Qed.

Lemma elem_of_peers (n index k : nat) : k ∈ peers n index <-> k < n /\ k <> index.
Proof.
  unfold peers. rewrite list_elem_of_filter, elem_of_seq. lia.
Qed.

(** ** Binding wires the stage *)

Section BindFacts.

Context {D E : Type}.
Variable b : Stage.Binder D E.
Implicit Types (s : Stage.t D E) (c : Stage.Closure D E).

Lemma peers_nonempty (n index : nat) : 2 <= n -> peers n index <> [].
Proof.
  intros Hn Hnil.
  assert (Hin : (if decide (index = 0) then 1 else 0) ∈ peers n index).
  { apply elem_of_peers. destruct (decide (index = 0)); lia. }
  rewrite Hnil in Hin. by apply not_elem_of_nil in Hin.
Qed.

Lemma content_foldl_add (type : string) (cs : list (Stage.Closure D E))
    (g : Stage.LayerGroup D E) :
  Stage.content (foldl (fun g c => Stage.addEventListener type c g) g cs)
  = Stage.content g.
Proof.
  revert g. induction cs as [| c cs IH]; intros g; [done |].
  cbn [foldl]. by rewrite IH.
Qed.

(** One turn of the loop of [bindLayerGroups] over the layer groups. *)
Lemma wiredBelow_step (done : nat) s :
  2 <= length (Stage.layerGroups s) ->
  done < length (Stage.layerGroups s) ->
  wiredBelow b done s ->
  exists s',
    Stage.addEventListeners done b s = (Normal tt, s')
    /\ wiredBelow b (S done) s'
    /\ length (Stage.layerGroups s') = length (Stage.layerGroups s)
    /\ contents s' = contents s
    /\ Stage.binders s' = Stage.binders s.
Proof.
  intros Hn Hdone (Hstore & Hsound & Hbelow & Habove).
  destruct (eachPeer_loop b Stage.addEventListener done
              (seq 0 (length (Stage.layerGroups s))) s Hstore Hdone)
    as (s' & cs & Hloop & Hstore' & Hbinders & Hgroups & Hcs & Hmono & Hsound' & _).
  fold (peers (length (Stage.layerGroups s)) done) in Hcs.
  assert (Hlen : length (Stage.layerGroups s') = length (Stage.layerGroups s)).
  { by rewrite Hgroups, length_alter. }
  exists s'. split; [by rewrite addEventListeners_loop |].
  split; [| split; [exact Hlen | split; [| exact Hbinders]]].
  - split; [exact Hstore' |]. split; [by apply Hsound' |]. rewrite Hlen. split.
    + intros j g' Hj Hg'. rewrite Hgroups, list_lookup_alter in Hg'.
      destruct (decide (done = j)) as [<- | Hne].
      * destruct (Stage.layerGroups s !! done) as [g |] eqn:Hg; [| discriminate].
        injection Hg' as <-. exists cs. split; [| exact Hcs].
        rewrite add_all_first.
        -- cbn. apply lookup_insert_eq.
        -- by apply (Habove done).
        -- intros ->. apply Forall2_length in Hcs. symmetry in Hcs.
           apply length_zero_iff_nil in Hcs. by apply peers_nonempty in Hcs.
      * destruct (Hbelow j g' ltac:(lia) Hg') as (cs' & Hreg & Hcs').
        exists cs'. split; [exact Hreg |].
        eapply Forall2_impl; [exact Hcs' |]. intros c k Hk. by apply Hmono.
    + intros j g' Hj Hg'. rewrite Hgroups, list_lookup_alter_ne in Hg' by lia.
      apply (Habove j g'); [lia | done].
  - unfold contents. rewrite Hgroups.
    rewrite (list_fmap_alter _ _ id).
    + by apply list_alter_id.
    + apply Forall_forall. intros g _. apply content_foldl_add.
Qed.

Lemma wiredBelow_all s :
  2 <= length (Stage.layerGroups s) ->
  wiredBelow b (length (Stage.layerGroups s)) s -> wired b s.
Proof.
  intros Hn (Hstore & Hsound & Hbelow & _).
  set (n := length (Stage.layerGroups s)) in *.
  assert (Hreg : forall j, j < n ->
            Forall2 (fun c k => storedClosure b k s = Some c)
              (peerClosures b s j) (peers n j)
            /\ forall g, Stage.layerGroups s !! j = Some g ->
                 Stage.listeners g !! Stage.getEventType b
                 = Some (peerClosures b s j)).
  { intros j Hj. destruct (lookup_lt_is_Some_2 _ _ Hj) as [g Hg].
    destruct (Hbelow j g Hj Hg) as (cs & Hcs & Hall).
    assert (Heq : peerClosures b s j = cs) by (by apply stored_determines).
    rewrite Heq. split; [exact Hall |]. intros g' Hg'. congruence. }
  split.
  - intros k Hk.
    assert (Hsome : is_Some (storedClosure b k s)).
    { destruct (decide (k = 0)) as [-> | Hne].
      - destruct (Hreg 1 ltac:(lia)) as [Hall _].
        assert (Hin : 0 ∈ peers n 1) by (apply elem_of_peers; lia).
        apply list_elem_of_lookup in Hin as [i Hi].
        destruct (Forall2_lookup_r _ _ _ _ _ Hall Hi) as (c & _ & Hc). by exists c.
      - destruct (Hreg 0 ltac:(lia)) as [Hall _].
        assert (Hin : k ∈ peers n 0) by (apply elem_of_peers; lia).
        apply list_elem_of_lookup in Hin as [i Hi].
        destruct (Forall2_lookup_r _ _ _ _ _ Hall Hi) as (c & _ & Hc). by exists c. }
    destruct Hsome as [c Hc]. exists c. split; [exact Hc |]. by apply Hsound.
  - intros i g Hg. apply (Hreg i); [| done].
    apply lookup_lt_is_Some_1. by exists g.
Qed.

End BindFacts.

Lemma forEach_normal {S A : Type} (P : S -> Prop) (body : A -> M S unit)
    (l : list A) (s : S) :
  (forall x s, x ∈ l -> P s -> exists s', body x s = (Normal tt, s') /\ P s') ->
  P s ->
  exists s', forEach body l s = (Normal tt, s') /\ P s'.
Proof.
  revert s. induction l as [| x l IH]; intros s Hbody Hs.
  - by exists s.
  - destruct (Hbody x s ltac:(left) Hs) as (s1 & Hx & Hs1).
    destruct (IH s1) as (s' & Hl & Hs'); [| exact Hs1 |].
    { intros y s2 Hy. apply Hbody. by right. }
    exists s'. split; [| exact Hs']. cbn [forEach]. unfold bind. by rewrite Hx.
Qed.


(** ** Other binders do not disturb the wiring of a binder *)

Section ForeignFacts.

Context {D E : Type}.
Variables b b' : Stage.Binder D E.
Hypothesis b'_foreign : foreign b b'.
Implicit Types (s : Stage.t D E).

Lemma find_app_foreign (objs : list (Stage.BinderObj D E))
    (obj : Stage.BinderObj D E) :
  Stage.sameBinder b obj = false ->
  find (Stage.sameBinder b) (objs ++ [obj]) = find (Stage.sameBinder b) objs.
Proof.
  intros Hother. induction objs as [| o objs IH]; cbn.
  - by rewrite Hother.
  - by destruct (Stage.sameBinder b o).
Qed.

Lemma getBinderCallback_foreign (k : nat) s :
  is_Some (Stage.callbackStore s) ->
  exists c s',
    Stage.getBinderCallback b' k s = (Normal c, s')
    /\ Stage.layerGroups s' = Stage.layerGroups s
    /\ Stage.binders s' = Stage.binders s
    /\ is_Some (Stage.callbackStore s')
    /\ (forall k0, storedClosure b k0 s' = storedClosure b k0 s).
Proof.
  intros Hstore.
  destruct (storedClosure b' k s) as [c |] eqn:Hstored.
  - exists c, s. by rewrite (getBinderCallback_hit b' k s c Hstored).
  - destruct Hstore as [store Hstore].
    unfold storedClosure, Stage.getBinderCallback, bind, get in *.
    destruct s as [groups bs store0 next]; cbn in *. subst store0. cbn in *.
    assert (Hfind : find (Stage.sameBinder b')
                      (default []
                         (Stage.arrayGet k
                            match Stage.arrayGet k store with
                            | Some _ => store
                            | None => Stage.arraySet k [] store
                            end)) = None).
    { destruct (Stage.arrayGet k store) as [objs |] eqn:Hget; cbn in *.
      - rewrite Hget. cbn. by destruct (find (Stage.sameBinder b') objs).
      - by rewrite arrayGet_arraySet_eq. }
    rewrite Hfind. cbn. eexists _, _. split; [reflexivity |]. cbn.
    split; [reflexivity |]. split; [reflexivity |]. split; [by eexists |].
    intros k0. destruct (decide (k0 = k)) as [-> | Hne].
    + rewrite arrayGet_arraySet_eq. cbn. rewrite find_app_foreign.
      * destruct (Stage.arrayGet k store) as [objs |] eqn:Hget; cbn.
        -- by rewrite Hget.
        -- by rewrite arrayGet_arraySet_eq.
      * unfold Stage.sameBinder. cbn. apply Nat.eqb_neq, b'_foreign.
    + rewrite arrayGet_arraySet_ne by done.
      destruct (Stage.arrayGet k store); [reflexivity |].
      by rewrite arrayGet_arraySet_ne.
Qed.

Lemma facet_addEventListener (c : Stage.Closure D E) (g : Stage.LayerGroup D E) :
  facet b (Stage.addEventListener (Stage.getEventType b') c g) = facet b g.
Proof.
  unfold facet, Stage.addEventListener. cbn. f_equal.
  apply lookup_insert_ne, b'_foreign.
Qed.

Lemma sameFor_refl s : sameFor b s s.
Proof. by repeat split. Qed.

Lemma sameFor_trans s1 s2 s3 : sameFor b s1 s2 -> sameFor b s2 s3 -> sameFor b s1 s3.
Proof.
  intros (Hst & Hb & Hc & Hf) (Hst' & Hb' & Hc' & Hf'). split; [tauto |].
  split; [congruence |]. split; [| congruence].
  intros k. by rewrite Hc', Hc.
Qed.

(** One turn of the loop of [addEventListeners] for the other binder. *)
Lemma eachPeer_foreign (index i : nat) s :
  is_Some (Stage.callbackStore s) ->
  index < length (Stage.layerGroups s) ->
  exists s',
    eachPeer Stage.addEventListener index b' i s = (Normal tt, s')
    /\ is_Some (Stage.callbackStore s')
    /\ length (Stage.layerGroups s') = length (Stage.layerGroups s)
    /\ sameFor b s s'.
Proof.
  intros Hstore Hindex. unfold eachPeer.
  destruct (decide (i <> index)) as [Hpeer | Hself].
  - unfold bind at 1, get.
    destruct (lookup_lt_is_Some_2 _ _ Hindex) as [g Hg]. rewrite Hg.
    destruct (getBinderCallback_foreign i s Hstore)
      as (c & s1 & Hrun & Hgroups & Hbinders & Hstore1 & Hframe).
    unfold bind. rewrite Hrun. unfold modify. eexists. split; [reflexivity |].
    cbn [Stage.callbackStore Stage.setLayerGroups Stage.layerGroups].
    split; [exact Hstore1 |]. split; [by rewrite length_alter, Hgroups |].
    split; [done |]. split; [exact Hbinders |]. split; [exact Hframe |].
    cbn [Stage.layerGroups Stage.setLayerGroups]. rewrite Hgroups.
    rewrite (list_fmap_alter _ _ id).
    + by apply list_alter_id.
    + apply Forall_forall. intros g0 _. apply facet_addEventListener.
  - exists s. split; [reflexivity |]. split; [exact Hstore |].
    split; [reflexivity | apply sameFor_refl].
Qed.

Lemma addEventListeners_foreign (index : nat) s :
  is_Some (Stage.callbackStore s) ->
  index < length (Stage.layerGroups s) ->
  exists s',
    Stage.addEventListeners index b' s = (Normal tt, s')
    /\ is_Some (Stage.callbackStore s')
    /\ length (Stage.layerGroups s') = length (Stage.layerGroups s)
    /\ sameFor b s s'.
Proof.
  intros Hstore Hindex.
  destruct (forEach_normal
              (fun s' => is_Some (Stage.callbackStore s')
                         /\ length (Stage.layerGroups s')
                            = length (Stage.layerGroups s)
                         /\ sameFor b s s')
              (eachPeer Stage.addEventListener index b')
              (seq 0 (length (Stage.layerGroups s))) s)
    as (s' & Hloop & Hs').
  - intros i s1 _ (Hstore1 & Hlen1 & Hsame1).
    destruct (eachPeer_foreign index i s1 Hstore1) as (s2 & Hrun & Hstore2 & Hlen2 & Hsame2);
      [lia |].
    exists s2. split; [exact Hrun |]. split; [exact Hstore2 |].
    split; [congruence |]. by apply (sameFor_trans s s1 s2).
  - split; [exact Hstore |]. split; [reflexivity | apply sameFor_refl].
  - exists s'. by rewrite addEventListeners_loop.
Qed.

End ForeignFacts.

(** ** Binding with several binders *)

Section BindManyFacts.

Context {D E : Type}.
Variable b : Stage.Binder D E.
Implicit Types (s : Stage.t D E).

Lemma contents_facet s s' :
  facet b <$> Stage.layerGroups s' = facet b <$> Stage.layerGroups s ->
  contents s' = contents s.
Proof.
  intros Hfacet. unfold contents.
  assert (Hsnd : forall l : list (Stage.LayerGroup D E),
            Stage.content <$> l = snd <$> (facet b <$> l)).
  { intros l. rewrite <- list_fmap_compose. by apply list_fmap_ext. }
  by rewrite !Hsnd, Hfacet.
Qed.

Lemma facet_lookup s s' (j : nat) (g' : Stage.LayerGroup D E) :
  facet b <$> Stage.layerGroups s' = facet b <$> Stage.layerGroups s ->
  Stage.layerGroups s' !! j = Some g' ->
  exists g, Stage.layerGroups s !! j = Some g /\ facet b g = facet b g'.
Proof.
  intros Hfacet Hg'.
  assert (Hj : (facet b <$> Stage.layerGroups s) !! j = Some (facet b g')).
  { by rewrite <- Hfacet, list_lookup_fmap, Hg'. }
  rewrite list_lookup_fmap in Hj.
  destruct (Stage.layerGroups s !! j) as [g |]; [| discriminate].
  cbn in Hj. exists g. split; [reflexivity | congruence].
Qed.

Lemma wiredBelow_sameFor (done : nat) s s' :
  length (Stage.layerGroups s') = length (Stage.layerGroups s) ->
  sameFor b s s' -> wiredBelow b done s -> wiredBelow b done s'.
Proof.
  intros Hlen (Hstore & _ & Hstored & Hfacet) (Hs & Hsound & Hbelow & Habove).
  split; [by apply Hstore |]. split.
  { intros k c Hc. rewrite Hstored in Hc. by apply Hsound. }
  rewrite Hlen. split.
  - intros j g' Hj Hg'.
    destruct (facet_lookup s s' j g' Hfacet Hg') as (g & Hg & Hsame).
    destruct (Hbelow j g Hj Hg) as (cs & Hcs & Hall).
    exists cs. split.
    + injection Hsame as Hlisten _. by rewrite <- Hlisten.
    + eapply Forall2_impl; [exact Hall |]. intros c k Hk. by rewrite Hstored.
  - intros j g' Hj Hg'.
    destruct (facet_lookup s s' j g' Hfacet Hg') as (g & Hg & Hsame).
    injection Hsame as Hlisten _. rewrite <- Hlisten. by apply (Habove j g).
Qed.

Lemma binding_foreign (n : nat) (groups : list D) (bs : list (Stage.Binder D E))
    (done index : nat) (b' : Stage.Binder D E) s :
  foreign b b' -> index < n ->
  binding b n groups bs done s ->
  exists s',
    Stage.addEventListeners index b' s = (Normal tt, s')
    /\ binding b n groups bs done s'.
Proof.
  intros Hforeign Hindex (Hwired & Hlen & Hcontents & Hbinders).
  destruct (addEventListeners_foreign b b' Hforeign index s)
    as (s' & Hrun & _ & Hlen' & Hsame); [apply Hwired | lia |].
  exists s'. split; [exact Hrun |]. split; [by apply (wiredBelow_sameFor done s) |].
  split; [congruence |]. destruct Hsame as (_ & Hbs & _ & Hfacet).
  split; [| congruence]. by rewrite (contents_facet s s').
Qed.

Lemma binding_own (n : nat) (groups : list D) (bs : list (Stage.Binder D E))
    (done : nat) s :
  2 <= n -> done < n ->
  binding b n groups bs done s ->
  exists s',
    Stage.addEventListeners done b s = (Normal tt, s')
    /\ binding b n groups bs (S done) s'.
Proof.
  intros Hn Hdone (Hwired & Hlen & Hcontents & Hbinders).
  destruct (wiredBelow_step b done s) as (s' & Hrun & Hwired' & Hlen' & Hc' & Hb');
    [lia | lia | exact Hwired |].
  exists s'. split; [exact Hrun |]. split; [exact Hwired' |].
  split; [congruence |]. split; congruence.
Qed.

(** The binders of the stage: [b] once, among binders of other types. *)
Variables before after : list (Stage.Binder D E).
Hypothesis before_foreign : Forall (foreign b) before.
Hypothesis after_foreign : Forall (foreign b) after.

Lemma binding_group (n : nat) (groups : list D) (bs : list (Stage.Binder D E))
    (done : nat) s :
  2 <= n -> done < n ->
  binding b n groups bs done s ->
  exists s',
    forEach (fun b' => Stage.addEventListeners done b') (before ++ b :: after) s
    = (Normal tt, s')
    /\ binding b n groups bs (S done) s'.
Proof.
  intros Hn Hdone Hs.
  destruct (forEach_normal (binding b n groups bs done)
              (fun b' => Stage.addEventListeners done b') before s)
    as (s1 & Hbefore & Hs1); [| exact Hs |].
  { intros b' s0 Hb' Hs0. apply binding_foreign; [| done | done].
    by apply (proj1 (Forall_forall _ _) before_foreign). }
  destruct (binding_own n groups bs done s1 Hn Hdone Hs1) as (s2 & Hown & Hs2).
  destruct (forEach_normal (binding b n groups bs (S done))
              (fun b' => Stage.addEventListeners done b') after s2)
    as (s3 & Hafter & Hs3); [| exact Hs2 |].
  { intros b' s0 Hb' Hs0. apply binding_foreign; [| done | done].
    by apply (proj1 (Forall_forall _ _) after_foreign). }
  exists s3. split; [| exact Hs3].
  rewrite forEach_app. unfold bind at 1. rewrite Hbefore.
  cbn [forEach]. unfold bind at 1. by rewrite Hown.
Qed.

Lemma binding_loop (n : nat) (groups : list D) (bs : list (Stage.Binder D E))
    (todo done : nat) s :
  2 <= n -> done + todo = n ->
  binding b n groups bs done s ->
  exists s',
    forEach
      (fun i => forEach (fun b' => Stage.addEventListeners i b')
                  (before ++ b :: after))
      (seq done todo) s
    = (Normal tt, s')
    /\ binding b n groups bs n s'.
Proof.
  revert done s. induction todo as [| todo IH]; intros done s Hn Hsum Hs.
  - assert (Hdone : done = n) by lia. clear Hsum. subst done. exists s.
    split; [reflexivity | exact Hs].
  - destruct (binding_group n groups bs done s Hn ltac:(lia) Hs)
      as (s1 & Hgroup & Hs1).
    destruct (IH (S done) s1 Hn ltac:(lia) Hs1) as (s' & Hloop & Hs').
    exists s'. split; [| exact Hs'].
    cbn [seq forEach]. unfold bind at 1. by rewrite Hgroup.
Qed.

(** [bindLayerGroups] on a stage of at least two layer groups that have no
    listener for the type of [b] yet: the stage is wired for [b], and the
    layer groups hold what they held. *)
Lemma bindLayerGroups_wires s :
  Stage.binders s = before ++ b :: after ->
  2 <= length (Stage.layerGroups s) ->
  (forall j g, Stage.layerGroups s !! j = Some g ->
     Stage.listeners g !! Stage.getEventType b = None) ->
  exists s',
    Stage.bindLayerGroups s = (Normal tt, s')
    /\ wired b s'
    /\ contents s' = contents s
    /\ length (Stage.layerGroups s') = length (Stage.layerGroups s).
Proof.
  intros Hbinders Hn Hfresh.
  set (s0 := Stage.setCallbackStore
               (Some (replicate (length (Stage.layerGroups s)) None)) s).
  destruct (binding_loop (length (Stage.layerGroups s)) (contents s)
              (Stage.binders s) (length (Stage.layerGroups s)) 0 s0)
    as (s' & Hloop & Hwired & Hlen & Hcontents & _).
  { exact Hn. }
  { reflexivity. }
  { split; [| done]. split; [by eexists |]. split.
    - intros k c Hc. unfold storedClosure in Hc. cbn in Hc.
      unfold Stage.arrayGet in Hc.
      destruct (replicate (length (Stage.layerGroups s)) None !! k) as [slot |] eqn:Hslot;
        [| discriminate].
      apply lookup_replicate_1 in Hslot as [-> _]. discriminate.
    - split; [intros j g Hj; lia |]. intros j g _ Hg. by apply (Hfresh j g). }
  exists s'. split.
  - assert (Hunwired : Stage.unwired s = false).
    { unfold Stage.unwired. rewrite Hbinders, length_app. cbn [length].
      destruct (length (Stage.layerGroups s)) as [| [| n]]; [lia | lia |].
      cbn. apply Nat.eqb_neq. lia. }
    unfold Stage.bindLayerGroups, bind, get. rewrite Hunwired, Hbinders.
    exact Hloop.
  - split; [| split; [exact Hcontents | exact Hlen]].
    apply wiredBelow_all; rewrite Hlen; [exact Hn | exact Hwired].
Qed.

End BindManyFacts.

(** ** The window/level binder *)

Lemma setWindowLevel_fires_wlchange (center width : float)
    (name : option string) (silent : option bool) (w : View.World) :
  exists fired,
    View.fired (snd (View.setWindowLevel center width name silent w))
    = View.fired w ++ fired
    /\ Forall (fun e => eventType e = "wlchange") fired.
Proof.
  unfold View.setWindowLevel, bind, View.getView, modify, View.fireEvent, ret.
  destruct (PrimFloat.ltb width 1);
    [exists []; cbn; by rewrite app_nil_r |].
  cbn [fst snd].
  destruct (negb (WindowLevel.equals _ _));
    [| exists []; cbn; by rewrite app_nil_r].
  cbn [fst snd View.withView View.view View.fired].
  match goal with
  | |- context [if ?flag then _ else _] => destruct flag
  end; cbn [fst snd View.fired].
  - eexists [_]. split; [reflexivity |]. by repeat constructor.
  - exists []. split; [by rewrite app_nil_r | constructor].
Qed.

Lemma windowLevelBinder_echoesOwnType (ref : nat) :
  echoesOwnType layerEventType (WindowLevelBinder ref).
Proof.
  intros c event. cbn [WindowLevelBinder Stage.getCallback Stage.getEventType].
  unfold windowLevelCallback.
  destruct (viewEvent event) as [wc ww skip | | |]; try constructor.
  destruct (getViewLayersByDataIndex c (dataindex event)) as [| layer layers];
    [constructor |].
  cbn [snd]. unfold setLayerWindowLevel. cbn [snd].
  destruct (setWindowLevel_fires_wlchange wc ww None None
              (View.mkWorld (layerView layer) [])) as (fired & Hfired & Htypes).
  rewrite Hfired. cbn [View.fired app].
  apply Forall_fmap. eapply Forall_impl; [exact Htypes |]. by intros e He.
Qed.

Lemma listeners_syncPeers {D E : Type} (b : Stage.Binder D E) (event : E)
    (ks : list nat) (groups : list (Stage.LayerGroup D E)) :
  Stage.listeners <$> syncPeers b event ks groups = Stage.listeners <$> groups.
Proof.
  revert groups. induction ks as [| k ks IH]; intros groups; [done |].
  change (Stage.listeners <$>
            syncPeers b event ks (alter (changeContent b event) k groups)
          = Stage.listeners <$> groups).
  rewrite IH, (list_fmap_alter _ _ id).
  - by apply list_alter_id.
  - apply Forall_forall. by intros g _.
Qed.

Lemma contents_newStage {D E : Type} (groups : list D)
    (binders : list (Stage.Binder D E)) :
  contents (newStage groups binders) = groups.
Proof.
  unfold contents, newStage. cbn. rewrite <- list_fmap_compose.
  by apply list_fmap_id.
Qed.

Lemma windowLevelCallback_calls (c : GroupContent) (d : nat) (wc ww : float)
    (skip : bool) :
  windowLevelCalls
    (fst (windowLevelCallback c (mkLayerEvent d (WlChange wc ww skip))))
  = windowLevelCalls c ++ callsAdded c d wc ww.
Proof.
  unfold windowLevelCallback, callsAdded. cbn [viewEvent dataindex].
  destruct (getViewLayersByDataIndex c d); cbn; [by rewrite app_nil_r | done].
Qed.

(** C1, as stated, fails: with two bound layer groups of which the second
    shows another data, a wlchange fired on the first for its data reaches
    the callback of the second, which finds no view layer of that data and
    calls no window/level setter. *)
Lemma wlchange_skips_peer_without_data :
  let bound :=
    snd (Stage.bindLayerGroups
           (newStage [layerGroupOf 0; layerGroupOf 1] [WindowLevelBinder 0])) in
  exists after,
    Stage.fireEvent layerEventType 2 0
      (mkLayerEvent 0 (WlChange 40 400 false)) bound
    = Some (Normal tt, after)
    /\ windowLevelCalls <$> contents after = [[]; []].
Proof. cbv zeta. eexists. split; reflexivity. Qed.

(** C1, amended. At least two layer groups are bound with a window/level
    binder (alone, or among binders of other event types) and one of them,
    A, fires a wlchange event. The dispatch returns, whatever the number of
    peers. Every other layer group has received the binder's callback once:
    one call of the window/level setter, with the centre and width of the
    event, when it holds a view layer of the event's data, and none
    otherwise. A has received no call and holds what it held: the events
    that the peers fired while they were changed were forwarded to nobody,
    their listeners being removed for the time of the change. The listeners
    of every layer group and the callback store are afterwards what they
    were. *)
Theorem wlchange_applied_once_per_peer
    (groups : list GroupContent)
    (before after : list (Stage.Binder GroupContent LayerEvent))
    (ref A d : nat) (wc ww : float) (skip : bool) (fuel : nat) :
  let b := WindowLevelBinder ref in
  let event := mkLayerEvent d (WlChange wc ww skip) in
  Forall (foreign b) before -> Forall (foreign b) after ->
  2 <= length groups -> A < length groups -> 2 <= fuel ->
  exists bound synced,
    Stage.bindLayerGroups (newStage groups (before ++ b :: after))
    = (Normal tt, bound)
    /\ contents bound = groups
    /\ Stage.fireEvent layerEventType fuel A event bound = Some (Normal tt, synced)
    /\ Stage.listeners <$> Stage.layerGroups synced
       = Stage.listeners <$> Stage.layerGroups bound
    /\ Stage.callbackStore synced = Stage.callbackStore bound
    /\ contents synced !! A = groups !! A
    /\ (forall p c, p <> A -> groups !! p = Some c ->
        exists c',
          contents synced !! p = Some c'
          /\ windowLevelCalls c' = windowLevelCalls c ++ callsAdded c d wc ww).
Proof.
  intros b event Hbefore Hafter Hn HA Hfuel.
  destruct (bindLayerGroups_wires b before after Hbefore Hafter
              (newStage groups (before ++ b :: after)))
    as (bound & Hbind & Hwired & Hcontents & Hlen).
  { reflexivity. }
  { cbn. by rewrite length_fmap. }
  { intros j g Hg. cbn in Hg. rewrite list_lookup_fmap in Hg.
    destruct (groups !! j); [| discriminate]. injection Hg as <-.
    apply lookup_empty. }
  rewrite contents_newStage in Hcontents.
  assert (Hlen' : length (Stage.layerGroups bound) = length groups).
  { rewrite Hlen. cbn. by rewrite length_fmap. }
  destruct fuel as [| [| fuel]]; [lia | lia |].
  exists bound. eexists. split; [exact Hbind |]. split; [exact Hcontents |].
  split.
  { apply (fireEvent_wired layerEventType b
             (windowLevelBinder_echoesOwnType ref) fuel A event bound Hwired).
    - by rewrite Hlen'.
    - reflexivity. }
  split; [apply listeners_syncPeers |]. split; [reflexivity |].
  assert (Hlookup : forall p,
            contents
              (Stage.setLayerGroups
                 (syncPeers b event (peers (length (Stage.layerGroups bound)) A)
                    (Stage.layerGroups bound)) bound) !! p
            = if decide (p ∈ peers (length (Stage.layerGroups bound)) A)
              then (fun c => fst (windowLevelCallback c event)) <$> groups !! p
              else groups !! p).
  { intros p. unfold contents at 1.
    cbn [Stage.layerGroups Stage.setLayerGroups].
    rewrite list_lookup_fmap, syncPeers_lookup by apply peers_NoDup.
    rewrite <- Hcontents. unfold contents. rewrite list_lookup_fmap.
    destruct (decide (p ∈ peers (length (Stage.layerGroups bound)) A));
      [| reflexivity].
    by destruct (Stage.layerGroups bound !! p). }
  split.
  - rewrite Hlookup, decide_False; [done |].
    intros Hin. apply elem_of_peers in Hin. lia.
  - intros p c Hp Hc. rewrite Hlookup, decide_True.
    + rewrite Hc. eexists. split; [reflexivity |].
      apply windowLevelCallback_calls.
    + apply elem_of_peers. split; [| done].
      rewrite Hlen'. apply lookup_lt_is_Some_1. by exists c.
Qed.

Lemma wlchange_applied_once_per_peer_witness :
  exists bound after,
    Stage.bindLayerGroups
      (newStage [layerGroupOf 0; layerGroupOf 0; layerGroupOf 0]
         [WindowLevelBinder 0])
    = (Normal tt, bound)
    /\ Stage.fireEvent layerEventType 2 0
         (mkLayerEvent 0 (WlChange 40 400 false)) bound
       = Some (Normal tt, after)
    /\ windowLevelCalls <$> contents after
       = [[]; [(40%float, 400%float)]; [(40%float, 400%float)]].
Proof.
  destruct (wlchange_applied_once_per_peer
              [layerGroupOf 0; layerGroupOf 0; layerGroupOf 0] [] []
              0 0 0 40 400 false 2)
    as (bound & after & Hbind & _ & Hfire & _ & _ & HA & Hpeers);
    [constructor | constructor | cbn; lia | cbn; lia | lia |].
  exists bound, after. split; [exact Hbind |]. split; [exact Hfire |].
  destruct (Hpeers 1 (layerGroupOf 0)) as (c1 & Hc1 & Hcalls1); [lia | done |].
  destruct (Hpeers 2 (layerGroupOf 0)) as (c2 & Hc2 & Hcalls2); [lia | done |].
  assert (Hthree : length (contents after) = 3).
  { vm_compute in Hbind. injection Hbind as <-.
    vm_compute in Hfire. injection Hfire as <-. reflexivity. }
  destruct (contents after) as [| c0 [| c1' [| c2' [| ? ?]]]]; try discriminate.
  cbn in HA, Hc1, Hc2. injection HA as ->. injection Hc1 as ->.
  injection Hc2 as ->. cbn. by rewrite Hcalls1, Hcalls2.
Defined.

(** The peer does fire while it is changed: the callback applied to a layer
    group whose view has no level yet yields the wlchange of that view. *)
Example peer_fires_while_changed :
  snd (windowLevelCallback (layerGroupOf 0)
         (mkLayerEvent 0 (WlChange 40 400 false)))
  = [mkLayerEvent 0 (WlChange 40 400 false)].
Proof. reflexivity. Qed.

(** ** Memoised callbacks *)

Section MemoFacts.

Context {D E : Type}.
Implicit Types (b : Stage.Binder D E) (s : Stage.t D E).

Lemma removeEventListeners_wired b (p : nat) (g : Stage.LayerGroup D E) s :
  wired b s ->
  Stage.layerGroups s !! p = Some g ->
  Stage.removeEventListeners p b s
  = (Normal tt,
     Stage.setLayerGroups
       (<[p := Stage.mkLayerGroup
                 (<[Stage.getEventType b := []]> (Stage.listeners g))
                 (Stage.content g)]> (Stage.layerGroups s))
       s).
Proof.
  intros [Hstock Hlisten] Hg.
  assert (Hp : p < length (Stage.layerGroups s)).
  { apply lookup_lt_is_Some_1. by exists g. }
  rewrite removeEventListeners_loop, stocked_loop; [| | exact Hp].
  - rewrite (alter_lookup _ _ _ g Hg).
    by rewrite (remove_all_registered _ _ g (Hlisten p g Hg)).
  - intros k Hk. destruct (Hstock k Hk) as (c & Hc & _). by exists c.
Qed.

Lemma removeEventListeners_normal b (index n : nat) s :
  index < n ->
  is_Some (Stage.callbackStore s) /\ length (Stage.layerGroups s) = n ->
  exists s',
    Stage.removeEventListeners index b s = (Normal tt, s')
    /\ is_Some (Stage.callbackStore s') /\ length (Stage.layerGroups s') = n.
Proof.
  intros Hindex [Hstore Hn].
  destruct (eachPeer_loop b Stage.removeEventListener index
              (seq 0 (length (Stage.layerGroups s))) s Hstore)
    as (s' & cs & Hloop & Hstore' & _ & Hgroups & _); [lia |].
  exists s'. rewrite removeEventListeners_loop. split; [exact Hloop |].
  split; [exact Hstore' |]. by rewrite Hgroups, length_alter.
Qed.

Lemma unbindLayerGroups_clears s :
  Stage.unwired s = false ->
  is_Some (Stage.callbackStore s) ->
  exists s',
    Stage.unbindLayerGroups s = (Normal tt, s')
    /\ Stage.callbackStore s' = None.
Proof.
  intros Hunwired Hstore.
  set (P := fun s' : Stage.t D E =>
              is_Some (Stage.callbackStore s')
              /\ length (Stage.layerGroups s') = length (Stage.layerGroups s)).
  destruct (forEach_normal P
              (fun i => forEach (fun b => Stage.removeEventListeners i b)
                          (Stage.binders s))
              (seq 0 (length (Stage.layerGroups s))) s)
    as (s1 & Hloops & _).
  - intros i s1 Hi Hs1. apply elem_of_seq in Hi.
    apply (forEach_normal P); [| exact Hs1].
    intros b s2 _ Hs2. apply removeEventListeners_normal; [lia | exact Hs2].
  - by split.
  - exists (Stage.setCallbackStore None s1). split; [| reflexivity].
    unfold Stage.unbindLayerGroups, bind at 1, get. rewrite Hunwired.
    destruct Hstore as [store ->]. cbn [orb]. unfold bind. by rewrite Hloops.
Qed.

End MemoFacts.

(** C10, as stated, fails: [unbindLayerGroups] clears the callback store and
    the next [bindLayerGroups] creates function objects anew, so the
    reference held for a binder and a peer after a bind/unbind cycle is not
    the one held before. *)
Lemma rebinding_creates_new_callbacks :
  let b := WindowLevelBinder 0 in
  let first :=
    snd (Stage.bindLayerGroups
           (newStage [layerGroupOf 0; layerGroupOf 0] [b])) in
  let unbound := snd (Stage.unbindLayerGroups first) in
  let second := snd (Stage.bindLayerGroups unbound) in
  exists c1 c2,
    storedClosure b 1 first = Some c1
    /\ Stage.callbackStore unbound = None
    /\ storedClosure b 1 second = Some c2
    /\ Stage.closureRef c1 <> Stage.closureRef c2.
Proof.
  cbv zeta. eexists _, _.
  split; [reflexivity |]. split; [reflexivity |]. split; [reflexivity |].
  vm_compute. discriminate.
Qed.

(** C10, amended. While the callback store lives, the callback of a binder
    for a peer is memoised: the first request for the pair yields a function
    object, and every later request yields the same one and leaves the
    stage as it is, also after requests for other peers. On a wired stage
    this makes the removal exact: [removeEventListeners] leaves the layer
    group without listener for the binder's type, and the store as it was.
    The store lives from [bindLayerGroups] to [unbindLayerGroups], which
    clears it: no callback is stored afterwards. *)
Theorem callback_memoized_while_store_lives {D E : Type}
    (b : Stage.Binder D E) (s : Stage.t D E) :
  is_Some (Stage.callbackStore s) ->
  (forall k, exists c s1,
     Stage.getBinderCallback b k s = (Normal c, s1)
     /\ Stage.getBinderCallback b k s1 = (Normal c, s1)
     /\ forall k', exists c' s2,
          Stage.getBinderCallback b k' s1 = (Normal c', s2)
          /\ Stage.getBinderCallback b k s2 = (Normal c, s2))
  /\ (wired b s ->
      forall p g, Stage.layerGroups s !! p = Some g ->
        exists s' g',
          Stage.removeEventListeners p b s = (Normal tt, s')
          /\ Stage.layerGroups s' !! p = Some g'
          /\ Stage.listeners g' !! Stage.getEventType b = Some []
          /\ Stage.callbackStore s' = Stage.callbackStore s)
  /\ (Stage.unwired s = false ->
      exists s',
        Stage.unbindLayerGroups s = (Normal tt, s')
        /\ Stage.callbackStore s' = None
        /\ forall k, storedClosure b k s' = None).
Proof.
  intros Hstore. split; [| split].
  - intros k.
    destruct (getBinderCallback_spec b k s Hstore)
      as (c & s1 & Hrun & _ & _ & Hstore1 & Hstored & _).
    exists c, s1. split; [exact Hrun |].
    split; [by apply getBinderCallback_hit |].
    intros k'.
    destruct (getBinderCallback_spec b k' s1 Hstore1)
      as (c' & s2 & Hrun' & _ & _ & _ & _ & _ & Hmono & _).
    exists c', s2. split; [exact Hrun' |].
    apply getBinderCallback_hit. by apply Hmono.
  - intros Hwired p g Hg. eexists _, _.
    split; [by apply removeEventListeners_wired |].
    cbn [Stage.layerGroups Stage.setLayerGroups Stage.callbackStore].
    split; [| split; [| reflexivity]].
    + apply list_lookup_insert_eq. apply lookup_lt_is_Some_1. by exists g.
    + cbn. apply lookup_insert_eq.
  - intros Hunwired.
    destruct (unbindLayerGroups_clears s Hunwired Hstore) as (s' & Hrun & Hnone).
    exists s'. split; [exact Hrun |]. split; [exact Hnone |].
    intros k. unfold storedClosure. by rewrite Hnone.
Qed.

Lemma callback_memoized_while_store_lives_witness :
  let b := WindowLevelBinder 0 in
  let s :=
    snd (Stage.bindLayerGroups
           (newStage [layerGroupOf 0; layerGroupOf 0] [b])) in
  (exists c s1,
     Stage.getBinderCallback b 1 s = (Normal c, s1)
     /\ Stage.getBinderCallback b 1 s1 = (Normal c, s1))
  /\ (exists s',
        Stage.unbindLayerGroups s = (Normal tt, s')
        /\ Stage.callbackStore s' = None).
Proof.
  cbv zeta.
  destruct (callback_memoized_while_store_lives (WindowLevelBinder 0)
              (snd (Stage.bindLayerGroups
                      (newStage [layerGroupOf 0; layerGroupOf 0]
                         [WindowLevelBinder 0]))))
    as (Hmemo & _ & Hunbind).
  { eexists. vm_compute. reflexivity. }
  split.
  - destruct (Hmemo 1) as (c & s1 & Hfirst & Hagain & _).
    by exists c, s1.
  - destruct Hunbind as (s' & Hrun & Hnone & _); [reflexivity |].
    by exists s'.
Defined.

(** * Further properties of the view *)

Local Open Scope js_scope.

(** ** Positions *)

Lemma setCurrentIndex_refused (index : Index) (silent : option bool)
    (w : View.World) :
  Geometry.isIndexInBounds (Image.getGeometry (View.image (View.view w))) index
    (View.checkDirs (View.view w) index) = false ->
  View.setCurrentIndex index silent w = (Normal false, w).
Proof.
  intros Hout. unfold View.setCurrentIndex, bind, View.getView.
  rewrite Hout. reflexivity.
Qed.

(** X1. [setCurrentPosition] returns what [canSetPosition] answers for the
    same position: true exactly when the index of the position is in bounds
    along the scroll dimension (and along dimension 3 for an index of four
    components), whatever the silent flag. *)
Theorem setCurrentPosition_returns_canSetPosition (position : Point)
    (silent : option bool) (w : View.World) :
  fst (View.setCurrentPosition position silent w)
  = Normal (View.canSetPosition position (View.view w)).
Proof.
  unfold View.setCurrentPosition, View.canSetPosition, bind, View.getView.
  cbv zeta.
  set (index := Geometry.worldToIndex _ position).
  destruct (Geometry.isIndexInBounds _ index _) eqn:Hcheck; cbn [negb].
  - apply isIndexInBounds_checkDirs in Hcheck.
    by rewrite (setCurrentIndex_accepted index silent w Hcheck).
  - by destruct (negb (default false silent)).
Qed.

(** X2. A position that cannot be set is refused: the call returns false,
    the view is left as it was, and, unless silence is asked for, exactly
    one event is fired, of type positionchange, which carries the index and
    the position that were refused (the event with [valid: false]). *)
Theorem setCurrentPosition_out_of_bounds (position : Point)
    (silent : option bool) (w : View.World) :
  let v := View.view w in
  let index := Geometry.worldToIndex (Image.getGeometry (View.image v)) position in
  View.canSetPosition position v = false ->
  eventType (PositionInvalid index position) = "positionchange"
  /\ View.setCurrentPosition position silent w
     = (Normal false,
        View.mkWorld v
          (View.fired w ++
           if default false silent then [] else [PositionInvalid index position])).
Proof.
  intros v index Hout. split; [reflexivity |].
  unfold View.canSetPosition in Hout. cbv zeta in Hout. fold v index in Hout.
  unfold View.setCurrentPosition, bind, View.getView. cbv zeta.
  fold v index. rewrite Hout. cbn [negb].
  destruct w as [v0 trace]. subst v. cbn [View.view View.fired].
  destruct (default false silent); cbn; [by rewrite app_nil_r | reflexivity].
Qed.

Lemma setCurrentPosition_out_of_bounds_witness :
  View.setCurrentPosition outside None sampleWorld
  = (Normal false,
     View.mkWorld (View.view sampleWorld)
       [PositionInvalid [0; 0; 3]%Z outside]).
Proof.
  apply (setCurrentPosition_out_of_bounds outside None sampleWorld).
  reflexivity.
Defined.

(** X3. A position that can be set is not stored as given: the view stores
    the world point of the index of the position, and nothing else of the
    view changes. *)
Theorem setCurrentPosition_snaps_to_voxel (position : Point)
    (silent : option bool) (w : View.World) :
  let v := View.view w in
  let geometry := Image.getGeometry (View.image v) in
  View.canSetPosition position v = true ->
  exists w',
    View.setCurrentPosition position silent w = (Normal true, w')
    /\ View.view w'
       = withPosition
           (Geometry.indexToWorld geometry (Geometry.worldToIndex geometry position))
           v.
Proof.
  intros v geometry Hin.
  unfold View.canSetPosition in Hin. cbv zeta in Hin. fold v geometry in Hin.
  unfold View.setCurrentPosition, bind, View.getView. cbv zeta.
  fold v geometry. rewrite Hin. cbn [negb].
  apply isIndexInBounds_checkDirs in Hin.
  rewrite (setCurrentIndex_accepted _ silent w Hin).
  eexists. split; reflexivity.
Qed.

Lemma setCurrentPosition_snaps_to_voxel_witness :
  exists w',
    View.setCurrentPosition offCentre None sampleWorld = (Normal true, w')
    /\ View.currentPosition (View.view w') = Some [1%float; 2%float; 1%float].
Proof.
  destruct (setCurrentPosition_snaps_to_voxel offCentre None sampleWorld eq_refl)
    as (w' & Hrun & Hview).
  exists w'. split; [exact Hrun |]. rewrite Hview. reflexivity.
Defined.

(** X4. The silent position setters fire nothing: [setCurrentIndex] and
    [setCurrentPosition] called with the silent flag, and [setInitialIndex],
    leave the trace of events as it was, whether they accept or refuse. *)
Theorem silent_position_setters_fire_nothing (index : Index) (position : Point)
    (w : View.World) :
  View.fired (snd (View.setCurrentIndex index (Some true) w)) = View.fired w
  /\ View.fired (snd (View.setCurrentPosition position (Some true) w))
     = View.fired w
  /\ View.fired (snd (View.setInitialIndex w)) = View.fired w.
Proof.
  assert (Hindex : forall index w,
            View.fired (snd (View.setCurrentIndex index (Some true) w))
            = View.fired w).
  { intros index0 w0. unfold View.setCurrentIndex, bind, View.getView.
    by destruct (Geometry.isIndexInBounds _ index0 _). }
  split; [apply Hindex |]. split.
  - unfold View.setCurrentPosition, bind, View.getView. cbv zeta.
    destruct (Geometry.isIndexInBounds _ _ _); cbn [negb]; [apply Hindex | done].
  - unfold View.setInitialIndex, bind, View.getView. apply Hindex.
Qed.

(** ** Unit steps *)

Lemma addIndex_unitStep (index : Index) (dim : nat) (step value : Z) :
  index !! dim = Some value ->
  View.addIndex index (View.unitStep (length index) dim step)
  = <[dim := (value + step)%Z]> index.
Proof.
  intros Hdim. unfold View.addIndex, View.unitStep, Index in *.
  assert (Hlt : dim < length index) by (apply lookup_lt_is_Some_1; by exists value).
  apply Nat.ltb_lt in Hlt as Hltb. rewrite Hltb.
  apply list_eq. intros i. rewrite lookup_zip_with.
  destruct (decide (i = dim)) as [Heq | Hne].
  - subst i. rewrite Hdim, !list_lookup_insert_eq; [done | lia |].
    rewrite length_replicate. lia.
  - rewrite !list_lookup_insert_ne by done.
    destruct (index !! i) as [x |] eqn:Hi; [| done]. cbn.
    rewrite lookup_replicate_2.
    + cbn. f_equal. lia.
    + apply lookup_lt_is_Some_1. by exists x.
Qed.

Lemma addIndex_unitStep_past (index : Index) (dim : nat) (step : Z) :
  length index <= dim ->
  View.addIndex index (View.unitStep (length index) dim step) = index.
Proof.
  intros Hpast. unfold View.addIndex, View.unitStep, Index in *.
  assert (Hltb : (dim <? length index) = false) by (apply Nat.ltb_ge; lia).
  rewrite Hltb. apply list_eq. intros i. rewrite lookup_zip_with.
  destruct (index !! i) as [x |] eqn:Hi; [| done]. cbn.
  rewrite lookup_replicate_2.
  - cbn. f_equal. lia.
  - apply lookup_lt_is_Some_1. by exists x.
Qed.

Lemma incrementIndex_run (dim : nat) (silent : option bool) (w : View.World)
    (index : Index) (value : Z) :
  View.getCurrentIndex (View.view w) = Some index ->
  index !! dim = Some value ->
  View.incrementIndex dim silent w
  = View.setCurrentIndex (<[dim := (value + 1)%Z]> index) silent w.
Proof.
  intros Hindex Hdim. unfold View.incrementIndex, bind, View.getView.
  rewrite Hindex. cbv zeta. by rewrite (addIndex_unitStep index dim 1 value).
Qed.

Lemma decrementIndex_run (dim : nat) (silent : option bool) (w : View.World)
    (index : Index) (value : Z) :
  View.getCurrentIndex (View.view w) = Some index ->
  index !! dim = Some value ->
  View.decrementIndex dim silent w
  = View.setCurrentIndex (<[dim := (value - 1)%Z]> index) silent w.
Proof.
  intros Hindex Hdim. unfold View.decrementIndex, bind, View.getView.
  rewrite Hindex. cbv zeta. by rewrite (addIndex_unitStep index dim (-1) value).
Qed.

(** X5. [incrementIndex] and [decrementIndex] are [setCurrentIndex] on the
    current index with the component of the dimension raised or lowered by
    one; for a dimension that the index does not have, they are
    [setCurrentIndex] on the current index itself. *)
Theorem unit_step_changes_one_component (dim : nat) (silent : option bool)
    (w : View.World) (index : Index) :
  View.getCurrentIndex (View.view w) = Some index ->
  (forall value, index !! dim = Some value ->
     View.incrementIndex dim silent w
     = View.setCurrentIndex (<[dim := (value + 1)%Z]> index) silent w
     /\ View.decrementIndex dim silent w
        = View.setCurrentIndex (<[dim := (value - 1)%Z]> index) silent w)
  /\ (length index <= dim ->
      View.incrementIndex dim silent w = View.setCurrentIndex index silent w
      /\ View.decrementIndex dim silent w = View.setCurrentIndex index silent w).
Proof.
  intros Hindex. split.
  - intros value Hdim. split.
    + by apply incrementIndex_run.
    + by apply decrementIndex_run.
  - intros Hpast.
    unfold View.incrementIndex, View.decrementIndex, bind, View.getView.
    rewrite Hindex. cbv zeta. by rewrite !addIndex_unitStep_past.
Qed.

Lemma unit_step_changes_one_component_witness :
  View.incrementIndex 2 None positionedWorld
  = View.setCurrentIndex [1; 2; 2]%Z None positionedWorld
  /\ View.decrementIndex 2 None positionedWorld
     = View.setCurrentIndex [1; 2; 0]%Z None positionedWorld.
Proof.
  destruct (unit_step_changes_one_component 2 None positionedWorld [1; 2; 1]%Z
              eq_refl) as [Hstep _].
  apply (Hstep 1%Z). reflexivity.
Defined.

Lemma component_out_refused (v : View.t) (index : Index) (value size : Z) :
  index !! View.getScrollIndex v = Some value ->
  Geometry.getSize (Image.getGeometry (View.image v)) !! View.getScrollIndex v
  = Some size ->
  ~ (0 <= value < size)%Z ->
  Geometry.isIndexInBounds (Image.getGeometry (View.image v)) index
    (View.checkDirs v index) = false.
Proof.
  intros Hvalue Hsize Hout. apply not_true_is_false. intros Hin.
  apply isIndexInBounds_checkDirs in Hin as [(value' & size' & Hv & Hs & Hrange) _].
  simplify_eq. lia.
Qed.

(** X6. Scrolling stops at the ends: at the last slice of the scroll
    dimension [incrementScrollIndex] returns false, at the first
    [decrementScrollIndex] returns false, and the view and the trace are
    as they were. *)
Theorem scroll_stops_at_the_ends (silent : option bool) (w : View.World)
    (index : Index) (value size : Z) :
  let v := View.view w in
  View.getCurrentIndex v = Some index ->
  index !! View.getScrollIndex v = Some value ->
  Geometry.getSize (Image.getGeometry (View.image v)) !! View.getScrollIndex v
  = Some size ->
  ((size <= value + 1)%Z ->
   View.incrementScrollIndex silent w = (Normal false, w))
  /\ ((value <= 0)%Z ->
      View.decrementScrollIndex silent w = (Normal false, w)).
Proof.
  intros v Hindex Hvalue Hsize.
  assert (Hlt : View.getScrollIndex v < length index).
  { apply lookup_lt_is_Some_1. by exists value. }
  split; intros Hend.
  - unfold View.incrementScrollIndex, bind at 1, View.getView. fold v.
    rewrite (incrementIndex_run _ silent w index value Hindex Hvalue).
    apply setCurrentIndex_refused. fold v.
    apply (component_out_refused v _ (value + 1)%Z size);
      [by apply list_lookup_insert_eq | exact Hsize | lia].
  - unfold View.decrementScrollIndex, bind at 1, View.getView. fold v.
    rewrite (decrementIndex_run _ silent w index value Hindex Hvalue).
    apply setCurrentIndex_refused. fold v.
    apply (component_out_refused v _ (value - 1)%Z size);
      [by apply list_lookup_insert_eq | exact Hsize | lia].
Qed.

Lemma scroll_stops_at_the_ends_witness :
  View.incrementScrollIndex None lastSliceWorld = (Normal false, lastSliceWorld).
Proof.
  destruct (scroll_stops_at_the_ends None lastSliceWorld [1; 2; 2]%Z 2%Z 3%Z
              eq_refl eq_refl eq_refl) as [Hlast _].
  apply Hlast. lia.
Defined.

(** X7. A step forth and a step back: when the current index and the next
    one along the dimension are in bounds and the geometry maps the world
    point of the next index back to it, [incrementIndex] followed by
    [decrementIndex] returns true twice and leaves the view at the world
    point of the index it started from. *)
Theorem increment_then_decrement (dim : nat) (silent : option bool)
    (w : View.World) (index : Index) (value : Z) :
  let v := View.view w in
  let geometry := Image.getGeometry (View.image v) in
  let next := <[dim := (value + 1)%Z]> index in
  View.getCurrentIndex v = Some index ->
  index !! dim = Some value ->
  scrollInBounds v index ->
  scrollInBounds v next ->
  Geometry.worldToIndex geometry (Geometry.indexToWorld geometry next) = next ->
  exists w1 w2,
    View.incrementIndex dim silent w = (Normal true, w1)
    /\ View.decrementIndex dim silent w1 = (Normal true, w2)
    /\ View.view w2 = withPosition (Geometry.indexToWorld geometry index) v.
Proof.
  intros v geometry next Hindex Hdim Hin Hnext Hround.
  rewrite (incrementIndex_run dim silent w index value Hindex Hdim).
  fold next. rewrite (setCurrentIndex_accepted next silent w Hnext).
  fold v geometry.
  set (w1 := View.mkWorld (withPosition (Geometry.indexToWorld geometry next) v) _).
  assert (Hindex1 : View.getCurrentIndex (View.view w1) = Some next).
  { subst w1. unfold View.getCurrentIndex. cbn. fold geometry. by rewrite Hround. }
  assert (Hdim1 : next !! dim = Some (value + 1)%Z).
  { subst next. unfold Index in *. apply list_lookup_insert_eq.
    apply lookup_lt_is_Some_1. by exists value. }
  assert (Hback : <[dim := (value + 1 - 1)%Z]> next = index).
  { subst next. unfold Index in *. rewrite list_insert_insert_eq.
    replace (value + 1 - 1)%Z with value by lia. by apply list_insert_id. }
  exists w1. eexists. split; [reflexivity |].
  rewrite (decrementIndex_run dim silent w1 next (value + 1) Hindex1 Hdim1).
  rewrite Hback.
  rewrite (setCurrentIndex_accepted index silent w1); [| exact Hin].
  split; reflexivity.
Qed.

Lemma increment_then_decrement_witness :
  exists w1 w2,
    View.incrementIndex 2 None positionedWorld = (Normal true, w1)
    /\ View.decrementIndex 2 None w1 = (Normal true, w2)
    /\ View.view w2 = View.view positionedWorld.
Proof.
  destruct (increment_then_decrement 2 None positionedWorld [1; 2; 1]%Z 1%Z)
    as (w1 & w2 & Hup & Hdown & Hview).
  - reflexivity.
  - reflexivity.
  - split; [exists 1%Z, 3%Z; repeat split; (reflexivity || lia) | discriminate].
  - split; [exists 2%Z, 3%Z; repeat split; (reflexivity || lia) | discriminate].
  - reflexivity.
  - exists w1, w2. split; [exact Hup |]. split; [exact Hdown |].
    rewrite Hview. reflexivity.
Defined.

(** ** The appended frame *)

Lemma differAt_prefix (index extra : Index) (i : nat) :
  i < length index -> View.differAt index (index ++ extra) i = false.
Proof.
  intros Hi. unfold View.differAt, Index in *.
  rewrite lookup_app_l by done. by rewrite bool_decide_eq_true_2.
Qed.

Lemma computeDiffDims_extended (index : Index) :
  length index = 3 -> View.computeDiffDims (Some index) (index ++ [0%Z]) = [3].
Proof.
  intros Hlen. unfold View.computeDiffDims, View.canCompare.
  rewrite length_app, Hlen. cbn [length Nat.add Nat.eqb Nat.min Nat.max Nat.sub].
  rewrite !pushWhere_filter. cbn [app seq].
  rewrite 3!filter_cons_False
    by (rewrite differAt_prefix by (rewrite Hlen; lia); discriminate).
  reflexivity.
Qed.

(** X8. The appendframe listener of the constructor: a current index of
    three components is extended by a fourth component 0 and set, not
    silently, so that one positionchange is fired whose diff dims are
    exactly [3]; when the extended index is out of bounds, or when the
    current index has another number of components, nothing changes. *)
Theorem appended_frame_adds_dimension (w : View.World) (index : Index) :
  let v := View.view w in
  let extended := index ++ [0%Z] in
  let position :=
    Geometry.indexToWorld (Image.getGeometry (View.image v)) extended in
  View.getCurrentIndex v = Some index ->
  (length index = 3 -> scrollInBounds v extended ->
   exists pixValue imageUid,
     View.onAppendFrame w
     = (Normal tt,
        View.mkWorld (withPosition position v)
          (View.fired w ++
           [PositionChange extended position pixValue [3] imageUid])))
  /\ (length index = 3 -> ~ scrollInBounds v extended ->
      View.onAppendFrame w = (Normal tt, w))
  /\ (length index <> 3 -> View.onAppendFrame w = (Normal tt, w)).
Proof.
  intros v extended position Hindex. split; [| split].
  - intros Hlen Hin. unfold View.onAppendFrame, bind at 1, View.getView.
    fold v. rewrite Hindex, Hlen. cbn [Nat.eqb]. unfold bind at 1.
    fold extended. rewrite (setCurrentIndex_accepted extended None w Hin).
    fold v position. rewrite Hindex. subst extended.
    rewrite computeDiffDims_extended by exact Hlen.
    eexists _, _. reflexivity.
  - intros Hlen Hout. unfold View.onAppendFrame, bind at 1, View.getView.
    fold v. rewrite Hindex, Hlen. cbn [Nat.eqb]. unfold bind at 1.
    fold extended. rewrite setCurrentIndex_refused; [reflexivity |].
    apply not_true_is_false. intros Hin. apply Hout.
    by apply isIndexInBounds_checkDirs.
  - intros Hlen. unfold View.onAppendFrame, bind, View.getView.
    fold v. rewrite Hindex. apply Nat.eqb_neq in Hlen. by rewrite Hlen.
Qed.

Lemma appended_frame_adds_dimension_witness :
  exists pixValue imageUid,
    View.onAppendFrame frameWorld
    = (Normal tt,
       View.mkWorld
         (withPosition [1%float; 2%float; 1%float; 0%float] (View.view frameWorld))
         [PositionChange [1; 2; 1; 0]%Z [1%float; 2%float; 1%float; 0%float]
            pixValue [3] imageUid]).
Proof.
  destruct (appended_frame_adds_dimension frameWorld [1; 2; 1]%Z eq_refl)
    as (Hadd & _ & _).
  apply Hadd; [reflexivity |].
  split; [exists 1%Z, 3%Z | intros _; exists 0%Z, 2%Z];
    repeat split; (reflexivity || lia).
Defined.

(** ** Comparisons of binary64 numbers *)

Lemma SFeqb_irreflexive_nan (f : SpecFloat.spec_float) :
  SpecFloat.SFeqb f f = false -> f = SpecFloat.S754_nan.
Proof.
  unfold SpecFloat.SFeqb. destruct f as [s | s | | s m e]; cbn.
  - discriminate.
  - destruct s; discriminate.
  - reflexivity.
  - rewrite Z.compare_refl, Pos.compare_cont_refl. destruct s; discriminate.
Qed.

Lemma SFeqb_sym (f g : SpecFloat.spec_float) :
  SpecFloat.SFeqb f g = SpecFloat.SFeqb g f.
Proof.
  unfold SpecFloat.SFeqb.
  destruct f as [s | s | | s m e], g as [s' | s' | | s' m' e']; cbn;
    try reflexivity; try (by destruct s); try (by destruct s');
    try (by destruct s, s').
  change (Pos.compare_cont Eq m m') with (m ?= m')%positive.
  change (Pos.compare_cont Eq m' m) with (m' ?= m)%positive.
  rewrite (Z.compare_antisym e e'), (Pos.compare_antisym m m').
  destruct s, s', (e ?= e')%Z, (m ?= m')%positive; reflexivity.
Qed.

Lemma float_eqb_sym (x y : float) : PrimFloat.eqb x y = PrimFloat.eqb y x.
Proof. rewrite !FloatAxioms.eqb_spec. apply SFeqb_sym. Qed.

Lemma nan_never_less (x y : float) :
  PrimFloat.eqb x x = false -> PrimFloat.ltb x y = false.
Proof.
  rewrite FloatAxioms.eqb_spec, FloatAxioms.ltb_spec. intros Hnan.
  apply SFeqb_irreflexive_nan in Hnan. rewrite Hnan. reflexivity.
Qed.

Lemma nan_never_equal (x y : float) :
  PrimFloat.eqb x x = false -> PrimFloat.eqb x y = false.
Proof.
  rewrite !FloatAxioms.eqb_spec. intros Hnan.
  apply SFeqb_irreflexive_nan in Hnan. rewrite Hnan. reflexivity.
Qed.

(** ** The window/level setter in closed form *)

Lemma setWindowLevel_run (center width : float) (name : option string)
    (silent : option bool) (w : View.World) :
  View.setWindowLevel center width name silent w
  = (Normal tt,
     if PrimFloat.ltb width 1
        || WindowLevel.equals (WindowLevel.mk center width)
             (View.currentWl (View.view w))
     then w
     else View.mkWorld
            (withLevel (default "manual" name) (WindowLevel.mk center width)
               (View.view w))
            (View.fired w ++ [WlChange center width (default false silent)])).
Proof.
  unfold View.setWindowLevel. destruct (PrimFloat.ltb width 1); [reflexivity |].
  cbn [orb]. unfold bind, View.getView, modify, View.fireEvent, ret.
  destruct (View.currentWl (View.view w)) as [[c0 w0] |]; cbn;
    [| reflexivity].
  rewrite (float_eqb_sym w0 width), (float_eqb_sym c0 center).
  by destruct (PrimFloat.eqb center c0), (PrimFloat.eqb width w0).
Qed.

(** X9. [setWindowLevel] always returns, and either leaves the world as it
    was or stores the level and the name and fires exactly one wlchange with
    the centre, the width and the silent flag as skipGenerate: the level
    never changes without an event (the inner test on the width and the
    centre cannot fail once the level is new). *)
Theorem setWindowLevel_fires_iff_changes (center width : float)
    (name : option string) (silent : option bool) (w : View.World) :
  let result := View.setWindowLevel center width name silent w in
  fst result = Normal tt
  /\ (snd result = w
      \/ View.view (snd result)
         = withLevel (default "manual" name) (WindowLevel.mk center width)
             (View.view w)
         /\ View.fired (snd result)
            = View.fired w ++ [WlChange center width (default false silent)])
  /\ (View.fired (snd result) = View.fired w -> snd result = w).
Proof.
  cbv zeta. rewrite setWindowLevel_run. cbn [fst snd].
  split; [reflexivity |].
  destruct (PrimFloat.ltb width 1 || WindowLevel.equals _ _).
  - split; [by left | done].
  - split; [right; split; reflexivity |].
    cbn [View.fired]. intros Hsame.
    apply (f_equal length) in Hsame. rewrite length_app in Hsame.
    cbn in Hsame. lia.
Qed.

(** X10. For numbers, [setWindowLevel] is idempotent: a second call with the
    same centre and width changes nothing and fires nothing, also when it
    gives another name or another silent flag; the name of the first call
    stays. *)
Theorem setWindowLevel_repeated (center width : float)
    (name name' : option string) (silent silent' : option bool)
    (w : View.World) :
  PrimFloat.eqb center center = true ->
  PrimFloat.eqb width width = true ->
  let w1 := snd (View.setWindowLevel center width name silent w) in
  View.setWindowLevel center width name' silent' w1 = (Normal tt, w1).
Proof.
  intros Hcenter Hwidth. cbv zeta. rewrite !setWindowLevel_run. cbn [snd].
  f_equal.
  destruct (PrimFloat.ltb width 1); cbn [orb]; [reflexivity |].
  destruct (WindowLevel.equals _ (View.currentWl (View.view w))) eqn:Hsame.
  - by rewrite Hsame.
  - cbn. by rewrite Hcenter, Hwidth.
Qed.

Lemma setWindowLevel_repeated_witness :
  let w1 := snd (View.setWindowLevel 40 400 (Some "abdomen") None sampleWorld) in
  View.currentPresetName (View.view w1) = Some "abdomen"
  /\ View.setWindowLevel 40 400 (Some "bone") None w1 = (Normal tt, w1).
Proof.
  split; [reflexivity |].
  apply (setWindowLevel_repeated 40 400 (Some "abdomen") (Some "bone") None None
           sampleWorld); reflexivity.
Defined.

(** X11. A width that is not a number passes the guard [width < 1]: the
    level is stored and a wlchange is fired, on every call, since such a
    level never compares equal to the current one. *)
Theorem setWindowLevel_accepts_nan_width (center width : float)
    (name : option string) (silent : option bool) (w : View.World) :
  PrimFloat.eqb width width = false ->
  View.setWindowLevel center width name silent w
  = (Normal tt,
     View.mkWorld
       (withLevel (default "manual" name) (WindowLevel.mk center width)
          (View.view w))
       (View.fired w ++ [WlChange center width (default false silent)])).
Proof.
  intros Hnan. rewrite setWindowLevel_run.
  rewrite (nan_never_less width 1 Hnan). cbn [orb].
  assert (Hnew : WindowLevel.equals (WindowLevel.mk center width)
                   (View.currentWl (View.view w)) = false).
  { unfold WindowLevel.equals. destruct (View.currentWl (View.view w)); [| done].
    cbn. rewrite (nan_never_equal width _ Hnan). apply andb_false_r. }
  by rewrite Hnew.
Qed.

Lemma setWindowLevel_accepts_nan_width_witness :
  View.fired (snd (View.setWindowLevel 40 nan None None sampleWorld))
  = [WlChange 40 nan false].
Proof.
  rewrite (setWindowLevel_accepts_nan_width 40 nan None None sampleWorld);
    reflexivity.
Defined.

(** ** The min/max shortcut *)

Lemma getWindowLevelMinMax_width (v : View.t) :
  PrimFloat.ltb (WindowLevel.getWidth (View.getWindowLevelMinMax v)) 1 = false.
Proof.
  unfold View.getWindowLevelMinMax. cbv zeta. cbn [WindowLevel.getWidth].
  destruct (PrimFloat.ltb (PrimFloat.sub _ _) 1) eqn:Hnarrow;
    [reflexivity | exact Hnarrow].
Qed.

(** X12. [setWindowLevelMinMax] is never refused by the width guard, the
    width of the min/max level being clamped to one: unless the min/max
    level is already the current one, the call stores it under the name
    "minmax" and fires one wlchange, with skipGenerate false. *)
Theorem setWindowLevelMinMax_never_rejected (w : View.World) :
  let v := View.view w in
  let level := View.getWindowLevelMinMax v in
  View.setWindowLevelMinMax w
  = (Normal tt,
     if WindowLevel.equals level (View.currentWl v) then w
     else View.mkWorld (withLevel "minmax" level v)
            (View.fired w ++
             [WlChange (WindowLevel.getCenter level) (WindowLevel.getWidth level)
                false])).
Proof.
  cbv zeta. unfold View.setWindowLevelMinMax, bind, View.getView.
  rewrite setWindowLevel_run, getWindowLevelMinMax_width. cbn [orb].
  by destruct (View.getWindowLevelMinMax (View.view w)).
Qed.

(** ** Activating presets *)

Lemma replaceKey_same (key : string) (p : Preset.t) (o : Presets) :
  lookupKey key o = Some p -> replaceKey key p o = o.
Proof.
  induction o as [| [k q] o IH]; cbn; [discriminate |].
  destruct (String.eqb k key); [by intros [= ->] |].
  intros Hlook. by rewrite IH.
Qed.

Lemma assignKey_same (key : string) (p : Preset.t) (o : Presets) :
  lookupKey key o = Some p -> assignKey key p o = o.
Proof.
  intros Hlook. unfold assignKey. rewrite Hlook. by apply replaceKey_same.
Qed.

Lemma withView_assign_same (name : string) (p : Preset.t) (w : View.World) :
  lookupKey name (View.windowPresets (View.view w)) = Some p ->
  View.withView
    (fun v => View.setPresets (assignKey name p (View.windowPresets v)) v) w
  = w.
Proof.
  intros Hlook. destruct w as [v trace]. unfold View.withView.
  cbn [View.view View.fired] in *. rewrite (assignKey_same name p _ Hlook).
  by destruct v.
Qed.

Lemma setWindowLevelPreset_levels (name : string) (silent : option bool)
    (w : View.World) (p : Preset.t) (levels : list WindowLevel.t) :
  let v := View.view w in
  let chosen :=
    if Preset.isPerslice p
    then levels !! Image.getSecondaryOffset (View.image v) (View.getCurrentIndex v)
    else levels !! 0 in
  lookupKey name (View.windowPresets v) = Some p ->
  Preset.wl p = Some levels ->
  View.setWindowLevelPreset name silent w
  = match chosen with
    | Some level =>
        View.setWindowLevel (WindowLevel.getCenter level)
          (WindowLevel.getWidth level) (Some name) silent w
    | None => (Throw "TypeError", w)
    end.
Proof.
  intros v chosen Hlook Hlevels.
  unfold View.setWindowLevelPreset, bind at 1, View.getView, View.getWindowPresets.
  fold v. rewrite Hlook, Hlevels. unfold bind at 1, modify.
  rewrite (withView_assign_same name p w Hlook), Hlevels.
  fold v. subst chosen. cbv zeta.
  by destruct (if Preset.isPerslice p then _ else _).
Qed.

(** X13. Activating a preset that has levels leaves the registry as it is
    and is [setWindowLevel] under the name of the preset: with the first
    level for a regular preset, with the level at the secondary offset of
    the current index for a per-slice preset; a missing level is a
    TypeError that leaves the world unchanged. *)
Theorem preset_with_levels_activates (name : string) (silent : option bool)
    (w : View.World) (p : Preset.t) (levels : list WindowLevel.t) :
  let v := View.view w in
  lookupKey name (View.windowPresets v) = Some p ->
  Preset.wl p = Some levels ->
  (Preset.isPerslice p = false ->
   View.setWindowLevelPreset name silent w
   = match levels !! 0 with
     | Some level =>
         View.setWindowLevel (WindowLevel.getCenter level)
           (WindowLevel.getWidth level) (Some name) silent w
     | None => (Throw "TypeError", w)
     end)
  /\ (Preset.isPerslice p = true ->
      View.setWindowLevelPreset name silent w
      = match levels !! Image.getSecondaryOffset (View.image v)
                          (View.getCurrentIndex v) with
        | Some level =>
            View.setWindowLevel (WindowLevel.getCenter level)
              (WindowLevel.getWidth level) (Some name) silent w
        | None => (Throw "TypeError", w)
        end).
Proof.
  intros v Hlook Hlevels.
  split; intros Hkind;
    rewrite (setWindowLevelPreset_levels name silent w p levels Hlook Hlevels);
    by rewrite Hkind.
Qed.

Lemma preset_with_levels_activates_witness :
  View.setWindowLevelPreset "frame" None persliceWorld
  = View.setWindowLevel 10 20 (Some "frame") None persliceWorld.
Proof.
  destruct (preset_with_levels_activates "frame" None persliceWorld framePreset
              [WindowLevel.mk 10 20; WindowLevel.mk 30 40] eq_refl eq_refl)
    as [_ Hperslice].
  rewrite Hperslice; reflexivity.
Defined.

(** X14. A preset name that the registry neither owns nor inherits is
    refused with the error "Unknown window level preset: '<name>'"; a name
    that it only inherits from Object.prototype passes that test and fails
    with a TypeError on the levels it lacks; the world is unchanged in both
    cases. [setWindowLevelPresetById] past the end of the names looks up the
    name "undefined" and is refused as unknown. *)
Theorem unknown_preset_rejected (silent : option bool) (w : View.World) :
  let presets := View.windowPresets (View.view w) in
  (forall name, lookupKey name presets = None ->
     View.setWindowLevelPreset name silent w
     = (Throw (if inheritedName name then "TypeError"
               else "Unknown window level preset: '" +:+ name +:+ "'"), w))
  /\ (forall id, length presets <= id -> lookupKey "undefined" presets = None ->
      View.setWindowLevelPresetById id silent w
      = (Throw "Unknown window level preset: 'undefined'", w)).
Proof.
  cbv zeta.
  assert (Hname : forall name,
            lookupKey name (View.windowPresets (View.view w)) = None ->
            View.setWindowLevelPreset name silent w
            = (Throw (if inheritedName name then "TypeError"
                      else "Unknown window level preset: '" +:+ name +:+ "'"), w)).
  { intros name Hnone.
    unfold View.setWindowLevelPreset, bind, View.getView, View.getWindowPresets.
    rewrite Hnone. by destruct (inheritedName name). }
  split; [exact Hname |].
  intros id Hpast Hnone.
  unfold View.setWindowLevelPresetById, bind, View.getView, View.getWindowPresets.
  rewrite lookup_ge_None_2 by (unfold keys; by rewrite length_fmap).
  cbn [from_option]. by rewrite (Hname "undefined" Hnone).
Qed.

Lemma unknown_preset_rejected_witness :
  View.setWindowLevelPreset "bone" None sampleWorld
  = (Throw "Unknown window level preset: 'bone'", sampleWorld)
  /\ View.setWindowLevelPreset "constructor" None sampleWorld
     = (Throw "TypeError", sampleWorld)
  /\ View.setWindowLevelPresetById 1 None sampleWorld
     = (Throw "Unknown window level preset: 'undefined'", sampleWorld).
Proof.
  destruct (unknown_preset_rejected None sampleWorld) as [Hname Hid].
  split; [| split].
  - apply (Hname "bone"). reflexivity.
  - apply (Hname "constructor"). reflexivity.
  - apply (Hid 1); [cbn; lia | reflexivity].
Defined.

(** X15. The preset "minmax" is filled at first use: while it has no levels,
    activating it writes the min/max level of the image into the registry
    entry and sets that level; afterwards the stored level is the one that
    is used, also after [setImage] gave the view an image of another data
    range. *)
Theorem minmax_filled_on_first_use (silent silent' : option bool)
    (w : View.World) (p : Preset.t) (inImage : Image.t) :
  let v := View.view w in
  let level := View.getWindowLevelMinMax v in
  let filled := Preset.mk (Preset.name p) (Some [level]) (Preset.perslice p) in
  let w1 := snd (View.setWindowLevelPreset "minmax" silent w) in
  let w2 := snd (View.setImage inImage w1) in
  lookupKey "minmax" (View.windowPresets v) = Some p ->
  Preset.wl p = None ->
  Preset.isPerslice p = false ->
  View.setWindowLevelPreset "minmax" silent w
  = View.setWindowLevel (WindowLevel.getCenter level) (WindowLevel.getWidth level)
      (Some "minmax") silent
      (View.withView
         (View.setPresets (assignKey "minmax" filled (View.windowPresets v))) w)
  /\ lookupKey "minmax" (View.windowPresets (View.view w1)) = Some filled
  /\ View.setWindowLevelPreset "minmax" silent' w2
     = View.setWindowLevel (WindowLevel.getCenter level)
         (WindowLevel.getWidth level) (Some "minmax") silent' w2.
Proof.
  intros v level filled w1 w2 Hlook Hnone Hkind.
  assert (Hfilled : Preset.isPerslice filled = false) by exact Hkind.
  assert (Hrun : View.setWindowLevelPreset "minmax" silent w
                 = View.setWindowLevel (WindowLevel.getCenter level)
                     (WindowLevel.getWidth level) (Some "minmax") silent
                     (View.withView
                        (View.setPresets
                           (assignKey "minmax" filled (View.windowPresets v))) w)).
  { unfold View.setWindowLevelPreset, bind at 1, View.getView,
      View.getWindowPresets.
    fold v. rewrite Hlook, Hnone. cbn [String.eqb Ascii.eqb Bool.eqb].
    fold level filled. unfold bind at 1, modify. cbn [Preset.wl filled].
    rewrite Hfilled. reflexivity. }
  assert (Hw1 : lookupKey "minmax" (View.windowPresets (View.view w1))
                = Some filled).
  { subst w1. rewrite Hrun, setWindowLevel_run. cbn [snd].
    destruct (_ || _); cbn; apply lookupKey_assignKey_eq. }
  split; [exact Hrun |]. split; [exact Hw1 |].
  assert (Hw2 : lookupKey "minmax" (View.windowPresets (View.view w2))
                = Some filled) by exact Hw1.
  by rewrite (setWindowLevelPreset_levels "minmax" silent' w2 filled [level]
                Hw2 eq_refl), Hfilled.
Qed.

Lemma minmax_filled_on_first_use_witness :
  let w1 := snd (View.setWindowLevelPreset "minmax" None sampleWorld) in
  let w2 := snd (View.setImage brightImage w1) in
  View.currentWl (View.view w1) = Some (WindowLevel.mk 100.5 1)
  /\ View.setWindowLevelPreset "minmax" None w2
     = View.setWindowLevel 100.5 1 (Some "minmax") None w2
  /\ View.getWindowLevelMinMax (View.view w2) = WindowLevel.mk 500 1000.
Proof.
  destruct (minmax_filled_on_first_use None None sampleWorld
              (Preset.mk (Some "minmax") None None) brightImage
              eq_refl eq_refl eq_refl) as (_ & _ & Hagain).
  split; [reflexivity |]. split; [exact Hagain | reflexivity].
Defined.

(** ** What the operations fire *)

Section Emission.

Variable P : Event -> Prop.

Lemma emits_ret {A : Type} (a : A) : emits P (ret a).
Proof. intros w. exists []. by rewrite app_nil_r. Qed.

Lemma emits_throw {A : Type} (msg : string) : emits P (@throw _ A msg).
Proof. intros w. exists []. by rewrite app_nil_r. Qed.

Lemma emits_getView : emits P View.getView.
Proof. intros w. exists []. by rewrite app_nil_r. Qed.

Lemma emits_modify (f : View.t -> View.t) : emits P (modify (View.withView f)).
Proof. intros w. exists []. by rewrite app_nil_r. Qed.

Lemma emits_fireEvent (e : Event) : P e -> emits P (View.fireEvent e).
Proof. intros He w. exists [e]. split; [reflexivity | by constructor]. Qed.

Lemma emits_bind {A B : Type} (m : M View.World A) (k : A -> M View.World B) :
  emits P m -> (forall a, emits P (k a)) -> emits P (bind m k).
Proof.
  intros Hm Hk w. unfold bind. destruct (Hm w) as (evs & Hevs & Hall).
  destruct (m w) as [[a | msg] w1]; cbn [snd] in *.
  - destruct (Hk a w1) as (evs' & Hevs' & Hall'). exists (evs ++ evs').
    split; [by rewrite Hevs', Hevs, app_assoc | by apply Forall_app].
  - by exists evs.
Qed.

Lemma emits_forEach {A : Type} (body : A -> M View.World unit) (l : list A) :
  (forall x, emits P (body x)) -> emits P (forEach body l).
Proof.
  intros Hbody. induction l as [| x l IH]; cbn [forEach].
  - apply emits_ret.
  - apply emits_bind; [apply Hbody | intros _; exact IH].
Qed.

End Emission.

Lemma emits_weaken (P Q : Event -> Prop) {A : Type} (m : M View.World A) :
  (forall e, P e -> Q e) -> emits P m -> emits Q m.
Proof.
  intros HPQ Hm w. destruct (Hm w) as (evs & Hevs & Hall).
  exists evs. split; [exact Hevs |]. eapply Forall_impl; [exact Hall | exact HPQ].
Qed.

Create HintDb emits.

Ltac emits_auto :=
  repeat first
    [ progress cbv zeta
    | apply emits_ret
    | apply emits_throw
    | apply emits_getView
    | apply emits_modify
    | apply emits_fireEvent;
      solve [reflexivity | by eexists _, _ | by apply list_elem_of_singleton]
    | solve [auto with emits]
    | apply emits_bind; [| intros ?]
    | match goal with
      | |- emits _ (if ?b then _ else _) => destruct b
      | |- emits _ (match ?x with _ => _ end) => destruct x
      end ].

Lemma emits_setCurrentIndex (index : Index) (silent : option bool) :
  emits (fun e => eventType e = "positionchange")
    (View.setCurrentIndex index silent).
Proof. unfold View.setCurrentIndex. emits_auto. Qed.

Lemma emits_setCurrentPosition (position : Point) (silent : option bool) :
  emits (fun e => eventType e = "positionchange")
    (View.setCurrentPosition position silent).
Proof.
  pose proof emits_setCurrentIndex.
  unfold View.setCurrentPosition. emits_auto.
Qed.

Lemma emits_setCurrentIndex_silent (P : Event -> Prop) (index : Index) :
  emits P (View.setCurrentIndex index (Some true)).
Proof.
  unfold View.setCurrentIndex. cbn [from_option negb]. unfold id. emits_auto.
Qed.

Lemma emits_setInitialIndex (P : Event -> Prop) : emits P View.setInitialIndex.
Proof.
  pose proof (emits_setCurrentIndex_silent P).
  unfold View.setInitialIndex. emits_auto.
Qed.

Lemma emits_setWindowLevel (center width : float) (name : option string)
    (silent : option bool) :
  emits (fun e => eventType e = "wlchange")
    (View.setWindowLevel center width name silent).
Proof. unfold View.setWindowLevel. emits_auto. Qed.

Lemma emits_setWindowLevel_silent (center width : float) (name : option string) :
  emits quietWlChange (View.setWindowLevel center width name (Some true)).
Proof. unfold View.setWindowLevel. emits_auto. Qed.

Lemma emits_setWindowLevelPreset (name : string) (silent : option bool) :
  emits (fun e => eventType e = "wlchange")
    (View.setWindowLevelPreset name silent).
Proof.
  pose proof emits_setWindowLevel.
  unfold View.setWindowLevelPreset. emits_auto.
Qed.

Lemma emits_setWindowLevelPreset_silent (name : string) :
  emits quietWlChange (View.setWindowLevelPreset name (Some true)).
Proof.
  pose proof emits_setWindowLevel_silent.
  unfold View.setWindowLevelPreset. emits_auto.
Qed.

Lemma emits_setWindowLevelPresetById (id : nat) (silent : option bool) :
  emits (fun e => eventType e = "wlchange")
    (View.setWindowLevelPresetById id silent).
Proof.
  pose proof emits_setWindowLevelPreset.
  unfold View.setWindowLevelPresetById. emits_auto.
Qed.

Lemma emits_setWindowLevelPresetById_silent (id : nat) :
  emits quietWlChange (View.setWindowLevelPresetById id (Some true)).
Proof.
  pose proof emits_setWindowLevelPreset_silent.
  unfold View.setWindowLevelPresetById. emits_auto.
Qed.

Lemma emits_addWindowLut (P : Event -> Prop) (wlut : WindowLut.t) :
  emits P (View.addWindowLut wlut).
Proof. unfold View.addWindowLut. emits_auto. Qed.

Lemma emits_getCurrentWindowLut (rsi : option RSI.t) :
  emits quietWlChange (View.getCurrentWindowLut rsi).
Proof.
  pose proof (emits_setInitialIndex quietWlChange).
  pose proof emits_setWindowLevelPresetById_silent.
  pose proof (emits_addWindowLut quietWlChange).
  unfold View.getCurrentWindowLut. emits_auto.
Qed.

Lemma emits_addWindowPresets (presets : Presets) :
  emits (fun e => eventType e = "wlpresetadd") (View.addWindowPresets presets).
Proof.
  apply emits_forEach. intros entry. unfold View.addWindowPreset. emits_auto.
Qed.

(** X16. Whatever [getCurrentWindowLut] fires is a wlchange with
    skipGenerate true, whether the call returns or throws: the index it
    initialises is set silently and the preset it falls back on is activated
    silently. *)
Theorem getCurrentWindowLut_fires_quiet_wlchange (rsi : option RSI.t)
    (w : View.World) :
  exists evs,
    View.fired (snd (View.getCurrentWindowLut rsi w)) = View.fired w ++ evs
    /\ Forall (fun e => exists wc ww, e = WlChange wc ww true) evs.
Proof. apply emits_getCurrentWindowLut. Qed.

(** X17. Every operation only appends to the trace, and appends events of
    its own types: the position setters positionchange, the window/level
    setters and [getCurrentWindowLut] wlchange, [addWindowPresets]
    wlpresetadd, and [setOrientation], [setInitialIndex], [addWindowLut] and
    [setWindowPresets] nothing. *)
Theorem operations_fire_their_event_types (op : Operation) (w : View.World) :
  exists evs,
    View.fired (perform op w) = View.fired w ++ evs
    /\ Forall (fun e => eventType e ∈ firedTypes op) evs.
Proof.
  assert (Hone : forall (type : string) (A : Type) (m : M View.World A),
            emits (fun e => eventType e = type) m ->
            emits (fun e => eventType e ∈ [type]) m).
  { intros type A m. apply emits_weaken. intros e ->. by left. }
  destruct op; cbn [perform firedTypes].
  - by apply (emits_modify _ _ w).
  - by apply emits_setInitialIndex.
  - by apply Hone, emits_setCurrentIndex.
  - by apply Hone, emits_setCurrentPosition.
  - by apply Hone, emits_setWindowLevel.
  - apply Hone. unfold View.setWindowLevelMinMax.
    apply emits_bind; [apply emits_getView | intros v; apply emits_setWindowLevel].
  - by apply Hone, emits_setWindowLevelPreset.
  - by apply Hone, emits_setWindowLevelPresetById.
  - apply Hone. eapply emits_weaken; [| apply emits_getCurrentWindowLut].
    by intros e (wc & ww & ->).
  - by apply emits_addWindowLut.
  - by apply Hone, emits_addWindowPresets.
  - by apply (emits_modify _ _ w).
Qed.

(** ** A well-keyed cache *)

Lemma wellKeyed_traceBlind : traceBlind wellKeyed.
Proof. intros v trace trace' Hw. exact Hw. Qed.

Lemma preserves_of_cache {A : Type} (m : M View.World A) :
  (forall img luts, preserves (cacheIs img luts) m) -> preserves wellKeyed m.
Proof.
  intros Hm w Hw.
  destruct (Hm (View.image (View.view w)) (View.windowLuts (View.view w)) w)
    as [_ Hluts]; [done |].
  unfold wellKeyed. rewrite Hluts. exact Hw.
Qed.

Lemma wellKeyed_insert (home : string) (wlut : WindowLut.t) :
  ownKey wlut = home ->
  preserves wellKeyed
    (modify (View.withView (fun v =>
       View.setLuts (<[home := wlut]> (View.windowLuts v)) v))).
Proof.
  intros Hhome. apply preserves_modify. intros w Hw key lut.
  cbn [View.view View.withView View.windowLuts View.setLuts].
  destruct (decide (key = home)) as [-> | Hne].
  - rewrite lookup_insert_eq. by intros [= <-].
  - rewrite lookup_insert_ne by done. apply Hw.
Qed.

Lemma wellKeyed_addWindowLut (wlut : WindowLut.t) :
  preserves wellKeyed (View.addWindowLut wlut).
Proof. unfold View.addWindowLut. by apply wellKeyed_insert. Qed.

Lemma preserves_bind_ret (I : View.World -> Prop) {A B : Type} (a : A)
    (k : A -> M View.World B) :
  preserves I (k a) -> preserves I (bind (ret a) k).
Proof. intros Hk w Hw. by apply Hk. Qed.

Lemma preserves_bind_then_ret (I : View.World -> Prop) {A B : Type}
    (m : M View.World unit) (a : A) (k : A -> M View.World B) :
  preserves I m -> preserves I (k a) ->
  preserves I (bind (bind m (fun _ => ret a)) k).
Proof.
  intros Hm Hk w Hw. unfold bind, ret. specialize (Hm w Hw).
  destruct (m w) as [[[] | msg] w1]; cbn [snd] in *; [by apply Hk | exact Hm].
Qed.

Lemma wellKeyed_getCurrentWindowLut (rsi : option RSI.t) :
  preserves wellKeyed (View.getCurrentWindowLut rsi).
Proof.
  pose proof wellKeyed_traceBlind as Hblind.
  assert (Hinit : preserves wellKeyed View.setInitialIndex).
  { apply preserves_of_cache. intros img luts. apply cache_setInitialIndex. }
  assert (Hbyid : forall id silent,
            preserves wellKeyed (View.setWindowLevelPresetById id silent)).
  { intros id silent. apply preserves_of_cache. intros img luts.
    apply cache_setWindowLevelPresetById. }
  unfold View.getCurrentWindowLut.
  apply preserves_bind; [apply preserves_getView | intros v0].
  apply preserves_bind.
  { destruct (View.getCurrentIndex v0); [apply preserves_ret |].
    apply preserves_bind; [exact Hinit | intros _; apply preserves_ret]. }
  intros _. apply preserves_bind; [apply preserves_getView | intros v1].
  cbv zeta. apply preserves_bind.
  { destruct (View.currentPresetName v1) as [presetName |];
      [| apply preserves_ret].
    destruct (lookupKey presetName (View.windowPresets v1)) as [preset |];
      [| apply preserves_ret].
    destruct (View.truthy presetName && Preset.isPerslice preset);
      [| apply preserves_ret].
    destruct (Preset.wl preset); [apply preserves_ret | apply preserves_throw]. }
  intros persliceWl. apply preserves_bind.
  { destruct persliceWl; [apply preserves_ret |].
    apply preserves_bind.
    - destruct (View.currentWl v1); [apply preserves_ret | apply Hbyid].
    - intros _. apply preserves_bind; [apply preserves_getView |].
      intros v'. apply preserves_ret. }
  intros level. apply preserves_getView_bind.
  intros v [trace Hv].
  set (key := RSI.toString _).
  destruct (View.windowLuts v !! key) as [wlut |] eqn:Hhit.
  - apply preserves_bind_ret. cbn [fst snd].
    assert (Hown : ownKey wlut = key) by (by apply (Hv key wlut)).
    destruct level as [level |]; [| apply preserves_throw].
    destruct (negb (WindowLevel.equals level (WindowLut.getWindowLevel wlut)));
      [| apply preserves_ret].
    apply preserves_bind; [by apply wellKeyed_insert |].
    intros _. apply preserves_bind; [| intros _; apply preserves_ret].
    match goal with
    | |- preserves _ (if ?flag then _ else _) => destruct flag
    end; [by apply preserves_fireEvent | apply preserves_ret].
  - apply preserves_bind_then_ret; [apply wellKeyed_addWindowLut |].
    cbn [fst snd].
    destruct level as [level |]; [| apply preserves_throw].
    destruct (negb (WindowLevel.equals level _)); [| apply preserves_ret].
    apply preserves_bind; [by apply wellKeyed_insert |].
    intros _. apply preserves_bind; [| intros _; apply preserves_ret].
    match goal with
    | |- preserves _ (if ?flag then _ else _) => destruct flag
    end; [by apply preserves_fireEvent | apply preserves_ret].
Qed.

Lemma wellKeyed_perform (op : Operation) (w : View.World) :
  wellKeyed w -> wellKeyed (perform op w).
Proof.
  pose proof cacheIs_traceBlind as Hblind.
  pose proof cache_setCurrentIndex as Hindex.
  pose proof cache_setWindowLevel as Hlevel.
  pose proof cache_setWindowLevelPreset as Hpreset.
  intros Hw. destruct op; cbn [perform].
  - apply (preserves_of_cache (View.setOrientation mat33)); [| exact Hw].
    intros img luts. unfold View.setOrientation. preserves_auto.
  - apply (preserves_of_cache View.setInitialIndex); [| exact Hw].
    intros img luts. apply cache_setInitialIndex.
  - apply (preserves_of_cache (View.setCurrentIndex index silent)); [| exact Hw].
    intros img luts. apply cache_setCurrentIndex.
  - apply (preserves_of_cache (View.setCurrentPosition position silent));
      [| exact Hw].
    intros img luts. unfold View.setCurrentPosition. preserves_auto.
  - apply (preserves_of_cache (View.setWindowLevel center width name silent));
      [| exact Hw].
    intros img luts. apply cache_setWindowLevel.
  - apply (preserves_of_cache View.setWindowLevelMinMax); [| exact Hw].
    intros img luts. unfold View.setWindowLevelMinMax. preserves_auto.
  - apply (preserves_of_cache (View.setWindowLevelPreset name silent));
      [| exact Hw].
    intros img luts. apply cache_setWindowLevelPreset.
  - apply (preserves_of_cache (View.setWindowLevelPresetById id silent));
      [| exact Hw].
    intros img luts. apply cache_setWindowLevelPresetById.
  - by apply wellKeyed_getCurrentWindowLut.
  - by apply wellKeyed_addWindowLut.
  - apply (preserves_of_cache (View.addWindowPresets presets)); [| exact Hw].
    intros img luts. apply preserves_forEach. intros entry.
    unfold View.addWindowPreset. preserves_auto.
  - apply (preserves_of_cache (View.setWindowPresets presets)); [| exact Hw].
    intros img luts. unfold View.setWindowPresets. preserves_auto.
Qed.

(** X18. In a view that was created and then driven by any sequence of
    operations, every LUT of the cache sits under the key of the RSI of its
    own RescaleLut. *)
Theorem cache_stays_well_keyed (img : Image.t) (ops : list Operation) :
  forall key lut,
    View.windowLuts
      (View.view (performAll ops (View.mkWorld (View.create img) []))) !! key
    = Some lut ->
    RSI.toString (RescaleLut.getRSI (WindowLut.getRescaleLut lut)) = key.
Proof.
  assert (Hall : forall w, wellKeyed w -> wellKeyed (performAll ops w)).
  { unfold performAll. induction ops as [| op ops IH]; intros w Hw; [exact Hw |].
    cbn [foldl]. apply IH. by apply wellKeyed_perform. }
  apply Hall. intros key lut Hlook. cbn in Hlook.
  by rewrite lookup_empty in Hlook.
Qed.

(** ** The LUT of the level in force *)

Lemma returning_bind {A B : Type} (Pre : View.World -> Prop)
    (Mid : A -> View.World -> Prop) (Post : B -> View.World -> Prop)
    (m : M View.World A) (k : A -> M View.World B) :
  returning Pre m Mid -> (forall a, returning (Mid a) (k a) Post) ->
  returning Pre (bind m k) Post.
Proof.
  intros Hm Hk w Hw. destruct (Hm w Hw) as (a & w1 & Hrun & Hmid).
  destruct (Hk a w1 Hmid) as (b & w' & Hrun' & Hpost).
  exists b, w'. split; [| exact Hpost]. unfold bind. by rewrite Hrun.
Qed.

Lemma returning_ret {A : Type} (Pre : View.World -> Prop) (a : A)
    (Post : A -> View.World -> Prop) :
  (forall w, Pre w -> Post a w) -> returning Pre (ret a) Post.
Proof. intros Hpost w Hw. exists a, w. split; [reflexivity | by apply Hpost]. Qed.

Lemma returning_getView (Pre : View.World -> Prop)
    (Post : View.t -> View.World -> Prop) :
  (forall w, Pre w -> Post (View.view w) w) -> returning Pre View.getView Post.
Proof.
  intros Hpost w Hw. exists (View.view w), w. split; [reflexivity | by apply Hpost].
Qed.

Lemma setCurrentIndex_keeps_levels (index : Index) (silent : option bool)
    (w : View.World) :
  exists b w',
    View.setCurrentIndex index silent w = (Normal b, w')
    /\ View.windowLuts (View.view w') = View.windowLuts (View.view w)
    /\ View.currentWl (View.view w') = View.currentWl (View.view w)
    /\ View.windowPresets (View.view w') = View.windowPresets (View.view w)
    /\ View.currentPresetName (View.view w')
       = View.currentPresetName (View.view w).
Proof.
  unfold View.setCurrentIndex, bind, View.getView.
  destruct (Geometry.isIndexInBounds _ index _); cbn [negb];
    [| by eexists _, _].
  destruct (negb (default false silent)); by eexists _, _.
Qed.

Lemma levelInForce_transfer (level : WindowLevel.t) (w w' : View.World) :
  View.windowLuts (View.view w') = View.windowLuts (View.view w) ->
  View.currentWl (View.view w') = View.currentWl (View.view w) ->
  View.windowPresets (View.view w') = View.windowPresets (View.view w) ->
  View.currentPresetName (View.view w') = View.currentPresetName (View.view w) ->
  levelInForce level w -> levelInForce level w'.
Proof.
  intros Hluts Hwl Hpresets Hname (Hkeyed & Hlevel & Hregular).
  unfold levelInForce, wellKeyed, regularPresetActive.
  by rewrite Hluts, Hwl, Hpresets, Hname.
Qed.

Lemma levelInForce_insert (level : WindowLevel.t) (home : string)
    (wlut : WindowLut.t) (w : View.World) :
  ownKey wlut = home ->
  levelInForce level w ->
  levelInForce level
    (View.withView (fun v =>
       View.setLuts (<[home := wlut]> (View.windowLuts v)) v) w).
Proof.
  intros Hhome (Hkeyed & Hlevel & Hregular). split; [| done].
  by apply (wellKeyed_insert home wlut Hhome w).
Qed.

Lemma levelInForce_fired (level : WindowLevel.t) (v : View.t)
    (trace trace' : list Event) :
  levelInForce level (View.mkWorld v trace) ->
  levelInForce level (View.mkWorld v trace').
Proof. by intros Hw. Qed.

(** What remains of [getCurrentWindowLut] once the LUT is found or made:
    the LUT at [home] of the cache receives the level when it has not got
    it. *)
Lemma returning_store_level (level : WindowLevel.t) (wlut : WindowLut.t)
    (home : string) :
  let lutWl := WindowLut.getWindowLevel wlut in
  let updated := WindowLut.update (WindowLut.setWindowLevel level wlut) in
  returning
    (fun w => levelInForce level w
              /\ View.windowLuts (View.view w) !! home = Some wlut
              /\ ownKey wlut = home)
    (if negb (WindowLevel.equals level lutWl) then
       modify (View.withView (fun v =>
         View.setLuts (<[home := updated]> (View.windowLuts v)) v)) ;;;
       (if match lutWl with
           | None => true
           | Some prev =>
               negb (PrimFloat.eqb (WindowLevel.getWidth prev)
                       (WindowLevel.getWidth level))
               || negb (PrimFloat.eqb (WindowLevel.getCenter prev)
                          (WindowLevel.getCenter level))
           end
        then View.fireEvent (WlChange (WindowLevel.getCenter level)
                               (WindowLevel.getWidth level) true)
        else ret tt) ;;;
       ret updated
     else ret wlut)
    (fun lut w' =>
       View.windowLuts (View.view w') !! ownKey lut = Some lut
       /\ carries lut level /\ levelInForce level w').
Proof.
  intros lutWl updated.
  destruct (WindowLevel.equals level lutWl) eqn:Hsame; cbn [negb].
  - apply returning_ret. intros w (Hw & Hhome & Hown).
    split; [by rewrite Hown |]. split; [by right | exact Hw].
  - intros w (Hw & Hhome & Hown).
    assert (Hown' : ownKey updated = home) by exact Hown.
    unfold bind, modify, ret, View.fireEvent.
    match goal with
    | |- context [if ?flag then _ else _] => destruct flag
    end; eexists _, _; (split; [reflexivity |]);
      cbn [View.view View.withView View.windowLuts View.setLuts];
      (split; [rewrite Hown'; apply lookup_insert_eq |]);
      (split; [by left |]).
    + apply (levelInForce_fired level _ (View.fired w)).
      by apply (levelInForce_insert level home updated w).
    + by apply (levelInForce_insert level home updated w).
Qed.

Lemma returning_getCurrentWindowLut (level : WindowLevel.t)
    (rsi : option RSI.t) :
  returning (levelInForce level) (View.getCurrentWindowLut rsi)
    (fun lut w' =>
       View.windowLuts (View.view w') !! ownKey lut = Some lut
       /\ carries lut level /\ levelInForce level w').
Proof.
  unfold View.getCurrentWindowLut.
  apply (returning_bind _ (fun _ => levelInForce level));
    [by apply returning_getView | intros v0].
  apply (returning_bind _ (fun _ => levelInForce level)).
  { destruct (View.getCurrentIndex v0); [by apply returning_ret |].
    intros w Hw. unfold View.setInitialIndex, bind at 1 2, View.getView.
    destruct (setCurrentIndex_keeps_levels
                (replicate
                   (length (Geometry.getSize
                              (Image.getGeometry (View.image (View.view w))))) 0%Z)
                (Some true) w)
      as (b & w' & Hrun & Hluts & Hwl & Hpresets & Hname).
    rewrite Hrun. exists tt, w'. split; [reflexivity |].
    by apply (levelInForce_transfer level w w'). }
  intros _.
  apply (returning_bind _ (fun v w => levelInForce level w /\ v = View.view w));
    [by apply returning_getView | intros v].
  cbv zeta.
  apply (returning_bind _
           (fun persliceWl w =>
              persliceWl = None /\ levelInForce level w /\ v = View.view w)).
  { intros w [Hw ->]. pose proof Hw as (_ & _ & Hregular).
    unfold regularPresetActive, persliceAt in Hregular.
    destruct (View.currentPresetName (View.view w)) as [presetName |];
      [| by exists None, w].
    destruct (lookupKey presetName (View.windowPresets (View.view w)))
      as [preset |]; [| by exists None, w].
    rewrite Hregular, andb_false_r. by exists None, w. }
  intros persliceWl.
  apply (returning_bind _
           (fun found w => found = Some level /\ levelInForce level w)).
  { intros w (-> & Hw & ->). pose proof Hw as (_ & Hlevel & _).
    rewrite Hlevel. unfold bind, ret, View.getView. exists (Some level), w.
    by rewrite Hlevel. }
  intros found.
  apply (returning_bind _
           (fun v w => found = Some level /\ levelInForce level w
                       /\ v = View.view w)).
  { apply returning_getView. by intros w [Hfound Hw]. }
  intros v2.
  set (key := RSI.toString _).
  apply (returning_bind _
           (fun hit w =>
              found = Some level /\ levelInForce level w
              /\ View.windowLuts (View.view w) !! snd hit = Some (fst hit)
              /\ ownKey (fst hit) = snd hit)).
  { intros w (Hfound & Hw & ->).
    destruct (View.windowLuts (View.view w) !! key) as [wlut |] eqn:Hhit.
    - eexists _, _. split; [reflexivity |]. cbn [fst snd].
      split; [exact Hfound |]. split; [exact Hw |]. split; [exact Hhit |].
      by apply (proj1 Hw key wlut).
    - unfold bind, View.addWindowLut, modify, ret. eexists _, _.
      split; [reflexivity |]. cbn [fst snd].
      split; [exact Hfound |]. split.
      + by apply (levelInForce_insert level _ _ w).
      + split; [apply lookup_insert_eq | reflexivity]. }
  intros [wlut home]. cbn [fst snd].
  destruct found as [level' |]; [| by intros w [[=] _]].
  intros w (Hfound & Hw & Hhome & Hown). injection Hfound as ->.
  by apply (returning_store_level level wlut home w).
Qed.

(** X19. With a level in force, no per-slice preset current and a
    well-keyed cache, [getCurrentWindowLut] returns, for any RSI argument:
    the LUT it returns is the one the cache holds under the LUT's own key,
    it carries the level in force (it was given that level, or the level it
    had compares equal), and the level in force is unchanged. *)
Theorem getCurrentWindowLut_returns_lut_of_level (level : WindowLevel.t)
    (rsi : option RSI.t) (w : View.World) :
  wellKeyed w ->
  View.currentWl (View.view w) = Some level ->
  regularPresetActive (View.view w) ->
  exists lut w',
    View.getCurrentWindowLut rsi w = (Normal lut, w')
    /\ View.windowLuts (View.view w') !! ownKey lut = Some lut
    /\ (WindowLut.getWindowLevel lut = Some level
        \/ WindowLevel.equals level (WindowLut.getWindowLevel lut) = true)
    /\ View.currentWl (View.view w') = Some level
    /\ wellKeyed w'.
Proof.
  intros Hkeyed Hlevel Hregular.
  destruct (returning_getCurrentWindowLut level rsi w)
    as (lut & w' & Hrun & Hcached & Hcarries & Hkeyed' & Hlevel' & _); [done |].
  by exists lut, w'.
Qed.

Lemma getCurrentWindowLut_returns_lut_of_level_witness :
  exists lut w',
    View.getCurrentWindowLut None (View.mkWorld cachedView []) = (Normal lut, w')
    /\ View.windowLuts (View.view w') !! ownKey lut = Some lut
    /\ View.currentWl (View.view w') = Some (WindowLevel.mk 40 400).
Proof.
  destruct (getCurrentWindowLut_returns_lut_of_level (WindowLevel.mk 40 400) None
              (View.mkWorld cachedView []))
    as (lut & w' & Hrun & Hcached & _ & Hlevel & _).
  - intros key lut Hlook. cbn in Hlook.
    apply lookup_singleton_Some in Hlook as [<- <-]. reflexivity.
  - reflexivity.
  - reflexivity.
  - by exists lut, w'.
Defined.

Lemma cache_stays_well_keyed_witness :
  exists lut,
    View.windowLuts
      (View.view
         (performAll
            [GetCurrentWindowLut None; SetWindowLevel 40 400 None None;
             GetCurrentWindowLut (Some (RSI.mk 2 0 "2, 0"))]
            (View.mkWorld (View.create sampleImage) []))) !! "1, 0"
    = Some lut
    /\ RSI.toString (RescaleLut.getRSI (WindowLut.getRescaleLut lut)) = "1, 0".
Proof.
  destruct (View.windowLuts
              (View.view
                 (performAll
                    [GetCurrentWindowLut None; SetWindowLevel 40 400 None None;
                     GetCurrentWindowLut (Some (RSI.mk 2 0 "2, 0"))]
                    (View.mkWorld (View.create sampleImage) []))) !! "1, 0")
    as [lut |] eqn:Hlook.
  - exists lut. split; [reflexivity |].
    exact (cache_stays_well_keyed sampleImage _ "1, 0" lut Hlook).
  - vm_compute in Hlook. discriminate Hlook.
Defined.

(** * Further properties of the stage *)

(** ** Unbinding unwires the stage *)

Section UnbindForeignFacts.

Context {D E : Type}.
Variables b b' : Stage.Binder D E.
Hypothesis b'_foreign : foreign b b'.
Implicit Types (s : Stage.t D E).

Lemma facet_removeEventListener (c : Stage.Closure D E)
    (g : Stage.LayerGroup D E) :
  facet b (Stage.removeEventListener (Stage.getEventType b') c g) = facet b g.
Proof.
  unfold facet, Stage.removeEventListener.
  destruct (Stage.listeners g !! Stage.getEventType b'); [| reflexivity].
  cbn. f_equal. apply lookup_insert_ne, b'_foreign.
Qed.

(** One turn of the loop of [removeEventListeners] for the other binder. *)
Lemma eachPeer_foreign_remove (index i : nat) s :
  is_Some (Stage.callbackStore s) ->
  index < length (Stage.layerGroups s) ->
  exists s',
    eachPeer Stage.removeEventListener index b' i s = (Normal tt, s')
    /\ is_Some (Stage.callbackStore s')
    /\ length (Stage.layerGroups s') = length (Stage.layerGroups s)
    /\ sameFor b s s'.
Proof.
  intros Hstore Hindex. unfold eachPeer.
  destruct (decide (i <> index)) as [Hpeer | Hself].
  - unfold bind at 1, get.
    destruct (lookup_lt_is_Some_2 _ _ Hindex) as [g Hg]. rewrite Hg.
    destruct (getBinderCallback_foreign b b' b'_foreign i s Hstore)
      as (c & s1 & Hrun & Hgroups & Hbinders & Hstore1 & Hframe).
    unfold bind. rewrite Hrun. unfold modify. eexists. split; [reflexivity |].
    cbn [Stage.callbackStore Stage.setLayerGroups Stage.layerGroups].
    split; [exact Hstore1 |]. split; [by rewrite length_alter, Hgroups |].
    split; [done |]. split; [exact Hbinders |]. split; [exact Hframe |].
    cbn [Stage.layerGroups Stage.setLayerGroups]. rewrite Hgroups.
    rewrite (list_fmap_alter _ _ id).
    + by apply list_alter_id.
    + apply Forall_forall. intros g0 _. apply facet_removeEventListener.
  - exists s. split; [reflexivity |]. split; [exact Hstore |].
    split; [reflexivity | apply sameFor_refl].
Qed.

Lemma removeEventListeners_foreign (index : nat) s :
  is_Some (Stage.callbackStore s) ->
  index < length (Stage.layerGroups s) ->
  exists s',
    Stage.removeEventListeners index b' s = (Normal tt, s')
    /\ is_Some (Stage.callbackStore s')
    /\ length (Stage.layerGroups s') = length (Stage.layerGroups s)
    /\ sameFor b s s'.
Proof.
  intros Hstore Hindex.
  destruct (forEach_normal
              (fun s' => is_Some (Stage.callbackStore s')
                         /\ length (Stage.layerGroups s')
                            = length (Stage.layerGroups s)
                         /\ sameFor b s s')
              (eachPeer Stage.removeEventListener index b')
              (seq 0 (length (Stage.layerGroups s))) s)
    as (s' & Hloop & Hs').
  - intros i s1 _ (Hstore1 & Hlen1 & Hsame1).
    destruct (eachPeer_foreign_remove index i s1 Hstore1)
      as (s2 & Hrun & Hstore2 & Hlen2 & Hsame2); [lia |].
    exists s2. split; [exact Hrun |]. split; [exact Hstore2 |].
    split; [congruence |]. by apply (sameFor_trans b s s1 s2).
  - split; [exact Hstore |]. split; [reflexivity | apply sameFor_refl].
  - exists s'. by rewrite removeEventListeners_loop.
Qed.

End UnbindForeignFacts.

Section UnbindFacts.

Context {D E : Type}.
Variable b : Stage.Binder D E.
Implicit Types (s : Stage.t D E).

Lemma stocked_store s : 0 < length (Stage.layerGroups s) -> stocked b s ->
  is_Some (Stage.callbackStore s).
Proof.
  intros Hn Hstocked. destruct (Hstocked 0 Hn) as (c & Hc & _).
  unfold storedClosure in Hc. destruct (Stage.callbackStore s); [done |].
  discriminate.
Qed.

Lemma peerClosures_sameFor (j : nat) s s' :
  length (Stage.layerGroups s') = length (Stage.layerGroups s) ->
  sameFor b s s' -> peerClosures b s' j = peerClosures b s j.
Proof.
  intros Hlen (_ & _ & Hstored & _). unfold peerClosures. rewrite Hlen.
  apply list_omap_ext. apply Forall2_same_length_lookup_2; [done |].
  intros i k k' Hk Hk'. assert (k = k') by congruence. subst k'.
  by rewrite Hstored.
Qed.

Lemma unwiredBelow_sameFor (done : nat) s s' :
  length (Stage.layerGroups s') = length (Stage.layerGroups s) ->
  sameFor b s s' -> unwiredBelow b done s -> unwiredBelow b done s'.
Proof.
  intros Hlen Hsame (Hstocked & Hbelow & Habove).
  pose proof Hsame as (_ & _ & Hstored & Hfacet).
  split; [| split].
  - intros k Hk. rewrite Hstored. apply Hstocked. by rewrite <- Hlen.
  - intros j g' Hj Hg'.
    destruct (facet_lookup b s s' j g' Hfacet Hg') as (g & Hg & Hfg).
    injection Hfg as Hlisten _. rewrite <- Hlisten. by apply (Hbelow j g).
  - intros j g' Hj Hg'.
    destruct (facet_lookup b s s' j g' Hfacet Hg') as (g & Hg & Hfg).
    injection Hfg as Hlisten _.
    rewrite <- Hlisten, (peerClosures_sameFor j s s' Hlen Hsame).
    by apply (Habove j g).
Qed.

Lemma removeEventListeners_stocked (p : nat) (g : Stage.LayerGroup D E) s :
  stocked b s ->
  Stage.layerGroups s !! p = Some g ->
  Stage.listeners g !! Stage.getEventType b = Some (peerClosures b s p) ->
  Stage.removeEventListeners p b s
  = (Normal tt,
     Stage.setLayerGroups
       (<[p := Stage.mkLayerGroup
                 (<[Stage.getEventType b := []]> (Stage.listeners g))
                 (Stage.content g)]> (Stage.layerGroups s))
       s).
Proof.
  intros Hstock Hg Hlisten.
  assert (Hp : p < length (Stage.layerGroups s)).
  { apply lookup_lt_is_Some_1. by exists g. }
  rewrite removeEventListeners_loop, stocked_loop; [| | exact Hp].
  - rewrite (alter_lookup _ _ _ g Hg).
    by rewrite (remove_all_registered _ _ g Hlisten).
  - intros k Hk. destruct (Hstock k Hk) as (c & Hc & _). by exists c.
Qed.

Lemma unbinding_foreign (n : nat) (groups : list D)
    (bs : list (Stage.Binder D E)) (done index : nat)
    (b' : Stage.Binder D E) s :
  foreign b b' -> index < n ->
  unbinding b n groups bs done s ->
  exists s',
    Stage.removeEventListeners index b' s = (Normal tt, s')
    /\ unbinding b n groups bs done s'.
Proof.
  intros Hforeign Hindex (Hunwired & Hlen & Hcontents & Hbinders).
  destruct (removeEventListeners_foreign b b' Hforeign index s)
    as (s' & Hrun & _ & Hlen' & Hsame).
  { apply stocked_store; [lia | apply Hunwired]. }
  { lia. }
  exists s'. split; [exact Hrun |].
  split; [by apply (unwiredBelow_sameFor done s) |].
  split; [congruence |]. destruct Hsame as (_ & Hbs & _ & Hfacet).
  split; [| congruence]. by rewrite (contents_facet b s s').
Qed.

Lemma unbinding_own (n : nat) (groups : list D) (bs : list (Stage.Binder D E))
    (done : nat) s :
  done < n ->
  unbinding b n groups bs done s ->
  exists s',
    Stage.removeEventListeners done b s = (Normal tt, s')
    /\ unbinding b n groups bs (S done) s'.
Proof.
  intros Hdone ((Hstocked & Hbelow & Habove) & Hlen & Hcontents & Hbinders).
  destruct (lookup_lt_is_Some_2 (Stage.layerGroups s) done) as [g Hg]; [lia |].
  eexists. split.
  { apply (removeEventListeners_stocked done g s Hstocked Hg).
    by apply (Habove done g). }
  set (g' := Stage.mkLayerGroup _ _).
  assert (Hsame : forall j, peerClosures b
                    (Stage.setLayerGroups (<[done := g']> (Stage.layerGroups s)) s) j
                  = peerClosures b s j).
  { intros j. unfold peerClosures.
    cbn [Stage.layerGroups Stage.setLayerGroups]. by rewrite length_insert. }
  split; [split; [| split] |].
  - intros k Hk. cbn in Hk. rewrite length_insert in Hk. by apply Hstocked.
  - intros j gj Hj Hgj. cbn [Stage.layerGroups Stage.setLayerGroups] in Hgj.
    destruct (decide (j = done)) as [-> | Hne].
    + rewrite list_lookup_insert_eq in Hgj by lia. injection Hgj as <-.
      subst g'. cbn. apply lookup_insert_eq.
    + rewrite list_lookup_insert_ne in Hgj by done.
      apply (Hbelow j gj); [lia | done].
  - intros j gj Hj Hgj. cbn [Stage.layerGroups Stage.setLayerGroups] in Hgj.
    rewrite list_lookup_insert_ne in Hgj by lia.
    rewrite Hsame. apply (Habove j gj); [lia | done].
  - cbn [Stage.layerGroups Stage.setLayerGroups Stage.binders].
    split; [by rewrite length_insert |]. split; [| exact Hbinders].
    unfold contents. cbn [Stage.layerGroups Stage.setLayerGroups].
    rewrite list_fmap_insert. subst g'. cbn [Stage.content].
    rewrite list_insert_id; [exact Hcontents |].
    by rewrite list_lookup_fmap, Hg.
Qed.

(** The binders of the stage: [b] once, among binders of other types. *)
Variables before after : list (Stage.Binder D E).
Hypothesis before_foreign : Forall (foreign b) before.
Hypothesis after_foreign : Forall (foreign b) after.

Lemma unbinding_group (n : nat) (groups : list D)
    (bs : list (Stage.Binder D E)) (done : nat) s :
  done < n ->
  unbinding b n groups bs done s ->
  exists s',
    forEach (fun b' => Stage.removeEventListeners done b') (before ++ b :: after) s
    = (Normal tt, s')
    /\ unbinding b n groups bs (S done) s'.
Proof.
  intros Hdone Hs.
  destruct (forEach_normal (unbinding b n groups bs done)
              (fun b' => Stage.removeEventListeners done b') before s)
    as (s1 & Hbefore & Hs1); [| exact Hs |].
  { intros b' s0 Hb' Hs0. apply unbinding_foreign; [| done | done].
    by apply (proj1 (Forall_forall _ _) before_foreign). }
  destruct (unbinding_own n groups bs done s1 Hdone Hs1) as (s2 & Hown & Hs2).
  destruct (forEach_normal (unbinding b n groups bs (S done))
              (fun b' => Stage.removeEventListeners done b') after s2)
    as (s3 & Hafter & Hs3); [| exact Hs2 |].
  { intros b' s0 Hb' Hs0. apply unbinding_foreign; [| done | done].
    by apply (proj1 (Forall_forall _ _) after_foreign). }
  exists s3. split; [| exact Hs3].
  rewrite forEach_app. unfold bind at 1. rewrite Hbefore.
  cbn [forEach]. unfold bind at 1. by rewrite Hown.
Qed.

Lemma unbinding_loop (n : nat) (groups : list D) (bs : list (Stage.Binder D E))
    (todo done : nat) s :
  done + todo = n ->
  unbinding b n groups bs done s ->
  exists s',
    forEach
      (fun i => forEach (fun b' => Stage.removeEventListeners i b')
                  (before ++ b :: after))
      (seq done todo) s
    = (Normal tt, s')
    /\ unbinding b n groups bs n s'.
Proof.
  revert done s. induction todo as [| todo IH]; intros done s Hsum Hs.
  - assert (Hdone : done = n) by lia. clear Hsum. subst done. exists s.
    split; [reflexivity | exact Hs].
  - destruct (unbinding_group n groups bs done s ltac:(lia) Hs)
      as (s1 & Hgroup & Hs1).
    destruct (IH (S done) s1 ltac:(lia) Hs1) as (s' & Hloop & Hs').
    exists s'. split; [| exact Hs'].
    cbn [seq forEach]. unfold bind at 1. by rewrite Hgroup.
Qed.

(** [unbindLayerGroups] on a stage that is wired for [b]: no layer group
    listens to the type of [b] any more, the store is gone, and the layer
    groups hold what they held. *)
Lemma unbindLayerGroups_unwires s :
  Stage.binders s = before ++ b :: after ->
  2 <= length (Stage.layerGroups s) ->
  wired b s ->
  exists s',
    Stage.unbindLayerGroups s = (Normal tt, s')
    /\ Stage.callbackStore s' = None
    /\ Stage.binders s' = Stage.binders s
    /\ contents s' = contents s
    /\ length (Stage.layerGroups s') = length (Stage.layerGroups s)
    /\ (forall j g, Stage.layerGroups s' !! j = Some g ->
          Stage.listeners g !! Stage.getEventType b = Some []).
Proof.
  intros Hbinders Hn [Hstock Hlisten].
  destruct (unbinding_loop (length (Stage.layerGroups s)) (contents s)
              (Stage.binders s) (length (Stage.layerGroups s)) 0 s)
    as (s1 & Hloop & (_ & Hbelow & _) & Hlen & Hcontents & Hbs).
  { reflexivity. }
  { split; [| done]. split; [exact Hstock |].
    split; [intros j g Hj; lia |]. intros j g _ Hg. by apply Hlisten. }
  assert (Hstore : is_Some (Stage.callbackStore s)).
  { apply stocked_store; [lia | exact Hstock]. }
  assert (Hunwired : Stage.unwired s = false).
  { unfold Stage.unwired. rewrite Hbinders, length_app. cbn [length].
    destruct (length (Stage.layerGroups s)) as [| [| n]]; [lia | lia |].
    cbn. apply Nat.eqb_neq. lia. }
  exists (Stage.setCallbackStore None s1). split.
  { unfold Stage.unbindLayerGroups, bind at 1, get. rewrite Hunwired.
    destruct Hstore as [store Hstore]. rewrite Hstore. cbn [orb].
    unfold bind. rewrite Hbinders. by rewrite Hloop. }
  split; [reflexivity |]. split; [exact Hbs |]. split; [exact Hcontents |].
  split; [exact Hlen |].
  intros j g Hg. cbn in Hg. apply (Hbelow j g); [| exact Hg].
  rewrite <- Hlen. apply lookup_lt_is_Some_1. by exists g.
Qed.

End UnbindFacts.

(** ** Binding again *)

Section RebindFacts.

Context {D E : Type}.
Variable b : Stage.Binder D E.
Implicit Types (s : Stage.t D E) (c : Stage.Closure D E).

Lemma add_all_deaf (cs : list (Stage.Closure D E)) (g : Stage.LayerGroup D E) :
  deaf b g -> cs <> [] ->
  foldl (fun g c => Stage.addEventListener (Stage.getEventType b) c g) g cs
  = Stage.mkLayerGroup (<[Stage.getEventType b := cs]> (Stage.listeners g))
      (Stage.content g).
Proof.
  unfold deaf. intros Hdeaf Hcs.
  destruct (Stage.listeners g !! Stage.getEventType b) as [registered |] eqn:Hreg.
  - cbn in Hdeaf. subst registered. by rewrite (add_all _ cs [] g Hreg).
  - by apply add_all_first.
Qed.

Lemma deaf_facet (g g' : Stage.LayerGroup D E) :
  facet b g = facet b g' -> deaf b g -> deaf b g'.
Proof. unfold deaf. intros [= Hlisten _]. by rewrite Hlisten. Qed.

(** One turn of the loop of [bindLayerGroups] over the layer groups. *)
Lemma wiringBelow_step (done : nat) s :
  2 <= length (Stage.layerGroups s) ->
  done < length (Stage.layerGroups s) ->
  wiringBelow b done s ->
  exists s',
    Stage.addEventListeners done b s = (Normal tt, s')
    /\ wiringBelow b (S done) s'
    /\ length (Stage.layerGroups s') = length (Stage.layerGroups s)
    /\ contents s' = contents s
    /\ Stage.binders s' = Stage.binders s.
Proof.
  intros Hn Hdone (Hstore & Hsound & Hbelow & Habove).
  destruct (eachPeer_loop b Stage.addEventListener done
              (seq 0 (length (Stage.layerGroups s))) s Hstore Hdone)
    as (s' & cs & Hloop & Hstore' & Hbinders & Hgroups & Hcs & Hmono & Hsound' & _).
  fold (peers (length (Stage.layerGroups s)) done) in Hcs.
  assert (Hlen : length (Stage.layerGroups s') = length (Stage.layerGroups s)).
  { by rewrite Hgroups, length_alter. }
  exists s'. split; [by rewrite addEventListeners_loop |].
  split; [| split; [exact Hlen | split; [| exact Hbinders]]].
  - split; [exact Hstore' |]. split; [by apply Hsound' |]. rewrite Hlen. split.
    + intros j g' Hj Hg'. rewrite Hgroups, list_lookup_alter in Hg'.
      destruct (decide (done = j)) as [<- | Hne].
      * destruct (Stage.layerGroups s !! done) as [g |] eqn:Hg; [| discriminate].
        injection Hg' as <-. exists cs. split; [| exact Hcs].
        rewrite add_all_deaf.
        -- cbn. apply lookup_insert_eq.
        -- by apply (Habove done).
        -- intros ->. apply Forall2_length in Hcs. symmetry in Hcs.
           apply length_zero_iff_nil in Hcs. by apply peers_nonempty in Hcs.
      * destruct (Hbelow j g' ltac:(lia) Hg') as (cs' & Hreg & Hcs').
        exists cs'. split; [exact Hreg |].
        eapply Forall2_impl; [exact Hcs' |]. intros c k Hk. by apply Hmono.
    + intros j g' Hj Hg'. rewrite Hgroups, list_lookup_alter_ne in Hg' by lia.
      apply (Habove j g'); [lia | done].
  - unfold contents. rewrite Hgroups.
    rewrite (list_fmap_alter _ _ id).
    + by apply list_alter_id.
    + apply Forall_forall. intros g _. apply content_foldl_add.
Qed.

Lemma wiringBelow_all s :
  2 <= length (Stage.layerGroups s) ->
  wiringBelow b (length (Stage.layerGroups s)) s -> wired b s.
Proof.
  intros Hn (Hstore & Hsound & Hbelow & _). apply wiredBelow_all; [exact Hn |].
  split; [exact Hstore |]. split; [exact Hsound |]. split; [exact Hbelow |].
  intros j g Hj Hg. apply lookup_lt_Some in Hg. lia.
Qed.

Lemma wiringBelow_sameFor (done : nat) s s' :
  length (Stage.layerGroups s') = length (Stage.layerGroups s) ->
  sameFor b s s' -> wiringBelow b done s -> wiringBelow b done s'.
Proof.
  intros Hlen (Hstore & _ & Hstored & Hfacet) (Hs & Hsound & Hbelow & Habove).
  split; [by apply Hstore |]. split.
  { intros k c Hc. rewrite Hstored in Hc. by apply Hsound. }
  rewrite Hlen. split.
  - intros j g' Hj Hg'.
    destruct (facet_lookup b s s' j g' Hfacet Hg') as (g & Hg & Hsame).
    destruct (Hbelow j g Hj Hg) as (cs & Hcs & Hall).
    exists cs. split.
    + injection Hsame as Hlisten _. by rewrite <- Hlisten.
    + eapply Forall2_impl; [exact Hall |]. intros c k Hk. by rewrite Hstored.
  - intros j g' Hj Hg'.
    destruct (facet_lookup b s s' j g' Hfacet Hg') as (g & Hg & Hsame).
    apply (deaf_facet g g' Hsame). by apply (Habove j g).
Qed.

Lemma rebinding_foreign (n : nat) (groups : list D)
    (bs : list (Stage.Binder D E)) (done index : nat)
    (b' : Stage.Binder D E) s :
  foreign b b' -> index < n ->
  rebinding b n groups bs done s ->
  exists s',
    Stage.addEventListeners index b' s = (Normal tt, s')
    /\ rebinding b n groups bs done s'.
Proof.
  intros Hforeign Hindex (Hwired & Hlen & Hcontents & Hbinders).
  destruct (addEventListeners_foreign b b' Hforeign index s)
    as (s' & Hrun & _ & Hlen' & Hsame); [apply Hwired | lia |].
  exists s'. split; [exact Hrun |].
  split; [by apply (wiringBelow_sameFor done s) |].
  split; [congruence |]. destruct Hsame as (_ & Hbs & _ & Hfacet).
  split; [| congruence]. by rewrite (contents_facet b s s').
Qed.

Lemma rebinding_own (n : nat) (groups : list D) (bs : list (Stage.Binder D E))
    (done : nat) s :
  2 <= n -> done < n ->
  rebinding b n groups bs done s ->
  exists s',
    Stage.addEventListeners done b s = (Normal tt, s')
    /\ rebinding b n groups bs (S done) s'.
Proof.
  intros Hn Hdone (Hwired & Hlen & Hcontents & Hbinders).
  destruct (wiringBelow_step done s) as (s' & Hrun & Hwired' & Hlen' & Hc' & Hb');
    [lia | lia | exact Hwired |].
  exists s'. split; [exact Hrun |]. split; [exact Hwired' |].
  split; [congruence |]. split; congruence.
Qed.

(** The binders of the stage: [b] once, among binders of other types. *)
Variables before after : list (Stage.Binder D E).
Hypothesis before_foreign : Forall (foreign b) before.
Hypothesis after_foreign : Forall (foreign b) after.

Lemma rebinding_group (n : nat) (groups : list D)
    (bs : list (Stage.Binder D E)) (done : nat) s :
  2 <= n -> done < n ->
  rebinding b n groups bs done s ->
  exists s',
    forEach (fun b' => Stage.addEventListeners done b') (before ++ b :: after) s
    = (Normal tt, s')
    /\ rebinding b n groups bs (S done) s'.
Proof.
  intros Hn Hdone Hs.
  destruct (forEach_normal (rebinding b n groups bs done)
              (fun b' => Stage.addEventListeners done b') before s)
    as (s1 & Hbefore & Hs1); [| exact Hs |].
  { intros b' s0 Hb' Hs0. apply rebinding_foreign; [| done | done].
    by apply (proj1 (Forall_forall _ _) before_foreign). }
  destruct (rebinding_own n groups bs done s1 Hn Hdone Hs1) as (s2 & Hown & Hs2).
  destruct (forEach_normal (rebinding b n groups bs (S done))
              (fun b' => Stage.addEventListeners done b') after s2)
    as (s3 & Hafter & Hs3); [| exact Hs2 |].
  { intros b' s0 Hb' Hs0. apply rebinding_foreign; [| done | done].
    by apply (proj1 (Forall_forall _ _) after_foreign). }
  exists s3. split; [| exact Hs3].
  rewrite forEach_app. unfold bind at 1. rewrite Hbefore.
  cbn [forEach]. unfold bind at 1. by rewrite Hown.
Qed.

Lemma rebinding_loop (n : nat) (groups : list D) (bs : list (Stage.Binder D E))
    (todo done : nat) s :
  2 <= n -> done + todo = n ->
  rebinding b n groups bs done s ->
  exists s',
    forEach
      (fun i => forEach (fun b' => Stage.addEventListeners i b')
                  (before ++ b :: after))
      (seq done todo) s
    = (Normal tt, s')
    /\ rebinding b n groups bs n s'.
Proof.
  revert done s. induction todo as [| todo IH]; intros done s Hn Hsum Hs.
  - assert (Hdone : done = n) by lia. clear Hsum. subst done. exists s.
    split; [reflexivity | exact Hs].
  - destruct (rebinding_group n groups bs done s Hn ltac:(lia) Hs)
      as (s1 & Hgroup & Hs1).
    destruct (IH (S done) s1 Hn ltac:(lia) Hs1) as (s' & Hloop & Hs').
    exists s'. split; [| exact Hs'].
    cbn [seq forEach]. unfold bind at 1. by rewrite Hgroup.
Qed.

(** [bindLayerGroups] on a stage of at least two layer groups none of which
    has a listener for the type of [b], whatever the store holds: the stage
    is wired for [b], and the layer groups hold what they held. *)
Lemma bindLayerGroups_rewires s :
  Stage.binders s = before ++ b :: after ->
  2 <= length (Stage.layerGroups s) ->
  (forall j g, Stage.layerGroups s !! j = Some g -> deaf b g) ->
  exists s',
    Stage.bindLayerGroups s = (Normal tt, s')
    /\ wired b s'
    /\ contents s' = contents s
    /\ length (Stage.layerGroups s') = length (Stage.layerGroups s)
    /\ Stage.binders s' = Stage.binders s.
Proof.
  intros Hbinders Hn Hfresh.
  set (s0 := Stage.setCallbackStore
               (Some (replicate (length (Stage.layerGroups s)) None)) s).
  destruct (rebinding_loop (length (Stage.layerGroups s)) (contents s)
              (Stage.binders s) (length (Stage.layerGroups s)) 0 s0)
    as (s' & Hloop & Hwired & Hlen & Hcontents & Hbs).
  { exact Hn. }
  { reflexivity. }
  { split; [| done]. split; [by eexists |]. split.
    - intros k c Hc. unfold storedClosure in Hc. cbn in Hc.
      unfold Stage.arrayGet in Hc.
      destruct (replicate (length (Stage.layerGroups s)) None !! k)
        as [slot |] eqn:Hslot; [| discriminate].
      apply lookup_replicate_1 in Hslot as [-> _]. discriminate.
    - split; [intros j g Hj; lia |]. intros j g _ Hg. by apply (Hfresh j g). }
  exists s'. split.
  - assert (Hunwired : Stage.unwired s = false).
    { unfold Stage.unwired. rewrite Hbinders, length_app. cbn [length].
      destruct (length (Stage.layerGroups s)) as [| [| n]]; [lia | lia |].
      cbn. apply Nat.eqb_neq. lia. }
    unfold Stage.bindLayerGroups, bind, get. rewrite Hunwired, Hbinders.
    exact Hloop.
  - split; [| split; [exact Hcontents | split; [exact Hlen | exact Hbs]]].
    apply wiringBelow_all; rewrite Hlen; [exact Hn | exact Hwired].
Qed.

End RebindFacts.

(** ** Cycles of binding and unbinding *)

Lemma unwired_false {D E : Type} (s : Stage.t D E)
    (b : Stage.Binder D E) (before after : list (Stage.Binder D E)) :
  Stage.binders s = before ++ b :: after ->
  2 <= length (Stage.layerGroups s) ->
  Stage.unwired s = false.
Proof.
  intros Hbinders Hn. unfold Stage.unwired. rewrite Hbinders, length_app.
  cbn [length].
  destruct (length (Stage.layerGroups s)) as [| [| n]]; [lia | lia |].
  cbn. apply Nat.eqb_neq. lia.
Qed.

Lemma wired_isBound {D E : Type} (b : Stage.Binder D E) (s : Stage.t D E) :
  0 < length (Stage.layerGroups s) -> wired b s -> Stage.isBound s = true.
Proof.
  intros Hn [Hstock _]. destruct (Hstock 0 Hn) as (c & Hc & _).
  unfold storedClosure in Hc. unfold Stage.isBound.
  destruct (Stage.callbackStore s) as [store |]; [| discriminate].
  cbn in Hc. unfold Stage.arrayGet in Hc. by destruct store.
Qed.

(** X20. [unbindLayerGroups] on a stage that is wired for a binder (alone or
    among binders of other event types): the call returns, the callback
    store is cleared, no layer group has a listener left for the binder's
    event type, the layer groups hold what they held, and an event of that
    type fired afterwards by any layer group changes nothing. *)
Theorem unbinding_silences_the_binder {D E : Type} (typeOf : E -> string)
    (b : Stage.Binder D E) (before after : list (Stage.Binder D E))
    (s : Stage.t D E) :
  Forall (foreign b) before -> Forall (foreign b) after ->
  Stage.binders s = before ++ b :: after ->
  2 <= length (Stage.layerGroups s) ->
  wired b s ->
  exists unbound,
    Stage.unbindLayerGroups s = (Normal tt, unbound)
    /\ Stage.callbackStore unbound = None
    /\ Stage.binders unbound = Stage.binders s
    /\ contents unbound = contents s
    /\ (forall j g, Stage.layerGroups unbound !! j = Some g ->
          Stage.listeners g !! Stage.getEventType b = Some [])
    /\ (forall fuel index event,
          index < length (Stage.layerGroups s) ->
          typeOf event = Stage.getEventType b ->
          Stage.fireEvent typeOf (S fuel) index event unbound
          = Some (Normal tt, unbound)).
Proof.
  intros Hbefore Hafter Hbinders Hn Hwired.
  destruct (unbindLayerGroups_unwires b before after Hbefore Hafter s
              Hbinders Hn Hwired)
    as (unbound & Hrun & Hstore & Hbs & Hcontents & Hlen & Hsilent).
  exists unbound. split; [exact Hrun |]. split; [exact Hstore |].
  split; [exact Hbs |]. split; [exact Hcontents |]. split; [exact Hsilent |].
  intros fuel index event Hindex Htype.
  destruct (lookup_lt_is_Some_2 (Stage.layerGroups unbound) index) as [g Hg];
    [lia |].
  cbn [Stage.fireEvent]. by rewrite Hg, Htype, (Hsilent index g Hg).
Qed.

Lemma unbinding_silences_the_binder_witness :
  let b := WindowLevelBinder 0 in
  let bound :=
    snd (Stage.bindLayerGroups
           (newStage [layerGroupOf 0; layerGroupOf 0] [b])) in
  exists unbound,
    Stage.unbindLayerGroups bound = (Normal tt, unbound)
    /\ Stage.fireEvent layerEventType 2 0
         (mkLayerEvent 0 (WlChange 40 400 false)) unbound
       = Some (Normal tt, unbound).
Proof.
  cbv zeta.
  destruct (bindLayerGroups_wires (WindowLevelBinder 0) [] []
              (Forall_nil_2 _) (Forall_nil_2 _)
              (newStage [layerGroupOf 0; layerGroupOf 0] [WindowLevelBinder 0]))
    as (bound & Hbind & Hwired & _ & Hlen); [reflexivity | cbn; lia | |].
  { intros j g Hg. cbn in Hg.
    destruct j as [| [| j]]; cbn in Hg; [| | discriminate];
      injection Hg as <-; apply lookup_empty. }
  rewrite Hbind. cbn [snd].
  destruct (unbinding_silences_the_binder layerEventType (WindowLevelBinder 0)
              [] [] bound)
    as (unbound & Hrun & _ & _ & _ & _ & Hfire).
  - constructor.
  - constructor.
  - apply (f_equal snd) in Hbind. cbn [snd] in Hbind. by rewrite <- Hbind.
  - rewrite Hlen. cbn. lia.
  - exact Hwired.
  - exists unbound. split; [exact Hrun |]. apply Hfire; [| reflexivity].
    rewrite Hlen. cbn. lia.
Defined.

(** X21. The bracket [unbindLayerGroups] ... [bindLayerGroups] that the
    application puts around the addition of a view layer: starting from a
    wired stage, with the content of one layer group changed in between,
    both calls return and the stage is wired again for the binder, with the
    changed content and the same binders. *)
Theorem rebinding_restores_the_wiring {D E : Type}
    (b : Stage.Binder D E) (before after : list (Stage.Binder D E))
    (s : Stage.t D E) (index : nat) (edit : D -> D) :
  Forall (foreign b) before -> Forall (foreign b) after ->
  Stage.binders s = before ++ b :: after ->
  2 <= length (Stage.layerGroups s) ->
  wired b s ->
  exists unbound rebound,
    Stage.unbindLayerGroups s = (Normal tt, unbound)
    /\ Stage.bindLayerGroups
         (Stage.setLayerGroups
            (alter (fun g =>
                      Stage.mkLayerGroup (Stage.listeners g)
                        (edit (Stage.content g)))
               index (Stage.layerGroups unbound))
            unbound)
       = (Normal tt, rebound)
    /\ wired b rebound
    /\ contents rebound = alter edit index (contents s)
    /\ Stage.binders rebound = Stage.binders s.
Proof.
  intros Hbefore Hafter Hbinders Hn Hwired.
  destruct (unbindLayerGroups_unwires b before after Hbefore Hafter s
              Hbinders Hn Hwired)
    as (unbound & Hrun & Hstore & Hbs & Hcontents & Hlen & Hsilent).
  set (mid := Stage.setLayerGroups
                (alter (fun g =>
                          Stage.mkLayerGroup (Stage.listeners g)
                            (edit (Stage.content g)))
                   index (Stage.layerGroups unbound))
                unbound).
  destruct (bindLayerGroups_rewires b before after Hbefore Hafter mid)
    as (rebound & Hbind & Hwired' & Hcontents' & _ & Hbs').
  { subst mid. cbn. congruence. }
  { subst mid. cbn. rewrite length_alter. lia. }
  { intros j g Hg. subst mid. cbn in Hg. rewrite list_lookup_alter in Hg.
    unfold deaf. destruct (decide (index = j)) as [-> | Hne].
    - destruct (Stage.layerGroups unbound !! j) as [g0 |] eqn:Hg0;
        [| discriminate].
      injection Hg as <-. cbn. by rewrite (Hsilent j g0 Hg0).
    - by rewrite (Hsilent j g Hg). }
  exists unbound, rebound. split; [exact Hrun |]. split; [exact Hbind |].
  split; [exact Hwired' |]. split.
  - rewrite Hcontents', <- Hcontents. subst mid. unfold contents.
    cbn [Stage.layerGroups Stage.setLayerGroups].
    by apply list_fmap_alter, Forall_forall.
  - rewrite Hbs'. subst mid. cbn. exact Hbs.
Qed.

Lemma sample_bound :
  exists bound,
    Stage.bindLayerGroups
      (newStage [layerGroupOf 0; layerGroupOf 0] [WindowLevelBinder 0])
    = (Normal tt, bound)
    /\ wired (WindowLevelBinder 0) bound
    /\ contents bound = [layerGroupOf 0; layerGroupOf 0]
    /\ length (Stage.layerGroups bound) = 2
    /\ Stage.binders bound = [WindowLevelBinder 0].
Proof.
  destruct (bindLayerGroups_rewires (WindowLevelBinder 0) [] []
              (Forall_nil_2 _) (Forall_nil_2 _)
              (newStage [layerGroupOf 0; layerGroupOf 0] [WindowLevelBinder 0]))
    as (bound & Hbind & Hwired & Hcontents & Hlen & Hbs);
    [reflexivity | cbn; lia | |].
  { intros j g Hg. cbn in Hg.
    destruct j as [| [| j]]; cbn in Hg; [| | discriminate];
      injection Hg as <-; reflexivity. }
  by exists bound.
Qed.

Lemma rebinding_restores_the_wiring_witness :
  let b := WindowLevelBinder 0 in
  let bound :=
    snd (Stage.bindLayerGroups
           (newStage [layerGroupOf 0; layerGroupOf 0] [b])) in
  exists rebound,
    Stage.bindLayerGroups (snd (Stage.unbindLayerGroups bound))
    = (Normal tt, rebound)
    /\ wired b rebound
    /\ contents rebound = [layerGroupOf 0; layerGroupOf 0].
Proof.
  cbv zeta. destruct sample_bound as (bound & Hbind & Hwired & Hc & Hlen & Hbs).
  rewrite Hbind. cbn [snd].
  destruct (rebinding_restores_the_wiring (WindowLevelBinder 0) [] [] bound 0 id)
    as (unbound & rebound & Hunbind & Hrebind & Hwired' & Hcontents & _).
  - constructor.
  - constructor.
  - exact Hbs.
  - lia.
  - exact Hwired.
  - exists rebound. rewrite Hunbind. cbn [snd].
    assert (Hid : Stage.setLayerGroups
                    (alter (fun g => Stage.mkLayerGroup (Stage.listeners g)
                                       (id (Stage.content g)))
                       0 (Stage.layerGroups unbound)) unbound
                  = unbound).
    { destruct unbound as [groups bs store next]. unfold Stage.setLayerGroups.
      cbn. f_equal. apply list_alter_id. by intros []. }
    rewrite Hid in Hrebind. split; [exact Hrebind |]. split; [exact Hwired' |].
    rewrite Hcontents, Hc. reflexivity.
Defined.

(** ** Adding a layer group, setting the binders *)

(** X22. [addLayerGroup] returns the new layer group, last in the list.
    On a stage without callback store it only appends the layer group: it
    never binds, even when binders are set. On a wired stage it unbinds,
    appends and binds again: the stage is wired for the binder with the new
    layer group included. *)
Theorem addLayerGroup_keeps_the_binding {D E : Type}
    (b : Stage.Binder D E) (before after : list (Stage.Binder D E))
    (s : Stage.t D E) (d : D) :
  Forall (foreign b) before -> Forall (foreign b) after ->
  Stage.binders s = before ++ b :: after ->
  (Stage.callbackStore s = None ->
   Stage.addLayerGroup d s
   = (Normal (length (Stage.layerGroups s)),
      Stage.setLayerGroups
        (Stage.layerGroups s ++ [Stage.mkLayerGroup ∅ d]) s))
  /\ (2 <= length (Stage.layerGroups s) -> wired b s ->
      exists s',
        Stage.addLayerGroup d s = (Normal (length (Stage.layerGroups s)), s')
        /\ wired b s'
        /\ contents s' = contents s ++ [d]
        /\ Stage.binders s' = Stage.binders s).
Proof.
  intros Hbefore Hafter Hbinders. split.
  - intros Hnone.
    unfold Stage.addLayerGroup, bind, get, modify, ret, Stage.isBound.
    by rewrite Hnone.
  - intros Hn Hwired.
    destruct (unbindLayerGroups_unwires b before after Hbefore Hafter s
                Hbinders Hn Hwired)
      as (unbound & Hrun & Hstore & Hbs & Hcontents & Hlen & Hsilent).
    set (mid := Stage.setLayerGroups
                  (Stage.layerGroups unbound ++ [Stage.mkLayerGroup ∅ d])
                  unbound).
    destruct (bindLayerGroups_rewires b before after Hbefore Hafter mid)
      as (s' & Hbind & Hwired' & Hcontents' & _ & Hbs').
    { subst mid. cbn. congruence. }
    { subst mid. cbn. rewrite length_app. lia. }
    { intros j g Hg. subst mid. cbn in Hg. unfold deaf.
      apply lookup_app_Some in Hg as [Hg | [_ Hg]].
      - by rewrite (Hsilent j g Hg).
      - apply list_lookup_singleton_Some in Hg as [_ <-]. reflexivity. }
    exists s'. split.
    + unfold Stage.addLayerGroup, bind at 1, get.
      rewrite (wired_isBound b s) by (lia || done).
      unfold bind at 1. rewrite Hrun. unfold bind at 1, modify.
      fold mid. unfold bind, ret. by rewrite Hbind.
    + split; [exact Hwired' |]. split.
      * rewrite Hcontents', <- Hcontents. subst mid. unfold contents.
        cbn [Stage.layerGroups Stage.setLayerGroups]. by rewrite fmap_app.
      * rewrite Hbs'. subst mid. cbn. exact Hbs.
Qed.

Lemma addLayerGroup_keeps_the_binding_witness :
  let b := WindowLevelBinder 0 in
  let bound :=
    snd (Stage.bindLayerGroups
           (newStage [layerGroupOf 0; layerGroupOf 0] [b])) in
  exists s',
    Stage.addLayerGroup (layerGroupOf 1) bound = (Normal 2, s')
    /\ wired b s'
    /\ contents s' = [layerGroupOf 0; layerGroupOf 0; layerGroupOf 1].
Proof.
  cbv zeta. destruct sample_bound as (bound & Hbind & Hwired & Hc & Hlen & Hbs).
  rewrite Hbind. cbn [snd].
  destruct (addLayerGroup_keeps_the_binding (WindowLevelBinder 0) [] [] bound
              (layerGroupOf 1) (Forall_nil_2 _) (Forall_nil_2 _) Hbs)
    as [_ Hadd].
  destruct Hadd as (s' & Hrun & Hwired' & Hcontents & _); [lia | exact Hwired |].
  exists s'. rewrite Hlen in Hrun. split; [exact Hrun |].
  split; [exact Hwired' |]. by rewrite Hcontents, Hc.
Defined.



(** ** The store and the shape of the stage *)

Section Maintenance.

Context {S : Type}.
Variable I : S -> Prop.

Lemma maintains_ret {A : Type} (a : A) : maintains I (ret a).
Proof. intros s Hs. exact Hs. Qed.

Lemma maintains_throw {A : Type} (msg : string) : maintains I (@throw S A msg).
Proof. intros s Hs. exact Hs. Qed.

Lemma maintains_modify (f : S -> S) :
  (forall s, I s -> I (f s)) -> maintains I (modify f).
Proof. intros Hf s Hs. by apply Hf. Qed.

Lemma maintains_bind {A B : Type} (m : M S A) (k : A -> M S B) :
  maintains I m -> (forall a, maintains I (k a)) -> maintains I (bind m k).
Proof.
  intros Hm Hk s Hs. unfold bind. specialize (Hm s Hs).
  destruct (m s) as [[a | msg] s1]; cbn [snd] in *; [by apply Hk | exact Hm].
Qed.

Lemma maintains_get_bind {B : Type} (k : S -> M S B) :
  (forall s0, I s0 -> maintains I (k s0)) -> maintains I (bind get k).
Proof. intros Hk s Hs. unfold bind, get. by apply Hk. Qed.

Lemma maintains_forEach {A : Type} (body : A -> M S unit) (l : list A) :
  (forall x, maintains I (body x)) -> maintains I (forEach body l).
Proof.
  intros Hbody. induction l as [| x l IH]; cbn [forEach].
  - apply maintains_ret.
  - apply maintains_bind; [apply Hbody | intros _; exact IH].
Qed.

End Maintenance.

Section ShapeFacts.

Context {D E : Type}.
Variable n : nat.
Variable bs : list (Stage.Binder D E).
Implicit Types (b : Stage.Binder D E) (s : Stage.t D E).

Lemma shaped_getBinderCallback b (k : nat) :
  maintains (shaped n bs) (Stage.getBinderCallback b k).
Proof.
  unfold Stage.getBinderCallback. apply maintains_get_bind. intros s0 _.
  destruct (Stage.callbackStore s0) as [store |]; [| apply maintains_throw].
  cbv zeta. destruct (find _ _).
  - apply maintains_bind; [| intros _; apply maintains_ret].
    by apply maintains_modify.
  - apply maintains_bind; [| intros _; apply maintains_ret].
    by apply maintains_modify.
Qed.

Lemma shaped_eachPeer
    (op : string -> Stage.Closure D E -> Stage.LayerGroup D E -> Stage.LayerGroup D E)
    (index : nat) b (i : nat) :
  maintains (shaped n bs) (eachPeer op index b i).
Proof.
  unfold eachPeer. destruct (decide (i <> index)); [| apply maintains_ret].
  apply maintains_get_bind. intros s0 _.
  destruct (Stage.layerGroups s0 !! index); [| apply maintains_throw].
  apply maintains_bind; [apply shaped_getBinderCallback | intros cb].
  apply maintains_modify. intros s [Hlen Hbs]. split; [| exact Hbs].
  cbn. by rewrite length_alter.
Qed.

Lemma shaped_addEventListeners (index : nat) b :
  maintains (shaped n bs) (Stage.addEventListeners index b).
Proof.
  intros s Hs. rewrite addEventListeners_loop.
  by apply maintains_forEach; [intros i; apply shaped_eachPeer |].
Qed.

Lemma shaped_removeEventListeners (index : nat) b :
  maintains (shaped n bs) (Stage.removeEventListeners index b).
Proof.
  intros s Hs. rewrite removeEventListeners_loop.
  by apply maintains_forEach; [intros i; apply shaped_eachPeer |].
Qed.

Lemma shaped_bindLayerGroups : maintains (shaped n bs) Stage.bindLayerGroups.
Proof.
  unfold Stage.bindLayerGroups. apply maintains_get_bind. intros s0 _.
  destruct (Stage.unwired s0); [apply maintains_ret |].
  apply maintains_bind; [by apply maintains_modify | intros _].
  apply maintains_forEach. intros i. apply maintains_forEach. intros b.
  apply shaped_addEventListeners.
Qed.

Lemma shaped_unbindLayerGroups : maintains (shaped n bs) Stage.unbindLayerGroups.
Proof.
  unfold Stage.unbindLayerGroups. apply maintains_get_bind. intros s0 _.
  destruct (_ || _); [apply maintains_ret |].
  apply maintains_bind; [| intros _; by apply maintains_modify].
  apply maintains_forEach. intros i. apply maintains_forEach. intros b.
  apply shaped_removeEventListeners.
Qed.

End ShapeFacts.

Section GuardFacts.

Context {D E : Type}.
Implicit Types (s : Stage.t D E).

Lemma unwired_shaped s s' :
  shaped (length (Stage.layerGroups s)) (Stage.binders s) s' ->
  Stage.unwired s' = Stage.unwired s.
Proof. intros [Hlen Hbs]. unfold Stage.unwired. by rewrite Hlen, Hbs. Qed.

Lemma guarded_bindLayerGroups s :
  storeGuarded s -> storeGuarded (snd (Stage.bindLayerGroups s)).
Proof.
  intros Hs.
  assert (Hshape : shaped (length (Stage.layerGroups s)) (Stage.binders s)
                     (snd (Stage.bindLayerGroups s))).
  { by apply shaped_bindLayerGroups. }
  destruct (Stage.unwired s) eqn:Hunwired.
  - unfold Stage.bindLayerGroups, bind, get. by rewrite Hunwired.
  - intros _. by rewrite (unwired_shaped s _ Hshape).
Qed.

(** On a guarded stage [unbindLayerGroups] returns, and no store is left. *)
Lemma unbindLayerGroups_guarded s :
  storeGuarded s ->
  exists s',
    Stage.unbindLayerGroups s = (Normal tt, s')
    /\ Stage.callbackStore s' = None
    /\ shaped (length (Stage.layerGroups s)) (Stage.binders s) s'.
Proof.
  intros Hs.
  assert (Hshape : shaped (length (Stage.layerGroups s)) (Stage.binders s)
                     (snd (Stage.unbindLayerGroups s))).
  { by apply shaped_unbindLayerGroups. }
  destruct (Stage.callbackStore s) as [store |] eqn:Hstore.
  - destruct (unbindLayerGroups_clears s) as (s' & Hrun & Hnone);
      [apply Hs; by rewrite Hstore | by rewrite Hstore |].
    exists s'. rewrite Hrun in Hshape. by rewrite Hrun.
  - exists s. split; [| by split].
    unfold Stage.unbindLayerGroups, bind, get. rewrite Hstore.
    by rewrite orb_true_r.
Qed.

Lemma guarded_none s : Stage.callbackStore s = None -> storeGuarded s.
Proof. intros Hnone [store Hstore]. congruence. Qed.

Lemma guarded_performCall (call : StageCall D E) s :
  storeGuarded s -> storeGuarded (performCall call s).
Proof.
  intros Hs. destruct call as [| | d | [list |] |]; cbn [performCall].
  - by apply guarded_bindLayerGroups.
  - destruct (unbindLayerGroups_guarded s Hs) as (s' & Hrun & Hnone & _).
    rewrite Hrun. by apply guarded_none.
  - unfold Stage.addLayerGroup, bind at 1, get.
    destruct (Stage.isBound s) eqn:Hbound.
    + destruct (unbindLayerGroups_guarded s Hs) as (s' & Hrun & Hnone & _).
      unfold bind at 1. rewrite Hrun. unfold bind at 1, modify.
      set (mid := Stage.setLayerGroups _ s').
      assert (Hmid : storeGuarded (snd (Stage.bindLayerGroups mid))).
      { apply guarded_bindLayerGroups. by apply guarded_none. }
      unfold bind, ret. by destruct (Stage.bindLayerGroups mid) as [[[] | msg] s2].
    + unfold bind, ret, modify. cbn [snd]. intros Hstore.
      specialize (Hs Hstore). unfold Stage.unwired in *.
      cbn [Stage.layerGroups Stage.setLayerGroups Stage.binders].
      rewrite length_app. cbn [length].
      destruct (length (Stage.layerGroups s)) as [| [| m]]; [done | done |].
      cbn in *. exact Hs.
  - unfold Stage.setBinders, bind at 1, get.
    assert (Hmid : exists s1,
              (if negb (Nat.eqb (length (Stage.binders s)) 0)
               then Stage.unbindLayerGroups else ret tt) s = (Normal tt, s1)
              /\ Stage.callbackStore s1 = None).
    { destruct (Nat.eqb (length (Stage.binders s)) 0) eqn:Hlen; cbn [negb].
      - exists s. split; [reflexivity |].
        destruct (Stage.callbackStore s) as [store |] eqn:Hstore; [| done].
        assert (Hfalse : Stage.unwired s = false) by (apply Hs; by rewrite Hstore).
        unfold Stage.unwired in Hfalse. rewrite Hlen in Hfalse.
        by rewrite !orb_true_r in Hfalse.
      - destruct (unbindLayerGroups_guarded s Hs) as (s' & Hrun & Hnone & _).
        by exists s'. }
    destruct Hmid as (s1 & Hrun & Hnone).
    unfold bind at 1. rewrite Hrun. unfold bind, modify.
    apply guarded_bindLayerGroups. by apply guarded_none.
  - exact Hs.
  - unfold Stage.empty, bind.
    destruct (unbindLayerGroups_guarded s Hs) as (s' & Hrun & Hnone & _).
    rewrite Hrun. unfold modify. cbn [snd]. by apply guarded_none.
Qed.

End GuardFacts.

(** X24. Starting without callback store, whatever the sequence of
    [bindLayerGroups], [unbindLayerGroups], [addLayerGroup], [setBinders]
    and [empty], returning or throwing: whenever a callback store is in
    place, the stage has at least two layer groups and at least one
    binder. *)
Theorem store_lives_only_on_wirable_stage {D E : Type}
    (calls : list (StageCall D E)) (s : Stage.t D E) :
  let s' := foldl (fun s call => performCall call s) s calls in
  Stage.callbackStore s = None ->
  is_Some (Stage.callbackStore s') ->
  2 <= length (Stage.layerGroups s') /\ Stage.binders s' <> [].
Proof.
  cbv zeta. intros Hnone.
  assert (Hguarded : storeGuarded
                       (foldl (fun s call => performCall call s) s calls)).
  { apply guarded_none in Hnone. revert s Hnone.
    induction calls as [| call calls IH]; intros s Hs; [exact Hs |].
    cbn [foldl]. apply IH. by apply guarded_performCall. }
  intros Hstore. specialize (Hguarded Hstore). unfold Stage.unwired in Hguarded.
  apply orb_false_elim in Hguarded as [Hgroups Hbinders].
  apply orb_false_elim in Hgroups as [Hzero Hone].
  apply Nat.eqb_neq in Hzero, Hone, Hbinders. split; [lia |].
  intros Hnil. by rewrite Hnil in Hbinders.
Qed.

Lemma store_lives_only_on_wirable_stage_witness :
  let s' :=
    foldl (fun s call => performCall call s)
      (newStage [] [])
      [SetBinders (Some [WindowLevelBinder 0]); AddLayerGroup (layerGroupOf 0);
       AddLayerGroup (layerGroupOf 0); BindLayerGroups;
       AddLayerGroup (layerGroupOf 1)] in
  2 <= length (Stage.layerGroups s') /\ Stage.binders s' <> [].
Proof.
  apply (store_lives_only_on_wirable_stage
           [SetBinders (Some [WindowLevelBinder 0]); AddLayerGroup (layerGroupOf 0);
            AddLayerGroup (layerGroupOf 0); BindLayerGroups;
            AddLayerGroup (layerGroupOf 1)]
           (newStage [] [])).
  - reflexivity.
  - vm_compute. by eexists.
Defined.

(** X25. [empty], on a stage whose callback store, if any, goes with at
    least two layer groups and one binder: the call returns, no layer group
    and no callback store are left, and the binders stay. *)
Theorem empty_forgets_everything {D E : Type} (s : Stage.t D E) :
  (is_Some (Stage.callbackStore s) ->
   2 <= length (Stage.layerGroups s) /\ Stage.binders s <> []) ->
  exists s',
    Stage.empty s = (Normal tt, s')
    /\ Stage.layerGroups s' = []
    /\ Stage.callbackStore s' = None
    /\ Stage.binders s' = Stage.binders s.
Proof.
  intros Hs.
  assert (Hguarded : storeGuarded s).
  { intros Hstore. destruct (Hs Hstore) as [Hn Hbs]. unfold Stage.unwired.
    destruct (Stage.binders s); [done |].
    destruct (length (Stage.layerGroups s)) as [| [| n]]; [lia | lia | done]. }
  destruct (unbindLayerGroups_guarded s Hguarded) as (s' & Hrun & Hnone & _ & Hbs).
  eexists. unfold Stage.empty, bind, modify. rewrite Hrun.
  split; [reflexivity |]. split; [reflexivity |]. by split.
Qed.

Lemma empty_forgets_everything_witness :
  let bound :=
    snd (Stage.bindLayerGroups
           (newStage [layerGroupOf 0; layerGroupOf 0] [WindowLevelBinder 0])) in
  exists s',
    Stage.empty bound = (Normal tt, s')
    /\ Stage.layerGroups s' = []
    /\ Stage.callbackStore s' = None.
Proof.
  cbv zeta.
  destruct (empty_forgets_everything
              (snd (Stage.bindLayerGroups
                      (newStage [layerGroupOf 0; layerGroupOf 0]
                         [WindowLevelBinder 0]))))
    as (s' & Hrun & Hgroups & Hstore & _).
  - intros _. split; [vm_compute; lia | discriminate].
  - by exists s'.
Defined.

(** ** Dispatch on a wired stage, for any binder *)

Lemma wired_syncPeers {D E : Type} (b : Stage.Binder D E) (event : E)
    (ks : list nat) (s : Stage.t D E) :
  wired b s ->
  wired b (Stage.setLayerGroups (syncPeers b event ks (Stage.layerGroups s)) s).
Proof.
  revert s. induction ks as [| k ks IH]; intros s Hwired.
  - cbn. by destruct s.
  - apply (wired_changeContent b event k) in Hwired. apply IH in Hwired.
    exact Hwired.
Qed.

(** X26. Dispatch on a wired stage, for any binder whose callback makes its
    target fire only events of the binder's own type: an event of that type
    fired by a layer group returns with two levels of nesting, each other
    layer group has received the binder's callback exactly once, the source
    holds what it held, and the listeners, the callback store and the wiring
    are as before. *)
Theorem dispatch_applies_binder_once_per_peer {D E : Type}
    (typeOf : E -> string) (b : Stage.Binder D E) (s : Stage.t D E)
    (fuel index : nat) (event : E) :
  echoesOwnType typeOf b ->
  wired b s ->
  index < length (Stage.layerGroups s) ->
  typeOf event = Stage.getEventType b ->
  2 <= fuel ->
  exists s',
    Stage.fireEvent typeOf fuel index event s = Some (Normal tt, s')
    /\ wired b s'
    /\ Stage.callbackStore s' = Stage.callbackStore s
    /\ Stage.listeners <$> Stage.layerGroups s'
       = Stage.listeners <$> Stage.layerGroups s
    /\ (forall p g, Stage.layerGroups s !! p = Some g ->
          Stage.layerGroups s' !! p
          = Some (if decide (p = index) then g
                  else Stage.mkLayerGroup (Stage.listeners g)
                         (fst (Stage.getCallback b (Stage.content g) event)))).
Proof.
  intros Hechoes Hwired Hindex Htype Hfuel.
  destruct fuel as [| [| fuel]]; [lia | lia |].
  eexists. split.
  { by apply (fireEvent_wired typeOf b Hechoes fuel index event s). }
  split; [by apply wired_syncPeers |]. split; [reflexivity |].
  split; [apply listeners_syncPeers |].
  intros p g Hg. cbn [Stage.layerGroups Stage.setLayerGroups].
  rewrite syncPeers_lookup by apply peers_NoDup. rewrite Hg.
  destruct (decide (p = index)) as [-> | Hne].
  - rewrite decide_False; [done |]. intros Hin. apply elem_of_peers in Hin. lia.
  - rewrite decide_True; [done |]. apply elem_of_peers. split; [| done].
    apply lookup_lt_is_Some_1. by exists g.
Qed.

Lemma dispatch_applies_binder_once_per_peer_witness :
  let b := WindowLevelBinder 0 in
  let bound :=
    snd (Stage.bindLayerGroups
           (newStage [layerGroupOf 0; layerGroupOf 0] [b])) in
  exists s',
    Stage.fireEvent layerEventType 2 1 (mkLayerEvent 0 (WlChange 40 400 false))
      bound
    = Some (Normal tt, s')
    /\ wired b s'.
Proof.
  cbv zeta. destruct sample_bound as (bound & Hbind & Hwired & Hc & Hlen & Hbs).
  rewrite Hbind. cbn [snd].
  destruct (dispatch_applies_binder_once_per_peer layerEventType
              (WindowLevelBinder 0) bound 2 1
              (mkLayerEvent 0 (WlChange 40 400 false)))
    as (s' & Hfire & Hwired' & _).
  - apply windowLevelBinder_echoesOwnType.
  - exact Hwired.
  - lia.
  - reflexivity.
  - lia.
  - by exists s'.
Defined.

(** ** The common fit scale *)

Lemma SFltb_irrefl (f : SpecFloat.spec_float) : SpecFloat.SFltb f f = false.
Proof.
  unfold SpecFloat.SFltb, SpecFloat.SFcompare.
  destruct f as [s | s | | s m e]; try destruct s;
    rewrite ?Z.compare_refl, ?Pos.compare_cont_refl; reflexivity.
Qed.

Lemma SFltb_trans (x y z : SpecFloat.spec_float) :
  SpecFloat.SFltb x y = true -> SpecFloat.SFltb y z = true ->
  SpecFloat.SFltb x z = true.
Proof.
  unfold SpecFloat.SFltb.
  destruct x as [sx | sx | | sx mx ex], y as [sy | sy | | sy my ey],
    z as [sz | sz | | sz mz ez]; cbn;
    try destruct sx; try destruct sy; try destruct sz;
    try discriminate; try reflexivity;
    change (Pos.compare_cont Eq mx my) with (mx ?= my)%positive;
    change (Pos.compare_cont Eq my mz) with (my ?= mz)%positive;
    change (Pos.compare_cont Eq mx mz) with (mx ?= mz)%positive;
    destruct (Z.compare_spec ex ey), (Z.compare_spec ey ez),
      (Z.compare_spec ex ez);
    try discriminate; try reflexivity; try lia;
    destruct (Pos.compare_spec mx my), (Pos.compare_spec my mz),
      (Pos.compare_spec mx mz);
    cbn; try discriminate; try reflexivity; try lia.
Qed.

Lemma float_ltb_irrefl (x : float) : PrimFloat.ltb x x = false.
Proof. rewrite FloatAxioms.ltb_spec. apply SFltb_irrefl. Qed.

(** A number that is not below the smallest so far is not below a smaller
    one. *)
Lemma float_not_below (x y m : float) :
  PrimFloat.ltb x m = false -> PrimFloat.ltb y m = true ->
  PrimFloat.ltb x y = false.
Proof.
  rewrite !FloatAxioms.ltb_spec. intros Hx Hy.
  apply not_true_is_false. intros Hxy.
  by rewrite (SFltb_trans _ _ _ Hxy Hy) in Hx.
Qed.

Section FitScaleFacts.

Context {D E : Type}.
Variable calculateFitScale : D -> option float.
Variable setFitScale : float -> D -> D.
Implicit Types (s : Stage.t D E) (g : Stage.LayerGroup D E).

Local Abbreviation fit := (fitScaleOf (E := E) calculateFitScale).
Local Abbreviation scan := (Stage.scanFitScales (E := E) calculateFitScale).

Lemma scan_snoc (groups : list (Stage.LayerGroup D E)) g :
  scan (groups ++ [g])
  = Stage.scanFitScale calculateFitScale (scan groups) (length groups, g).
Proof.
  unfold Stage.scanFitScales. rewrite length_app. cbn [length].
  rewrite seq_app. cbn [seq Nat.add].
  rewrite zip_with_app by (by rewrite length_seq).
  by rewrite foldl_app.
Qed.

(** What the first loop leaves: the indices of the layer groups that have a
    fit scale and, when there is one, a fit scale that none is below. *)
Lemma scan_spec (groups : list (Stage.LayerGroup D E)) :
  (forall j, j ∈ snd (scan groups)
             <-> exists g, groups !! j = Some g /\ is_Some (fit g))
  /\ match fst (scan groups) with
     | None => forall j g, groups !! j = Some g -> fit g = None
     | Some m =>
         (exists k gk, groups !! k = Some gk /\ fit gk = Some m)
         /\ forall j g scale, groups !! j = Some g -> fit g = Some scale ->
              PrimFloat.ltb scale m = false
     end.
Proof.
  induction groups as [| g groups IH] using rev_ind.
  - split.
    + intros j. cbn. split; [by intros Hin%not_elem_of_nil |].
      by intros (g & Hg & _).
    + cbn. by intros j g Hg.
  - destruct IH as [Hhas Hmin]. rewrite scan_snoc.
    unfold Stage.scanFitScale. cbn [fst snd].
    assert (Hlast : (groups ++ [g]) !! length groups = Some g).
    { by rewrite lookup_app_r, Nat.sub_diag. }
    assert (Hcases : forall j g', (groups ++ [g]) !! j = Some g' ->
              groups !! j = Some g' \/ j = length groups /\ g' = g).
    { intros j g' Hg'. apply lookup_app_Some in Hg' as [Hg' | [Hj Hg']];
        [by left | right].
      apply list_lookup_singleton_Some in Hg' as [Hzero <-].
      split; [lia | done]. }
    destruct (calculateFitScale (Stage.content g)) as [scale |] eqn:Hfit.
    + split.
      * intros j. cbn [snd]. rewrite elem_of_app, list_elem_of_singleton, Hhas.
        split.
        -- intros [(g' & Hg' & Hsome) | ->].
           ++ exists g'. split; [by apply lookup_app_l_Some | done].
           ++ exists g. split; [exact Hlast | by exists scale].
        -- intros (g' & Hg' & Hsome).
           destruct (Hcases j g' Hg') as [Hold | [-> _]]; [left | by right].
           by exists g'.
      * cbn [fst]. destruct (fst (scan groups)) as [m |].
        -- destruct Hmin as [(k & gk & Hgk & Hm) Hleast].
           destruct (PrimFloat.ltb scale m) eqn:Hless.
           ++ split; [by exists (length groups), g |].
              intros j g' scale' Hg' Hscale'.
              destruct (Hcases j g' Hg') as [Hold | [-> ->]].
              ** apply (float_not_below scale' scale m); [| exact Hless].
                 by apply (Hleast j g').
              ** unfold fitScaleOf in Hscale'. rewrite Hfit in Hscale'.
                 injection Hscale' as <-. apply float_ltb_irrefl.
           ++ split.
              { exists k, gk. split; [by apply lookup_app_l_Some | done]. }
              intros j g' scale' Hg' Hscale'.
              destruct (Hcases j g' Hg') as [Hold | [-> ->]].
              ** by apply (Hleast j g').
              ** unfold fitScaleOf in Hscale'. rewrite Hfit in Hscale'.
                 by injection Hscale' as <-.
        -- split; [by exists (length groups), g |].
           intros j g' scale' Hg' Hscale'.
           destruct (Hcases j g' Hg') as [Hold | [-> ->]].
           ++ by rewrite (Hmin j g' Hold) in Hscale'.
           ++ unfold fitScaleOf in Hscale'. rewrite Hfit in Hscale'.
              injection Hscale' as <-. apply float_ltb_irrefl.
    + split.
      * intros j. rewrite Hhas. split.
        -- intros (g' & Hg' & Hsome). exists g'.
           split; [by apply lookup_app_l_Some | done].
        -- intros (g' & Hg' & Hsome).
           destruct (Hcases j g' Hg') as [Hold | [-> ->]]; [by exists g' |].
           unfold fitScaleOf in Hsome. rewrite Hfit in Hsome.
           by destruct Hsome.
      * destruct (fst (scan groups)) as [m |].
        -- destruct Hmin as [(k & gk & Hgk & Hm) Hleast]. split.
           { exists k, gk. split; [by apply lookup_app_l_Some | done]. }
           intros j g' scale' Hg' Hscale'.
           destruct (Hcases j g' Hg') as [Hold | [-> ->]].
           ++ by apply (Hleast j g').
           ++ unfold fitScaleOf in Hscale'. by rewrite Hfit in Hscale'.
        -- intros j g' Hg'.
           destruct (Hcases j g' Hg') as [Hold | [-> ->]];
             [by apply (Hmin j g') | exact Hfit].
Qed.

(** The second loop, over the indices [ks]. *)
Lemma apply_loop (m : float) (has ks : list nat) s :
  NoDup ks ->
  exists s',
    forEach
      (fun j =>
         if bool_decide (j ∈ has)
         then modify (fun s =>
                Stage.setLayerGroups
                  (alter (Stage.applyFitScale setFitScale m) j
                     (Stage.layerGroups s)) s)
         else ret tt)
      ks s
    = (Normal tt, s')
    /\ Stage.callbackStore s' = Stage.callbackStore s
    /\ Stage.binders s' = Stage.binders s
    /\ forall j,
         Stage.layerGroups s' !! j
         = if decide (j ∈ ks /\ j ∈ has)
           then Stage.applyFitScale setFitScale m <$> Stage.layerGroups s !! j
           else Stage.layerGroups s !! j.
Proof.
  revert s. induction ks as [| k ks IH]; intros s Hnodup.
  - exists s. split; [reflexivity |]. split; [reflexivity |].
    split; [reflexivity |]. intros j. rewrite decide_False; [done |].
    intros [Hin _]. by apply not_elem_of_nil in Hin.
  - apply NoDup_cons in Hnodup as [Hfresh Hnodup]. cbn [forEach].
    destruct (bool_decide (k ∈ has)) eqn:Hk.
    + apply bool_decide_eq_true in Hk.
      set (s1 := Stage.setLayerGroups
                   (alter (Stage.applyFitScale setFitScale m) k
                      (Stage.layerGroups s)) s).
      destruct (IH s1 Hnodup) as (s' & Hloop & Hstore & Hbs & Hgroups).
      exists s'. split; [by unfold bind, modify |].
      split; [exact Hstore |]. split; [exact Hbs |].
      intros j. rewrite Hgroups. subst s1.
      cbn [Stage.layerGroups Stage.setLayerGroups]. rewrite list_lookup_alter.
      destruct (decide (k = j)) as [-> | Hne].
      * rewrite decide_False by (intros [Hin _]; done).
        rewrite decide_True; [done |]. split; [left | done].
      * destruct (decide (j ∈ ks /\ j ∈ has)) as [[Hin Hhas] | Hout].
        -- rewrite decide_True; [done |]. split; [by right | done].
        -- rewrite decide_False; [done |]. intros [Hin Hhas].
           apply elem_of_cons in Hin as [-> | Hin]; [done |]. by apply Hout.
    + apply bool_decide_eq_false in Hk.
      destruct (IH s Hnodup) as (s' & Hloop & Hstore & Hbs & Hgroups).
      exists s'. split; [by unfold bind, ret |].
      split; [exact Hstore |]. split; [exact Hbs |].
      intros j. rewrite Hgroups.
      destruct (decide (j ∈ ks /\ j ∈ has)) as [[Hin Hhas] | Hout].
      * rewrite decide_True; [done |]. split; [by right | done].
      * rewrite decide_False; [done |]. intros [Hin Hhas].
        apply elem_of_cons in Hin as [-> | Hin]; [done |]. by apply Hout.
Qed.

End FitScaleFacts.

(** X27. [syncLayerGroupScale]: when no layer group has a fit scale the
    stage is unchanged. Otherwise every layer group that has a fit scale is
    given one and the same scale, which is the fit scale of one of the layer
    groups and which no fit scale is below; the layer groups without fit
    scale, the listeners, the callback store and the binders are
    untouched. *)
Theorem syncLayerGroupScale_gives_one_scale {D E : Type}
    (calculateFitScale : D -> option float) (setFitScale : float -> D -> D)
    (s : Stage.t D E) :
  let fit := fitScaleOf (E := E) calculateFitScale in
  let sync := Stage.syncLayerGroupScale calculateFitScale setFitScale in
  ((forall j g, Stage.layerGroups s !! j = Some g -> fit g = None) ->
   sync s = (Normal tt, s))
  /\ (forall i g0, Stage.layerGroups s !! i = Some g0 -> is_Some (fit g0) ->
      exists m s',
        sync s = (Normal tt, s')
        /\ (exists k gk, Stage.layerGroups s !! k = Some gk /\ fit gk = Some m)
        /\ (forall j g scale, Stage.layerGroups s !! j = Some g ->
              fit g = Some scale -> PrimFloat.ltb scale m = false)
        /\ (forall j g, Stage.layerGroups s !! j = Some g ->
              Stage.layerGroups s' !! j
              = Some (match fit g with
                      | Some _ =>
                          Stage.mkLayerGroup (Stage.listeners g)
                            (setFitScale m (Stage.content g))
                      | None => g
                      end))
        /\ Stage.callbackStore s' = Stage.callbackStore s
        /\ Stage.binders s' = Stage.binders s).
Proof.
  cbv zeta.
  destruct (scan_spec calculateFitScale (Stage.layerGroups s)) as [Hhas Hmin].
  unfold Stage.syncLayerGroupScale, bind, get. cbv zeta.
  destruct (fst (Stage.scanFitScales calculateFitScale (Stage.layerGroups s)))
    as [m |]; split.
  - intros Hnone. destruct Hmin as [(k & gk & Hgk & Hm) _].
    by rewrite (Hnone k gk Hgk) in Hm.
  - intros i g0 Hg0 Hsome. destruct Hmin as [Hmember Hleast].
    destruct (apply_loop setFitScale m
                (snd (Stage.scanFitScales calculateFitScale (Stage.layerGroups s)))
                (seq 0 (length (Stage.layerGroups s))) s (NoDup_seq _ _))
      as (s' & Hloop & Hstore & Hbs & Hgroups).
    exists m, s'. split; [exact Hloop |]. split; [exact Hmember |].
    split; [exact Hleast |]. split; [| by split].
    intros j g Hg. rewrite Hgroups, Hg. cbn [fmap option_fmap option_map].
    destruct (fitScaleOf calculateFitScale g) as [scale |] eqn:Hfit.
    + rewrite decide_True; [done |]. split.
      * apply elem_of_seq. apply lookup_lt_Some in Hg. lia.
      * apply Hhas. exists g. split; [exact Hg |]. rewrite Hfit. by eexists.
    + rewrite decide_False; [done |]. intros [_ Hin].
      apply Hhas in Hin as (g' & Hg' & Hsome').
      assert (g' = g) by congruence. subst g'. rewrite Hfit in Hsome'.
      by destruct Hsome'.
  - reflexivity.
  - intros i g0 Hg0 Hsome. rewrite (Hmin i g0 Hg0) in Hsome. by destruct Hsome.
Qed.

Lemma syncLayerGroupScale_gives_one_scale_witness :
  exists s',
    Stage.syncLayerGroupScale fitOf giveFit
      (newStage [(Some 2%float, []); (None, []); (Some 1.5%float, [])]
         ([] : list (Stage.Binder Scales unit)))
    = (Normal tt, s')
    /\ contents s'
       = [(Some 2%float, [1.5%float]); (None, []); (Some 1.5%float, [1.5%float])].
Proof.
  destruct (syncLayerGroupScale_gives_one_scale fitOf giveFit
              (newStage [(Some 2%float, []); (None, []); (Some 1.5%float, [])]
                 ([] : list (Stage.Binder Scales unit))))
    as [_ Hsome].
  destruct (Hsome 0 (Stage.mkLayerGroup ∅ (Some 2%float, [])))
    as (m & s' & Hrun & _); [reflexivity | by eexists |].
  exists s'. split; [exact Hrun |].
  vm_compute in Hrun. injection Hrun as <-. reflexivity.
Defined.

(** ** The first LUT of a new view *)

Lemma setInitialIndex_run (w : View.World) :
  let v := View.view w in
  exists (b : bool) (position : option Point),
    View.setInitialIndex w
    = (Normal b,
       View.mkWorld
         (View.mk (View.image v) (View.windowLuts v) (View.windowPresets v)
            (View.currentPresetName v) (View.currentWl v) position
            (View.orientation v))
         (View.fired w)).
Proof.
  destruct w as [v trace]. cbn [View.view View.fired].
  unfold View.setInitialIndex, View.setCurrentIndex, bind, View.getView.
  cbn [View.view]. destruct (Geometry.isIndexInBounds _ _ _); cbn.
  - by eexists _, _.
  - exists false, (View.currentPosition v). by destruct v.
Qed.

Lemma setWindowLevelPreset_minmax_fill (silent : option bool) (w : View.World)
    (p : Preset.t) :
  let v := View.view w in
  let level := View.getWindowLevelMinMax v in
  let filled := Preset.mk (Preset.name p) (Some [level]) (Preset.perslice p) in
  lookupKey "minmax" (View.windowPresets v) = Some p ->
  Preset.wl p = None ->
  Preset.isPerslice p = false ->
  View.setWindowLevelPreset "minmax" silent w
  = View.setWindowLevel (WindowLevel.getCenter level) (WindowLevel.getWidth level)
      (Some "minmax") silent
      (View.withView
         (View.setPresets (assignKey "minmax" filled (View.windowPresets v))) w).
Proof.
  intros v level filled Hlook Hnone Hkind.
  assert (Hfilled : Preset.isPerslice filled = false) by exact Hkind.
  unfold View.setWindowLevelPreset, bind at 1, View.getView,
    View.getWindowPresets.
  fold v. rewrite Hlook, Hnone. cbn [String.eqb Ascii.eqb Bool.eqb].
  fold level filled. unfold bind at 1, modify. cbn [Preset.wl filled].
  rewrite Hfilled. reflexivity.
Qed.

Section FirstLut.

Variable img : Image.t.

Local Abbreviation level := (View.getWindowLevelMinMax (View.create img)).
Local Abbreviation quiet :=
  (WlChange (WindowLevel.getCenter level) (WindowLevel.getWidth level) true).
Local Abbreviation filled := (Preset.mk (Some "minmax") (Some [level]) None).

(** The view before and after the fallback on the first preset: new but for
    its position, then with the min/max level in force. *)
Local Abbreviation initialised := (fun w : View.World =>
  exists position,
    w = View.mkWorld
          (View.mk img ∅ [("minmax", Preset.mk (Some "minmax") None None)]
             None None position None)
          []).
Local Abbreviation levelled := (fun w : View.World =>
  exists position,
    w = View.mkWorld
          (View.mk img ∅ [("minmax", filled)] (Some "minmax") (Some level)
             position None)
          [quiet]).

Lemma returning_fallback :
  returning initialised (View.setWindowLevelPresetById 0 (Some true))
    (fun _ => levelled).
Proof.
  intros w [position ->]. exists tt.
  unfold View.setWindowLevelPresetById, bind, View.getView. cbn [View.view].
  cbn [View.getWindowPresets View.windowPresets keys fmap list_fmap fst
       lookup list_lookup from_option].
  unfold id.
  rewrite (setWindowLevelPreset_minmax_fill (Some true) _
             (Preset.mk (Some "minmax") None None)) by reflexivity.
  rewrite setWindowLevel_run.
  assert (Hlevel : View.getWindowLevelMinMax
                     (View.mk img ∅
                        [("minmax", Preset.mk (Some "minmax") None None)]
                        None None position None)
                   = level) by reflexivity.
  cbn [View.view]. rewrite Hlevel, getWindowLevelMinMax_width.
  eexists. split; [reflexivity |]. by exists position.
Qed.

Lemma returning_first_lut (rsi : option RSI.t) :
  let sliceZero := Image.getRescaleSlopeAndIntercept img (Image.AtSlice 0) in
  let built :=
    WindowLut.mk (RescaleLut.mk sliceZero (Image.BitsStored (Image.getMeta img)))
      (Image.IsSigned (Image.getMeta img)) (Some level) true in
  returning initialised (View.getCurrentWindowLut rsi)
    (fun lut w' =>
       lut = built
       /\ exists position,
            w' = View.mkWorld
                   (View.mk img {[RSI.toString sliceZero := built]}
                      [("minmax", filled)] (Some "minmax") (Some level)
                      position None)
                   [quiet; quiet]).
Proof.
  intros sliceZero built. unfold View.getCurrentWindowLut.
  apply (returning_bind _ (fun _ => initialised));
    [by apply returning_getView | intros v0].
  apply (returning_bind _ (fun _ => initialised)).
  { destruct (View.getCurrentIndex v0); [by apply returning_ret |].
    intros w [position ->]. unfold bind.
    destruct (setInitialIndex_run
                (View.mkWorld
                   (View.mk img ∅
                      [("minmax", Preset.mk (Some "minmax") None None)]
                      None None position None) []))
      as (b & position' & Hrun).
    rewrite Hrun. eexists _, _. split; [reflexivity |]. by exists position'. }
  intros _.
  apply (returning_bind _ (fun v w => initialised w /\ v = View.view w));
    [by apply returning_getView | intros v].
  cbv zeta.
  apply (returning_bind _
           (fun persliceWl w =>
              persliceWl = None /\ initialised w /\ v = View.view w)).
  { intros w [[position ->] ->]. eexists _, _. split; [reflexivity |].
    split; [reflexivity |]. split; [by exists position | reflexivity]. }
  intros persliceWl.
  apply (returning_bind _ (fun found w => found = Some level /\ levelled w)).
  { intros w (-> & [position ->] & ->). cbn [View.view View.currentWl].
    destruct (returning_fallback
                (View.mkWorld
                   (View.mk img ∅
                      [("minmax", Preset.mk (Some "minmax") None None)]
                      None None position None) []))
      as ([] & w1 & Hrun & [position' ->]); [by exists position |].
    unfold bind at 1. rewrite Hrun. eexists _, _. split; [reflexivity |].
    split; [reflexivity | by exists position']. }
  intros found.
  apply (returning_bind _
           (fun v w => found = Some level /\ levelled w /\ v = View.view w)).
  { apply returning_getView. by intros w [Hfound Hw]. }
  intros v2.
  apply (returning_bind _
           (fun hit w =>
              found = Some level
              /\ hit = (WindowLut.create
                          (RescaleLut.mk sliceZero
                             (Image.BitsStored (Image.getMeta img)))
                          (Image.IsSigned (Image.getMeta img)),
                        RSI.toString sliceZero)
              /\ exists position,
                   w = View.mkWorld
                         (View.mk img {[RSI.toString sliceZero := fst hit]}
                            [("minmax", filled)] (Some "minmax") (Some level)
                            position None)
                         [quiet])).
  { intros w (Hfound & [position ->] & ->).
    cbn [View.view View.windowLuts View.image]. rewrite lookup_empty.
    eexists _, _. split; [reflexivity |]. split; [exact Hfound |].
    split; [reflexivity |]. exists position. cbn [fst].
    unfold View.withView, View.setLuts. cbn. by rewrite insert_empty. }
  intros hit w (-> & -> & [position ->]). cbn [fst snd].
  cbn [WindowLut.getWindowLevel WindowLut.create WindowLevel.equals negb].
  eexists _, _. split; [reflexivity |]. split; [reflexivity |].
  exists position. unfold View.withView, View.setLuts. cbn.
  by rewrite insert_singleton_eq.
Qed.

End FirstLut.

(** X28. The first LUT of a new view: [getCurrentWindowLut] on a view that
    was just created returns, for any RSI argument. It falls back on the
    first preset, "minmax", which it fills and activates silently, builds
    the LUT on the RSI of slice 0, gives it the min/max level and leaves it
    alone in the cache under its own key; exactly two wlchange events are
    fired, both with skipGenerate true. *)
Theorem first_lut_is_minmax (img : Image.t) (rsi : option RSI.t) :
  let v := View.create img in
  let level := View.getWindowLevelMinMax v in
  let sliceZero := Image.getRescaleSlopeAndIntercept img (Image.AtSlice 0) in
  let quiet :=
    WlChange (WindowLevel.getCenter level) (WindowLevel.getWidth level) true in
  exists lut w',
    View.getCurrentWindowLut rsi (View.mkWorld v []) = (Normal lut, w')
    /\ lut
       = WindowLut.mk (RescaleLut.mk sliceZero (Image.BitsStored (Image.getMeta img)))
           (Image.IsSigned (Image.getMeta img)) (Some level) true
    /\ View.windowLuts (View.view w') = {[RSI.toString sliceZero := lut]}
    /\ View.currentWl (View.view w') = Some level
    /\ View.currentPresetName (View.view w') = Some "minmax"
    /\ lookupKey "minmax" (View.windowPresets (View.view w'))
       = Some (Preset.mk (Some "minmax") (Some [level]) None)
    /\ View.fired w' = [quiet; quiet].
Proof.
  cbv zeta.
  destruct (returning_first_lut img rsi (View.mkWorld (View.create img) []))
    as (lut & w' & Hrun & -> & position & ->); [by exists None |].
  eexists _, _. split; [exact Hrun |]. repeat split.
Qed.

(** ** What the peers show after a wlchange *)

Lemma getViewLayers_replaceFirst (layers rest : list ViewLayer) (d : nat)
    (layer layer' : ViewLayer) :
  filter (fun l => dataIndex l = d) layers = layer :: rest ->
  dataIndex layer' = d ->
  filter (fun l => dataIndex l = d) (replaceFirst d layer' layers)
  = layer' :: rest.
Proof.
  intros Hfound Hdata. induction layers as [| l layers IH]; [discriminate |].
  cbn [replaceFirst]. destruct (decide (dataIndex l = d)) as [Hl | Hl].
  - rewrite filter_cons_True in Hfound by done. injection Hfound as _ <-.
    by rewrite filter_cons_True.
  - rewrite filter_cons_False in Hfound by done.
    rewrite filter_cons_False by done. by apply IH.
Qed.

Lemma first_layer_data (c : GroupContent) (d : nat) (layer : ViewLayer)
    (rest : list ViewLayer) :
  getViewLayersByDataIndex c d = layer :: rest -> dataIndex layer = d.
Proof.
  intros Hfound.
  assert (Hin : layer ∈ getViewLayersByDataIndex c d) by (rewrite Hfound; left).
  unfold getViewLayersByDataIndex in Hin.
  by apply list_elem_of_filter in Hin as [Hdata _].
Qed.

(** The callback of the window/level binder on a layer group that shows the
    data of the event. *)
Lemma windowLevelCallback_level (c : GroupContent) (d : nat) (wc ww : float)
    (skip : bool) (layer : ViewLayer) (rest : list ViewLayer) :
  PrimFloat.ltb ww 1 = false ->
  getViewLayersByDataIndex c d = layer :: rest ->
  let c' := fst (windowLevelCallback c (mkLayerEvent d (WlChange wc ww skip))) in
  exists layer',
    getViewLayersByDataIndex c' d = layer' :: rest
    /\ (layerView layer' = withLevel "manual" (WindowLevel.mk wc ww) (layerView layer)
        \/ WindowLevel.equals (WindowLevel.mk wc ww)
             (View.currentWl (layerView layer)) = true
           /\ layer' = layer).
Proof.
  intros Hwide Hfound. cbv zeta.
  pose proof (first_layer_data c d layer rest Hfound) as Hdata.
  unfold windowLevelCallback. cbn [viewEvent dataindex]. rewrite Hfound.
  cbn [fst]. unfold setLayerWindowLevel. cbn [fst].
  rewrite setWindowLevel_run, Hwide. cbn [orb snd View.view].
  eexists. split.
  { unfold getViewLayersByDataIndex. cbn [viewLayers].
    apply (getViewLayers_replaceFirst _ rest d layer);
      [exact Hfound | exact Hdata]. }
  destruct (WindowLevel.equals _ _) eqn:Hsame; cbn [View.view].
  - right. split; [reflexivity | by destruct layer].
  - by left.
Qed.

(** X29. What a wlchange leaves on the peers: on a stage wired for the
    window/level binder, after a layer group fired a wlchange of width not
    below one for some data, the first view layer of that data in every
    other layer group has the level of the event in force, under the name
    "manual", unless it already had a level that compares equal, which it
    keeps. *)
Theorem wlchange_synchronises_levels
    (s : Stage.t GroupContent LayerEvent) (ref A d : nat) (wc ww : float)
    (skip : bool) (fuel : nat) :
  let b := WindowLevelBinder ref in
  let event := mkLayerEvent d (WlChange wc ww skip) in
  wired b s ->
  A < length (Stage.layerGroups s) ->
  2 <= fuel ->
  PrimFloat.ltb ww 1 = false ->
  exists s',
    Stage.fireEvent layerEventType fuel A event s = Some (Normal tt, s')
    /\ forall p c layer rest,
         p <> A -> contents s !! p = Some c ->
         getViewLayersByDataIndex c d = layer :: rest ->
         exists c' layer',
           contents s' !! p = Some c'
           /\ getViewLayersByDataIndex c' d = layer' :: rest
           /\ (layerView layer'
               = withLevel "manual" (WindowLevel.mk wc ww) (layerView layer)
               \/ WindowLevel.equals (WindowLevel.mk wc ww)
                    (View.currentWl (layerView layer)) = true
                  /\ layer' = layer).
Proof.
  intros b event Hwired HA Hfuel Hwide.
  destruct fuel as [| [| fuel]]; [lia | lia |].
  eexists. split.
  { apply (fireEvent_wired layerEventType b
             (windowLevelBinder_echoesOwnType ref) fuel A event s Hwired HA).
    reflexivity. }
  intros p c layer rest Hp Hc Hfound.
  unfold contents in Hc. rewrite list_lookup_fmap in Hc.
  destruct (Stage.layerGroups s !! p) as [g |] eqn:Hg; [| discriminate].
  injection Hc as <-.
  destruct (windowLevelCallback_level (Stage.content g) d wc ww skip layer rest
              Hwide Hfound) as (layer' & Hfound' & Hlevel).
  eexists _, layer'. split; [| split; [exact Hfound' | exact Hlevel]].
  unfold contents. cbn [Stage.layerGroups Stage.setLayerGroups].
  rewrite list_lookup_fmap, syncPeers_lookup by apply peers_NoDup.
  rewrite Hg, decide_True; [reflexivity |].
  apply elem_of_peers. split; [| done]. apply lookup_lt_is_Some_1. by exists g.
Qed.

Lemma wlchange_synchronises_levels_witness :
  let bound :=
    snd (Stage.bindLayerGroups
           (newStage [layerGroupOf 0; layerGroupOf 0] [WindowLevelBinder 0])) in
  exists s' c' layer',
    Stage.fireEvent layerEventType 2 0 (mkLayerEvent 0 (WlChange 40 400 false))
      bound
    = Some (Normal tt, s')
    /\ contents s' !! 1 = Some c'
    /\ getViewLayersByDataIndex c' 0 = [layer']
    /\ View.currentWl (layerView layer') = Some (WindowLevel.mk 40 400).
Proof.
  cbv zeta. destruct sample_bound as (bound & Hbind & Hwired & Hc & Hlen & Hbs).
  rewrite Hbind. cbn [snd].
  destruct (wlchange_synchronises_levels bound 0 0 0 40 400 false 2)
    as (s' & Hfire & Hpeers); [exact Hwired | lia | lia | reflexivity |].
  destruct (Hpeers 1 (layerGroupOf 0)
              (mkViewLayer 0 (View.create sampleImage)) [])
    as (c' & layer' & Hc' & Hfound & [Hset | [Hsame _]]).
  - lia.
  - by rewrite Hc.
  - reflexivity.
  - exists s', c', layer'. split; [exact Hfire |]. split; [exact Hc' |].
    split; [exact Hfound |]. by rewrite Hset.
  - discriminate Hsame.
Defined.
